(** * Patent2SDG: graph assembly, opportunity clustering and flagship selection

    A shallow embedding of the computational core of the Patent2SDG
    application ([nodes/opportunity_node.py], [app.py], [graph_builder.py],
    [sdg_list.py], [utils/narrative_generator.py]).

    Conventions of the embedding:
    - a Python [dict] is an insertion-ordered association list whose keys are
      pairwise distinct ([dict_wf]); iteration follows insertion order;
    - a Python [set] of document ids is a [gset string];
    - a finite NumPy float is the rational number ([Q]) it denotes, and
      float32 arithmetic rounds ([float32]); the cosine similarity of
      scikit-learn and the sentence encoder are parameters of the
      development;
    - a raised exception is the [Raise] constructor of [result]. *)

From Stdlib Require Import QArith Qround Qabs Ascii String.
From stdpp Require Import gmap strings list fin_maps pretty sorting.

(** ** Python dictionaries *)

Module Dict.

Abbreviation dict K V := (list (K * V)).

Definition keys {K V} (d : dict K V) : list K := d.*1.

Definition values {K V} (d : dict K V) : list V := d.*2.

(** [items] is the identity on the representation: [(key, value)] pairs in
    insertion order. *)
Definition items {K V} (d : dict K V) : list (K * V) := d.

Definition dict_wf {K V} (d : dict K V) : Prop := NoDup (keys d).

(** [d[k]], [None] standing for [KeyError]. *)
Fixpoint get `{EqDecision K} {V} (d : dict K V) (k : K) : option V :=
  match d with
  | [] => None
  | (k', v) :: r => if decide (k' = k) then Some v else get r k
  end.

(** [d[k] = v]: overwrite in place when [k] is present, append otherwise. *)
Fixpoint set `{EqDecision K} {V} (d : dict K V) (k : K) (v : V) : dict K V :=
  match d with
  | [] => [(k, v)]
  | (k', v') :: r =>
      if decide (k' = k) then (k, v) :: r else (k', v') :: set r k v
  end.

End Dict.

Import Dict.

(** ** [itertools.combinations(xs, 2)] *)

Fixpoint combinations2 {A} (xs : list A) : list (A * A) :=
  match xs with
  | [] => []
  | x :: r => map (pair x) r ++ combinations2 r
  end.

(** ** Vectors and [np.mean(vecs, axis=0)] *)

Abbreviation vec := (list Q).

(** The embeddings are float32 arrays, and NumPy adds and divides them in
    float32.  [float32] rounds a rational to the nearest binary32 number,
    ties to even: 24 significant bits, least exponent -126, so that the
    spacing below 2^-126 is that of the subnormal numbers.  Infinities and
    NaN have no counterpart: the rounding is that of NumPy for results
    below 2^128 in magnitude. *)

(** The exponent [e] with [2^e <= x < 2^(e+1)], for a positive [x]. *)
Definition floor_log2 (x : Q) : Z :=
  let e := (Z.log2 (Qnum x) - Z.log2 (Zpos (Qden x)))%Z in
  if Qle_bool (2 ^ e) x then e else (e - 1)%Z.

Definition round_half_even (x : Q) : Z :=
  let f := Qfloor x in
  match (x - inject_Z f ?= 1 # 2)%Q with
  | Lt => f
  | Gt => (f + 1)%Z
  | Eq => if Z.even f then f else (f + 1)%Z
  end.

Definition float32 (x : Q) : Q :=
  let x := Qred x in
  if Qeq_bool x 0 then 0%Q
  else
    let e := Z.max (floor_log2 (Qabs x)) (-126) in
    let quantum := (2 ^ (e - 23))%Q in
    Qred (inject_Z (round_half_even (x / quantum)) * quantum).

(** [u + v] on float32 arrays. *)
Definition vadd (u v : vec) : vec := zip_with (fun a b => float32 (a + b)) u v.

(** [np.add.reduce] along axis 0: the rows are added one after the other. *)
Definition vsum (v0 : vec) (vs : list vec) : vec := foldl vadd v0 vs.

(** [np.mean(vecs, axis=0)]: the float32 sum of the rows, divided by their
    number in float32.  NumPy yields the scalar [nan] for an empty list of
    rows; the embedding has no such value and returns the empty vector
    there. Rows are taken to have one length, as the embeddings of one model
    do. *)
Definition np_mean (vecs : list vec) : vec :=
  match vecs with
  | [] => []
  | v0 :: vs =>
      map (fun s => float32 (s / inject_Z (Z.of_nat (length vecs)))) (vsum v0 vs)
  end.

(** ** Results of fallible code *)

Inductive exn : Type := KeyError | IndexError | ValueError.

Inductive result (A : Type) : Type :=
  | Return (a : A)
  | Raise (e : exn).
Arguments Return {A} a.
Arguments Raise {A} e.

#[global] Instance result_ret : MRet result := fun _ a => Return a.

#[global] Instance result_bind : MBind result := fun _ _ k m =>
  match m with
  | Return a => k a
  | Raise e => Raise e
  end.

Definition subscript `{EqDecision K} {V} (d : dict K V) (k : K) : result V :=
  match get d k with
  | Some v => Return v
  | None => Raise KeyError
  end.

(** ** [nodes/opportunity_node.py] *)

Record OpportunityNode : Type := {
  opp_id : string;
  opp_label : string;
  opp_embedding : vec
}.

Definition opportunity_id (idx : nat) : string := "OPPORTUNITY_" +:+ pretty idx.

Definition opportunity_label (idx : nat) (group : gset string) : string :=
  "Shared Opportunity " +:+ pretty idx +:+ " (" +:+ pretty (size group)
    +:+ " patents)".

Section Clustering.

Variable cosine_similarity : vec → vec → Q.

(** The state of the first loop: the accepted [groups] and the [used] ids. *)
Definition grouping_state : Type := list (gset string) * gset string.

Definition dominated (group : gset string) (groups : list (gset string)) : bool :=
  existsb (fun g => bool_decide (group ⊆ g)) groups.

Definition grouping_step (threshold : Q) (st : grouping_state)
    (p : (string * vec) * (string * vec)) : grouping_state :=
  let '(groups, used) := st in
  let '((k1, v1), (k2, v2)) := p in
  let sim := cosine_similarity v1 v2 in
  if Qle_bool threshold sim then
    let group : gset string := {[k1; k2]} in
    let groups' := if negb (dominated group groups) then groups ++ [group] else groups in
    (groups', used ∪ group)
  else (groups, used).

Definition collect_groups (patent_embeddings : dict string vec) (threshold : Q)
    : grouping_state :=
  foldl (grouping_step threshold) ([], ∅) (combinations2 (items patent_embeddings)).

(** The body of the second loop, for the group numbered [idx]. *)
Definition make_opportunity (patent_embeddings : dict string vec)
    (idx : nat) (group : gset string) : result (OpportunityNode * (string * gset string)) :=
  vecs ← mapM (subscript patent_embeddings) (elements group);
  let center := np_mean vecs in
  let opp_id := opportunity_id idx in
  Return ({| opp_id := opp_id;
             opp_label := opportunity_label idx group;
             opp_embedding := center |}, (opp_id, group)).

Fixpoint make_opportunities (patent_embeddings : dict string vec)
    (idx : nat) (groups : list (gset string))
    (acc : list OpportunityNode * dict string (gset string))
    : result (list OpportunityNode * dict string (gset string)) :=
  match groups with
  | [] => Return acc
  | group :: rest =>
      r ← make_opportunity patent_embeddings idx group;
      make_opportunities patent_embeddings (S idx) rest
        (acc.1 ++ [r.1], set acc.2 r.2.1 r.2.2)
  end.

Definition generate_shared_opportunity_nodes (patent_embeddings : dict string vec)
    (threshold : Q) : result (list OpportunityNode * dict string (gset string)) :=
  let groups := (collect_groups patent_embeddings threshold).1 in
  make_opportunities patent_embeddings 1 groups ([], []).

End Clustering.


(** ** Comparisons of scores *)

(** [x >= y] and [x > y] on floats. *)
Definition Qge_bool (x y : Q) : bool := Qle_bool y x.
Definition Qgt_bool (x y : Q) : bool := negb (Qle_bool x y).

(** [xs[i]], raising [IndexError] out of range. *)
Definition index {A} (xs : list A) (i : nat) : result A :=
  match xs !! i with
  | Some x => Return x
  | None => Raise IndexError
  end.

(** A [for] loop threading a state through a fallible body. *)
Fixpoint for_loop {S A} (body : S → A → result S) (s : S) (xs : list A) : result S :=
  match xs with
  | [] => Return s
  | x :: r => s' ← body s x; for_loop body s' r
  end.

(** ** The graph ([networkx.Graph]) *)

Module Nx.

(** Node attributes by node id, and the symmetric adjacency with the edge
    weight as edge data. *)
Record Graph : Type := {
  node : gmap string (gmap string string);
  adj : gmap string (gmap string Q)
}.

Definition empty : Graph := {| node := ∅; adj := ∅ |}.

(** The first lines of [add_node] and [add_edge]: an unknown node gets empty
    attributes and an empty neighbourhood. *)
Definition touch (G : Graph) (n : string) : Graph :=
  match node G !! n with
  | Some _ => G
  | None => {| node := <[n := ∅]> (node G); adj := <[n := ∅]> (adj G) |}
  end.

(** [G.add_node(n, **attrs)]: new attributes override the old ones. *)
Definition add_node (G : Graph) (n : string) (attrs : gmap string string) : Graph :=
  let G := touch G n in
  {| node := <[n := attrs ∪ default ∅ (node G !! n)]> (node G); adj := adj G |}.

(** [G.add_edge(u, v, weight=w)]: both directions are written; an existing
    edge between [u] and [v] is overwritten. *)
Definition add_edge (G : Graph) (u v : string) (w : Q) : Graph :=
  let G := touch (touch G u) v in
  let a1 := <[u := <[v := w]> (default ∅ (adj G !! u))]> (adj G) in
  let a2 := <[v := <[u := w]> (default ∅ (a1 !! v))]> a1 in
  {| node := node G; adj := a2 |}.

(** [G.nodes[n][key] = value] *)
Definition set_attr (G : Graph) (n key value : string) : result Graph :=
  match node G !! n with
  | Some attrs => Return {| node := <[n := <[key := value]> attrs]> (node G); adj := adj G |}
  | None => Raise KeyError
  end.

Definition edge_weight (G : Graph) (u v : string) : option Q :=
  adj G !! u ≫= (.!! v).

Definition has_edge (G : Graph) (u v : string) : Prop :=
  is_Some (edge_weight G u v).

(** The neighbourhood of [x] in an adjacency. *)
Definition nbrs (a : gmap string (gmap string Q)) (x : string) : gmap string Q :=
  default ∅ (a !! x).

Definition neighbors (G : Graph) (u : string) : gmap string Q :=
  nbrs (adj G) u.

(** The invariant networkx maintains: only known nodes have a
    neighbourhood, and the adjacency is symmetric. *)
Definition wf (G : Graph) : Prop :=
  (∀ n, node G !! n = None → adj G !! n = None)
  ∧ (∀ x y, edge_weight G x y = edge_weight G y x).

End Nx.

(** ** [nodes/sdg_node.py], [sdg_list.py], [graph_builder.py] *)

Record SDGNode : Type := {
  sdg_id : string;
  sdg_name : string;
  sdg_description : string
}.

Definition sdgs : list SDGNode := [
  {| sdg_id := "SDG1"; sdg_name := "No Poverty";
     sdg_description := "End poverty in all its forms everywhere." |};
  {| sdg_id := "SDG2"; sdg_name := "Zero Hunger";
     sdg_description := "End hunger, achieve food security and improved nutrition and promote sustainable agriculture." |};
  {| sdg_id := "SDG3"; sdg_name := "Good Health and Well-being";
     sdg_description := "Ensure healthy lives and promote well-being for all at all ages." |};
  {| sdg_id := "SDG4"; sdg_name := "Quality Education";
     sdg_description := "Ensure inclusive and equitable quality education and promote lifelong learning opportunities for all." |};
  {| sdg_id := "SDG5"; sdg_name := "Gender Equality";
     sdg_description := "Achieve gender equality and empower all women and girls." |};
  {| sdg_id := "SDG6"; sdg_name := "Clean Water and Sanitation";
     sdg_description := "Ensure availability and sustainable management of water and sanitation for all." |};
  {| sdg_id := "SDG7"; sdg_name := "Affordable and Clean Energy";
     sdg_description := "Ensure access to affordable, reliable, sustainable and modern energy for all." |};
  {| sdg_id := "SDG8"; sdg_name := "Decent Work and Economic Growth";
     sdg_description := "Promote sustained, inclusive and sustainable economic growth, full and productive employment and decent work for all." |};
  {| sdg_id := "SDG9"; sdg_name := "Industry, Innovation and Infrastructure";
     sdg_description := "Build resilient infrastructure, promote inclusive and sustainable industrialization and foster innovation." |};
  {| sdg_id := "SDG10"; sdg_name := "Reduced Inequalities";
     sdg_description := "Reduce inequality within and among countries." |};
  {| sdg_id := "SDG11"; sdg_name := "Sustainable Cities and Communities";
     sdg_description := "Make cities and human settlements inclusive, safe, resilient and sustainable." |};
  {| sdg_id := "SDG12"; sdg_name := "Responsible Consumption and Production";
     sdg_description := "Ensure sustainable consumption and production patterns." |};
  {| sdg_id := "SDG13"; sdg_name := "Climate Action";
     sdg_description := "Take urgent action to combat climate change and its impacts." |};
  {| sdg_id := "SDG14"; sdg_name := "Life Below Water";
     sdg_description := "Conserve and sustainably use the oceans, seas and marine resources for sustainable development." |};
  {| sdg_id := "SDG15"; sdg_name := "Life on Land";
     sdg_description := "Protect, restore and promote sustainable use of terrestrial ecosystems, sustainably manage forests, combat desertification, and halt and reverse land degradation and halt biodiversity loss." |};
  {| sdg_id := "SDG16"; sdg_name := "Peace, Justice and Strong Institutions";
     sdg_description := "Promote peaceful and inclusive societies for sustainable development, provide access to justice for all and build effective, accountable and inclusive institutions at all levels." |};
  {| sdg_id := "SDG17"; sdg_name := "Partnerships for the Goals";
     sdg_description := "Strengthen the means of implementation and revitalize the global partnership for sustainable development." |}
].

Definition build_sdg_graph (sdgs : list SDGNode) : Nx.Graph :=
  foldl (fun G sdg =>
           Nx.add_node G (sdg_id sdg)
             {[ "label" := sdg_name sdg; "description" := sdg_description sdg ]})
        Nx.empty sdgs.

(** ** [app.py]: the "Classify and Display Graph" handler *)

Definition patent_node_id (filename : string) : string := "PATENT_" +:+ filename.

Section Handler.

(** [SentenceTransformer.encode], [sklearn]'s [cosine_similarity] on two
    vectors, and NumPy's [argsort]. *)
Variable encode : string → vec.
Variable cosine_similarity : vec → vec → Q.
Variable argsort : list Q → list nat.

(** Lines 177-180: the taxonomy embeddings and the taxonomy skeleton. *)
Definition sdg_embeddings (sdgs : list SDGNode) : list vec :=
  map (fun sdg => encode (sdg_description sdg)) sdgs.

Definition tag_sdgs (sdgs : list SDGNode) (G : Nx.Graph) : result Nx.Graph :=
  for_loop (fun G sdg => Nx.set_attr G (sdg_id sdg) "type" "sdg") G sdgs.

(** [cosine_similarity([emb], sdg_embeddings)[0]]: scikit-learn rejects an
    empty second argument with a [ValueError]. *)
Definition similarities (emb : vec) (sdg_embeddings : list vec) : result (list Q) :=
  match sdg_embeddings with
  | [] => Raise ValueError
  | _ :: _ => Return (map (cosine_similarity emb) sdg_embeddings)
  end.

(** [sims.argsort()[::-1][:5]] *)
Definition top_indices (sims : list Q) : list nat :=
  take 5 (reverse (argsort sims)).

(** Lines 191-200, the body of the inner loop (the rows collected for the
    results table do not reach the graph and are left out). *)
Definition attach_sdg (sdgs : list SDGNode) (sims : list Q) (filename : string)
    (G : Nx.Graph) (i : nat) : result Nx.Graph :=
  sim_score ← index sims i;
  sdg ← index sdgs i;
  let node_id := patent_node_id filename in
  let G := Nx.add_node G node_id {[ "label" := filename; "type" := "patent" ]} in
  Return (Nx.add_edge G node_id (sdg_id sdg) sim_score).

(** Lines 185-200, the body of the outer loop. *)
Definition classify_document (sdgs : list SDGNode)
    (st : Nx.Graph * dict string vec) (item : string * string)
    : result (Nx.Graph * dict string vec) :=
  let '(full_G, patent_embeddings) := st in
  let '(filename, text) := item in
  let emb := encode text in
  let patent_embeddings := set patent_embeddings filename emb in
  sims ← similarities emb (sdg_embeddings sdgs);
  full_G ← for_loop (attach_sdg sdgs sims filename) full_G (top_indices sims);
  Return (full_G, patent_embeddings).

Definition classify_documents (sdgs : list SDGNode) (full_G : Nx.Graph)
    (text_data : dict string string) : result (Nx.Graph * dict string vec) :=
  for_loop (classify_document sdgs) (full_G, []) (items text_data).

(** Lines 202-205. The source compares against the literal [0.75]; the
    literal is the argument [threshold] here and [link_documents] fixes it. *)
Definition link_step (threshold : Q) (full_G : Nx.Graph)
    (p : (string * vec) * (string * vec)) : Nx.Graph :=
  let '((f1, e1), (f2, e2)) := p in
  let sim := cosine_similarity e1 e2 in
  if Qgt_bool sim threshold then
    Nx.add_edge full_G (patent_node_id f1) (patent_node_id f2) sim
  else full_G.

Definition link_documents_above (threshold : Q) (full_G : Nx.Graph)
    (patent_embeddings : dict string vec) : Nx.Graph :=
  foldl (link_step threshold) full_G (combinations2 (items patent_embeddings)).

Definition link_documents : Nx.Graph → dict string vec → Nx.Graph :=
  link_documents_above 0.75.

End Handler.

(** Python's [max(xs, key=key)]: the first element whose key is maximal. *)
Fixpoint max_from {A} (key : A → result nat) (best : A) (kbest : nat)
    (xs : list A) : result A :=
  match xs with
  | [] => Return best
  | x :: r =>
      kx ← key x;
      if kbest <? kx then max_from key x kx r else max_from key best kbest r
  end.

Definition py_max {A} (key : A → result nat) (xs : list A) : result A :=
  match xs with
  | [] => Raise ValueError
  | x :: r => kx ← key x; max_from key x kx r
  end.

(** Line 219: the documents handed to the startup narrative. A [list(...)]
    of a set enumerates its members. *)
Definition patents_for_startup (opp_links : dict string (gset string))
    (patent_embeddings : dict string vec) : result (list string) :=
  match opp_links with
  | _ :: _ =>
      k ← py_max (fun k => g ← subscript opp_links k; Return (size g)) (keys opp_links);
      g ← subscript opp_links k;
      Return (elements g)
  | [] => Return (keys patent_embeddings)
  end.

(** ** [utils/narrative_generator.py] *)

Definition newline : string := String "010"%char EmptyString.

(** [sorted(xs, key=key, reverse=True)]: descending, equal keys keep their
    original order. *)
Fixpoint insert_desc {A} (key : A → Q) (x : A) (xs : list A) : list A :=
  match xs with
  | [] => [x]
  | y :: r => if Qge_bool (key x) (key y) then x :: y :: r else y :: insert_desc key x r
  end.

(** Elements are inserted from the last to the first, each in front of the
    later elements that do not beat it. *)
Definition sorted_desc {A} (key : A → Q) (xs : list A) : list A :=
  foldr (insert_desc key) [] xs.

Section Narrative.

(** The regular-expression engine and the Unicode-aware string methods. *)
Variable re_sub : string → string → string → string.
Variable re_sub_ignorecase : string → string → string → string.
Variable re_split : string → string → list string.
Variable str_replace : string → string → string → string.
Variable str_strip : string → string.
Variable isdigit : ascii → bool.
Variable isalpha : string → bool.
Variable title : string → string.
Variable upper : string → string.

(** [TfidfVectorizer(stop_words="english", max_features=100)]: its analyzer
    (lower-casing, tokens of two or more word characters, English stop words
    dropped), the selection of at most 100 features in sorted order, and the
    column sums of the tf-idf matrix. *)
Variable analyze : string → list string.
Variable select_features : list string → list string → list string.
Variable tfidf_column_sum : list string → string → Q.

(** [random.choice] *)
Variable random_choice : list string → string.

Definition clean_text (text : string) : string :=
  let text := re_sub "\([0-9]{2}\)" EmptyString text in
  let text := re_sub "\bEP\d+[A-Z]?\d*\b" EmptyString text in
  let text := re_sub "[A-Z]{2,}\d{4,}" EmptyString text in
  let text :=
    re_sub_ignorecase
      "\b(Patent|Application|Filed|Bulletin|Gazette|Number|Date|Publication)\b.*?(\.|\n)"
      EmptyString text in
  let text := re_sub "(?<=[a-z])(?=[A-Z])" " " text in
  let text := str_replace newline " " text in
  str_strip (re_sub "\s+" " " text).

Definition any_digit (s : string) : bool :=
  existsb isdigit (list_ascii_of_string s).

Definition summarize_text (text : string) (max_sentences : nat) : string :=
  let sentences := re_split "(?<=[.!?])\s+" text in
  let good_sentences :=
    filter (fun s => (40 <? String.length s) && negb (any_digit s) = true) sentences in
  match good_sentences with
  | _ :: _ => String.concat " " (take max_sentences good_sentences)
  | [] => substring 0 300 text
  end.

Definition stopwords : list string := [
  "development"; "technology"; "system"; "method"; "device";
  "approach"; "solution"; "innovation"; "data"; "information";
  "application"; "product"; "field"; "based"; "process"; "unit"
].

(** [fit_transform] followed by [get_feature_names_out] and the column sums:
    scikit-learn raises [ValueError] ("empty vocabulary") when the documents
    yield no term at all. *)
Definition vocabulary (texts : list string) : list string :=
  remove_dups (concat (map analyze texts)).

Definition fit_transform (texts : list string) : result (list (string * Q)) :=
  match vocabulary texts with
  | [] => Raise ValueError
  | vocab =>
      let feature_array := select_features texts vocab in
      Return (map (fun f => (f, tfidf_column_sum texts f)) feature_array)
  end.

Definition extract_keywords (texts : list string) (max_keywords : nat)
    : result (list string) :=
  scored ← fit_transform texts;
  let keywords := sorted_desc snd scored in
  let cleaned :=
    filter (fun kw => bool_decide (kw ∉ stopwords) && (3 <? String.length kw) && isalpha kw = true)
           (map fst keywords) in
  Return (take max_keywords cleaned).

Definition fallback_description : string :=
  "This innovation addresses sustainability challenges through a novel approach. Summary: ".

Definition compose_description (summary : string) (keywords : list string) : string :=
  match keywords with
  | [] => fallback_description +:+ summary
  | kw1 :: _ =>
      let kw2 := default "technology" (keywords !! 1) in
      let kw3 := default "impact" (keywords !! 2) in
      let templates := [
        "This solution targets " +:+ kw1 +:+ " and " +:+ kw2
          +:+ ", enhancing real-world performance and impact. It improves " +:+ kw3
          +:+ " and aligns with SDGs. Summary: " +:+ summary;
        "A novel advancement in " +:+ kw1 +:+ " and " +:+ kw2
          +:+ ", this innovation offers practical benefits for " +:+ kw3
          +:+ ". It supports sustainability goals through technology integration. Summary: "
          +:+ summary;
        "Focused on " +:+ kw1 +:+ " applications combined with " +:+ kw2
          +:+ ", the system introduces improvements in " +:+ kw3
          +:+ ". This contributes to the Sustainable Development Goals. Summary: " +:+ summary;
        "This work combines " +:+ kw1 +:+ " and " +:+ kw2
          +:+ " to address emerging challenges in " +:+ kw3
          +:+ ". It supports innovation aligned with global SDG priorities. Summary: "
          +:+ summary
      ] in
      random_choice templates
  end.

(** The two fields interpolated into the opportunity block. *)
Record Narrative : Type := {
  narrative_name : string;
  narrative_description : string
}.

Definition render_opportunity (n : Narrative) : string :=
  "---" +:+ newline +:+ "Name: " +:+ narrative_name n +:+ newline
    +:+ "Description: " +:+ narrative_description n +:+ newline +:+ "---".

Definition opportunity_narrative (patent_texts : list string) : result Narrative :=
  let cleaned := map clean_text patent_texts in
  let combined := String.concat " " cleaned in
  let summary := summarize_text combined 3 in
  keywords ← extract_keywords cleaned 5;
  let name :=
    match keywords with
    | _ :: _ => String.concat " + " (map title (take 2 keywords))
    | [] => "Sustainable Opportunity"
    end in
  let description := compose_description summary keywords in
  Return {| narrative_name := name; narrative_description := description |}.

Definition describe_opportunity (patent_texts : list string) : result string :=
  n ← opportunity_narrative patent_texts;
  Return (render_opportunity n).

Definition describe_startup (patent_texts : list string) : result string :=
  let cleaned := map clean_text patent_texts in
  let combined := String.concat " " cleaned in
  let summary := summarize_text combined 3 in
  keywords ← extract_keywords cleaned 5;
  let keywords :=
    if length keywords <? 3 then keywords ++ ["sustainability"; "impact"; "access"]
    else keywords in
  let description := compose_description summary keywords in
  k0 ← index keywords 0;
  k1 ← index keywords 1;
  k2 ← index keywords 2;
  Return (newline +:+ "## Startup Idea: " +:+ title k0 +:+ "Tech" +:+ newline +:+ newline
    +:+ "**One-liner**: Leveraging " +:+ k0 +:+ " and " +:+ k1
    +:+ " for real-world sustainability." +:+ newline +:+ newline
    +:+ "**Business Model**: A digital service helping organizations align technologies with SDGs."
    +:+ newline +:+ newline
    +:+ "**Pain Point Solved**: Lack of tools to map innovation to sustainability impact."
    +:+ newline +:+ newline
    +:+ "**Impact on SDGs**: Direct alignment with SDGs like " +:+ upper k2 +:+ " and beyond."
    +:+ newline +:+ newline
    +:+ "**Description**: " +:+ description +:+ newline).

End Narrative.

(** A stable ascending argsort by insertion, the behaviour of NumPy's
    default sort on arrays this short wherever it falls back to insertion
    sort. *)
Fixpoint insert_asc (key : nat → Q) (i : nat) (sorted : list nat) : list nat :=
  match sorted with
  | [] => [i]
  | j :: r => if Qgt_bool (key j) (key i) then i :: j :: r else j :: insert_asc key i r
  end.

Definition stable_argsort (xs : list Q) : list nat :=
  foldl (fun acc i => insert_asc (fun j => default 0%Q (xs !! j)) i acc) []
        (seq 0 (length xs)).

(** ** Vocabulary of the statements *)

(** The candidate group of an enumerated pair of documents. *)
Definition pair_set (p : (string * vec) * (string * vec)) : gset string :=
  {[p.1.1; p.2.1]}.

(** The pairs that clear the clustering threshold. *)
Definition similar (cosine_similarity : vec → vec → Q) (threshold : Q)
    (p : (string * vec) * (string * vec)) : bool :=
  Qle_bool threshold (cosine_similarity p.1.2 p.2.2).

(** The accepted groups, in discovery order. *)
Definition accepted (cosine_similarity : vec → vec → Q) (threshold : Q)
    (d : dict string vec) : list (gset string) :=
  (collect_groups cosine_similarity d threshold).1.

(** The embeddings of the members of a group, in the order in which the
    set enumerates them. *)
Definition member_vectors (d : dict string vec) (g : gset string) : list vec :=
  (fun k => default [] (get d k)) <$> elements g.

Definition opportunity_node (d : dict string vec) (idx : nat) (g : gset string)
    : OpportunityNode :=
  {| opp_id := opportunity_id idx;
     opp_label := opportunity_label idx g;
     opp_embedding := np_mean (member_vectors d g) |}.

(** The sum of the [j]-th coordinates of a list of vectors. *)
Definition column_sum (j : nat) (vs : list vec) : Q :=
  foldr Qplus 0%Q ((fun v => default 0%Q (v !! j)) <$> vs).

(** ** A three-document batch

    Documents [A], [B], [C] with one-dimensional stand-in embeddings and a
    similarity table with sim(A,B) = sim(B,C) = 0.4 and sim(A,C) = 0.1. *)
Definition abc_embeddings : dict string vec :=
  [("A", [1%Q]); ("B", [2%Q]); ("C", [3%Q])].

Definition abc_similarity (u v : vec) : Q :=
  match u, v with
  | [a], [b] =>
      if Qeq_bool (a - b) 1 || Qeq_bool (b - a) 1 then 0.4%Q
      else if Qeq_bool a b then 1%Q else 0.1%Q
  | _, _ => 0%Q
  end.

(** The membership map the engine returns on that batch. *)
Definition abc_links : dict string (gset string) :=
  [(opportunity_id 1, {["A"; "B"]}); (opportunity_id 2, {["B"; "C"]})].

(** A float32 number small enough for the sum of two such numbers not to
    overflow. *)
Definition float32_value (x : Q) : Prop :=
  (float32 x == x)%Q ∧ (Qabs x <= 2 ^ 126)%Q.

(** ** Two documents one float32 step apart

    Documents [A] and [B] with the one-dimensional float32 embeddings 1 and
    1 + 2^-23, the float32 number next to 1. *)
Definition ulp_embeddings : dict string vec :=
  [("A", [1%Q]); ("B", [(8388609 # 8388608)%Q])].

(** ** A two-document batch at the linking threshold

    Documents [A] and [B] whose similarity is exactly 0.75. *)
Definition ab_embeddings : dict string vec := [("A", [1%Q]); ("B", [2%Q])].

Definition boundary_similarity (u v : vec) : Q :=
  match u, v with
  | [a], [b] => if Qeq_bool a b then 1%Q else 0.75%Q
  | _, _ => 0%Q
  end.

(** ** Scores and the contract of [argsort] *)

(** [sims[i]] where the index is known to be in range. *)
Definition score (sims : list Q) (i : nat) : Q := default 0%Q (sims !! i).

(** What NumPy documents of [argsort]: the indices of the array, arranged so
    that the values they select ascend. The order of equal values is left to
    the sorting algorithm. *)
Definition argsort_contract (argsort : list Q → list nat) : Prop :=
  ∀ xs,
    argsort xs ≡ₚ seq 0 (length xs)
    ∧ ∀ p q a b, p ≤ q → argsort xs !! p = Some a → argsort xs !! q = Some b →
        (score xs a <= score xs b)%Q.

(** The neighbourhood a document node ends up with: for each selected index
    the id of the taxonomy entry, weighted by the score. *)
Definition record_edge (l : list SDGNode) (sims : list Q)
    (m : gmap string Q) (i : nat) : gmap string Q :=
  match l !! i with
  | Some sdg => <[sdg_id sdg := score sims i]> m
  | None => m
  end.

Definition edges_map (l : list SDGNode) (sims : list Q) (top : list nat)
    : gmap string Q :=
  foldl (record_edge l sims) ∅ top.

(** The scores of a document against the taxonomy. *)
Definition document_scores (encode : string → vec)
    (cosine_similarity : vec → vec → Q) (l : list SDGNode) (text : string) : list Q :=
  map (cosine_similarity (encode text)) (sdg_embeddings encode l).

(** ** A batch whose taxonomy scores all tie

    An encoder that maps every text to the same unit vector, so that every
    cosine similarity is 1. *)
Definition unit_encoder (text : string) : vec := [1%Q].

Definition flat_similarity (u v : vec) : Q := 1%Q.

Definition one_text : dict string string := [("A", "a method for water treatment")].

(** ** [app.py]: the opportunity loop (lines 210-217) *)

(** [enumerate(xs, start=1)] *)
Definition enumerate1 {A} (xs : list A) : list (nat * A) :=
  zip (seq 1 (length xs)) xs.

Section OpportunityLoop.

(** [describe_opportunity] of [utils/narrative_generator.py], once its
    regular-expression engine, vectorizer and random choice are fixed. *)
Variable describe_opportunity : list string → result string.

(** One iteration.  The loop mutates the node object and the graph: the
    state carries the graph and the nodes as renamed so far.  The narrative
    is computed and dropped; [opp_links] is subscripted with the node's id
    before and after the id is reassigned.  A set is iterated in the order
    of [elements]. *)
Definition attach_opportunity (text_data : dict string string)
    (opp_links : dict string (gset string))
    (st : Nx.Graph * list OpportunityNode) (p : nat * OpportunityNode)
    : result (Nx.Graph * list OpportunityNode) :=
  let full_G := st.1 in
  let i := p.1 in
  let node := p.2 in
  members ← subscript opp_links (opp_id node);
  related_texts ← mapM (subscript text_data) (elements members);
  raw ← describe_opportunity related_texts;
  let node := {| opp_id := opp_id node;
                 opp_label := "Opportunity_" +:+ pretty i;
                 opp_embedding := opp_embedding node |} in
  let node := {| opp_id := "OPPORTUNITY_" +:+ pretty i;
                 opp_label := opp_label node;
                 opp_embedding := opp_embedding node |} in
  let full_G :=
    Nx.add_node full_G (opp_id node)
      {[ "label" := opp_label node; "type" := "opportunity" ]} in
  members ← subscript opp_links (opp_id node);
  Return (foldl (fun G pid => Nx.add_edge G (patent_node_id pid) (opp_id node) 1%Q)
                full_G (elements members),
          st.2 ++ [node]).

Definition attach_opportunities (text_data : dict string string)
    (opp_nodes : list OpportunityNode) (opp_links : dict string (gset string))
    (full_G : Nx.Graph) : result (Nx.Graph * list OpportunityNode) :=
  for_loop (attach_opportunity text_data opp_links) (full_G, [])
           (enumerate1 opp_nodes).

End OpportunityLoop.

(** The texts of the members of a group, in the order in which the set
    enumerates them. *)
Definition member_texts (text_data : dict string string) (g : gset string)
    : list string :=
  (fun pid => default EmptyString (get text_data pid)) <$> elements g.

(** The attributes of the node of the cluster numbered [i]. *)
Definition opportunity_attrs (i : nat) : gmap string string :=
  {[ "label" := "Opportunity_" +:+ pretty i; "type" := "opportunity" ]}.

(** Texts for the three-document batch, and a narrative that always
    returns. *)
Definition abc_texts : dict string string :=
  [("A", "first text"); ("B", "second text"); ("C", "third text")].

Definition constant_narrative (texts : list string) : result string :=
  Return "narrative".

(** The three documents as isolated nodes. *)
Definition abc_documents : Nx.Graph :=
  foldl (fun G f => Nx.add_node G (patent_node_id f)
                      {[ "label" := f; "type" := "patent" ]})
        Nx.empty ["A"; "B"; "C"].

(** ** [utils/input_manager.py] *)

(** An uploaded file: its name, and its content as the parsers see it. *)
Record UploadedFile : Type := {
  file_name : string;
  file_bytes : string
}.

(** An [xml.etree.ElementTree] element: tag, text ([None] when absent) and
    children. *)
Inductive Element : Type :=
  | Elem (tag : string) (text : option string) (children : list Element).

Definition element_tag (e : Element) : string :=
  match e with Elem tag _ _ => tag end.

Definition element_text (e : Element) : option string :=
  match e with Elem _ text _ => text end.

(** [e.iter()]: the element and its descendants in document order. *)
Fixpoint iter (e : Element) : list Element :=
  match e with
  | Elem _ _ children =>
      e :: (fix iter_all (es : list Element) : list Element :=
              match es with
              | [] => []
              | c :: r => iter c ++ iter_all r
              end) children
  end.

(** [root.find(".//tag")]: the first descendant with that tag, the root
    itself excluded. *)
Definition find_descendant (root : Element) (tag : string) : option Element :=
  head (filter (fun e => element_tag e = tag) (tail (iter root))).

(** Truthiness of a string. *)
Definition truthy (s : string) : bool := negb (String.eqb s EmptyString).

Section InputManager.

Variable str_strip : string → string.

(** [extract_text_from_file] of [utils/text_extraction.py], which sits on the
    PDF and DOCX libraries: a text, [None], or an exception. *)
Variable extract_text_from_file : UploadedFile → result (option string).

(** [ET.parse(path).getroot()] on the file's content; [None] stands for any
    exception it raises. *)
Variable parse : UploadedFile → option Element.

Definition extract_texts_from_pdf_batch (uploaded_files : list UploadedFile)
    : dict string string :=
  foldl (fun texts file =>
           match extract_text_from_file file with
           | Return (Some extracted) =>
               if truthy extracted then set texts (file_name file) (str_strip extracted)
               else texts
           | Return None => texts
           | Raise _ => texts
           end) [] uploaded_files.

Definition extract_section (root : Element) (tag : string) : string :=
  match find_descendant root tag with
  | Some s =>
      String.concat " "
        (omap (fun e => match element_text e with
                        | Some t => if truthy t then Some t else None
                        | None => None
                        end) (iter s))
  | None => EmptyString
  end.

Definition extract_text_from_ep_xml (parsed : option Element) (max_chars : nat)
    : option string :=
  match parsed with
  | Some root =>
      let content :=
        str_strip (String.concat " "
                     (map (extract_section root) ["abstract"; "description"; "claims"])) in
      if truthy content then Some (substring 0 max_chars content) else None
  | None => None
  end.

Definition extract_text_from_ep_xml_file (uploaded_file : UploadedFile)
    : dict string string :=
  match extract_text_from_ep_xml (parse uploaded_file) 5000 with
  | Some text => if truthy text then [(file_name uploaded_file, text)] else []
  | None => []
  end.

End InputManager.

(** ** [app.py]: reading the input (lines 139-173) *)

(** [s.endswith(suffix)] *)
Definition endswith (s suffix : string) : bool :=
  bool_decide (list_ascii_of_string suffix `suffix_of` list_ascii_of_string s).

(** [xs.count(x)] *)
Definition py_count (x : string) (xs : list string) : nat :=
  length (filter (fun y => y = x) xs).

(** [s.count(" ")] *)
Definition count_spaces (s : string) : nat :=
  length (filter (fun c => c = " "%char) (list_ascii_of_string s)).

(** [d.update(other)] *)
Definition update {V} (d other : dict string V) : dict string V :=
  foldl (fun d kv => set d kv.1 kv.2) d other.

(** The messages after which the handler calls [st.stop()]. *)
Inductive Stop : Type :=
  | DuplicateFiles (duplicates : gset string)
  | NotOneInputType
  | TextTooShort
  | NoValidText.

Section ReadInput.

Variable str_strip : string → string.
Variable str_lower : string → string.
Variable extract_text_from_file : UploadedFile → result (option string).
Variable parse : UploadedFile → option Element.

(** [extract_texts_from_zip_any_structure] on the archive written to a
    temporary file: it unpacks to the file system and swallows every
    exception. *)
Variable extract_texts_from_zip_any_structure : UploadedFile → dict string string.

Definition is_zip (file : UploadedFile) : bool :=
  endswith (str_lower (file_name file)) ".zip".
Definition is_pdf (file : UploadedFile) : bool :=
  endswith (str_lower (file_name file)) ".pdf".
Definition is_xml (file : UploadedFile) : bool :=
  endswith (str_lower (file_name file)) ".xml".

Definition nonempty {A} (xs : list A) : bool :=
  match xs with [] => false | _ :: _ => true end.

Definition read_input (user_text : string) (uploaded_files : list UploadedFile)
    : Stop + dict string string :=
  let used_text := str_strip user_text in
  let pdfs := filter (fun f => is_pdf f = true) uploaded_files in
  let zips := filter (fun f => is_zip f = true) uploaded_files in
  let xmls := filter (fun f => is_xml f = true) uploaded_files in
  let all_names := map file_name (pdfs ++ zips ++ xmls) in
  let duplicates : gset string :=
    list_to_set (filter (fun name => 1 < py_count name all_names) all_names) in
  if bool_decide (duplicates ≠ ∅) then inl (DuplicateFiles duplicates)
  else if negb (Nat.b2n (truthy used_text) + Nat.b2n (nonempty pdfs)
                + Nat.b2n (nonempty zips) + Nat.b2n (nonempty xmls) =? 1)
  then inl NotOneInputType
  else
    let chosen : Stop + dict string string :=
      match zips with
      | z :: _ => inr (extract_texts_from_zip_any_structure z)
      | [] =>
          if nonempty pdfs
          then inr (extract_texts_from_pdf_batch str_strip extract_text_from_file pdfs)
          else if nonempty xmls
          then inr (foldl (fun text_data x =>
                             update text_data
                               (extract_text_from_ep_xml_file str_strip parse x))
                          [] xmls)
          else if (String.length used_text <? 20) || (count_spaces used_text <? 5)
          then inl TextTooShort
          else inr [("User_Text_Input", str_strip used_text)]
      end in
    match chosen with
    | inl stop => inl stop
    | inr [] => inl NoValidText
    | inr text_data => inr text_data
    end.

End ReadInput.

(** ASCII lower-casing, and two uploads. *)
Definition ascii_lower (c : ascii) : ascii :=
  let n := nat_of_ascii c in
  if (65 <=? n) && (n <=? 90) then ascii_of_nat (n + 32) else c.

Definition lower_ascii (s : string) : string :=
  string_of_list_ascii (map ascii_lower (list_ascii_of_string s)).

Definition first_archive : UploadedFile :=
  {| file_name := "first.ZIP"; file_bytes := "one" |}.

Definition second_archive : UploadedFile :=
  {| file_name := "second.zip"; file_bytes := "two" |}.

Definition archive_listing (file : UploadedFile) : dict string string :=
  [(file_name file, file_bytes file)].

Definition no_text (file : UploadedFile) : result (option string) := Return None.

Definition flat_text (file : UploadedFile) : result (option string) :=
  Return (Some (file_bytes file)).

Definition unparsed (file : UploadedFile) : option Element := None.

(** An EPO document with an abstract and claims, and its upload. *)
Definition sample_document : Element :=
  Elem "ep-patent-document" None [
    Elem "abstract" None [Elem "p" (Some "A water filter.") []];
    Elem "claims" None [Elem "claim" None [Elem "claim-text" (Some "A filter.") []]]
  ].

Definition sample_upload : UploadedFile :=
  {| file_name := "EP1.xml"; file_bytes := "<ep-patent-document/>" |}.

Definition sample_parse (file : UploadedFile) : option Element := Some sample_document.

(** ** Vocabulary for the narrative generator *)

(** The filter [extract_keywords] applies to a feature. *)
Definition keyword_ok (isalpha : string → bool) (kw : string) : Prop :=
  kw ∉ stopwords ∧ 3 < String.length kw ∧ isalpha kw = true.

(** Stand-ins for the vectorizer, the string methods and the random choice:
    every text is one term, every term a feature of weight 1, regular
    expressions match nothing, and the choice is the first element. *)
Definition word_analyzer (text : string) : list string := [text].

Definition all_features (texts vocab : list string) : list string := vocab.

Definition unit_weight (texts : list string) (feature : string) : Q := 1%Q.

Definition first_choice (xs : list string) : string := default EmptyString (head xs).

Definition no_match (pattern repl text : string) : string := text.

Definition no_split (pattern text : string) : list string := [text].

Definition same_string (text : string) : string := text.

Definition always (b : bool) (s : string) : bool := b.

Definition never_digit (c : ascii) : bool := false.

(** The opportunity narrative of the repository over these stand-ins. *)
Definition plain_narrative : list string → result string :=
  describe_opportunity no_match no_match no_split no_match same_string
    never_digit (always true) same_string word_analyzer all_features
    unit_weight first_choice.

(** * Properties *)

(** ** Dictionaries and pair enumeration *)

Section DictFacts.
Context `{EqDecision K} {V : Type}.
Implicit Types (d : dict K V) (k : K) (v : V).

Lemma get_Some_elem_of d k v : get d k = Some v → (k, v) ∈ d.
Proof.
  induction d as [|[k' v'] r IH]; simpl; [done|].
  case_decide as Hk; intros Hg.
  - inversion Hg; subst. left.
  - right. by apply IH.
Qed.

Lemma get_elem_of d k v : dict_wf d → (k, v) ∈ d → get d k = Some v.
Proof.
  unfold dict_wf, keys.
  induction d as [|[k' v'] r IH]; simpl; intros Hwf Hin.
  - by apply elem_of_nil in Hin.
  - apply NoDup_cons in Hwf as [Hk' Hr].
    apply elem_of_cons in Hin as [Heq|Hin].
    + inversion Heq; subst. by rewrite decide_True.
    + rewrite decide_False; [by apply IH|].
      intros ->. apply Hk'. apply list_elem_of_fmap. by exists (k, v).
Qed.

Lemma get_is_Some d k : k ∈ keys d → is_Some (get d k).
Proof.
  unfold keys. induction d as [|[k' v'] r IH]; simpl; intros Hin.
  - by apply elem_of_nil in Hin.
  - case_decide; [by eexists|].
    apply elem_of_cons in Hin as [?|?]; [congruence|by apply IH].
Qed.

Lemma set_fresh d k v : k ∉ keys d → set d k v = d ++ [(k, v)].
Proof.
  unfold keys. induction d as [|[k' v'] r IH]; simpl; intros Hk; [done|].
  apply not_elem_of_cons in Hk as [Hne Hk].
  rewrite decide_False; [|congruence]. by rewrite IH.
Qed.

Lemma subscript_Return d k v : get d k = Some v → subscript d k = Return v.
Proof. unfold subscript. by intros ->. Qed.
End DictFacts.

Section Combinations.
Context {A : Type}.
Implicit Types (l : list A) (x y : A).

Lemma elem_of_combinations2 l x y :
  (x, y) ∈ combinations2 l ↔
  ∃ i j, i < j ∧ l !! i = Some x ∧ l !! j = Some y.
Proof.
  induction l as [|a r IH]; simpl.
  - split; [by intros ?%elem_of_nil|]. by intros (i & j & _ & ? & _).
  - rewrite elem_of_app, list_elem_of_fmap, IH. split.
    + intros [(z & Heq & Hz)|(i & j & Hij & Hi & Hj)].
      * inversion Heq; subst.
        apply list_elem_of_lookup in Hz as [n Hn].
        exists 0, (S n). split; [lia|done].
      * exists (S i), (S j). split; [lia|done].
    + intros (i & j & Hij & Hi & Hj).
      destruct j as [|j]; [lia|]. simpl in Hj.
      destruct i as [|i]; simpl in Hi.
      * inversion Hi; subst. left. exists y. split; [done|].
        apply list_elem_of_lookup. by exists j.
      * right. exists i, j. split; [lia|done].
Qed.

Lemma combinations2_elem_of l x y :
  (x, y) ∈ combinations2 l → x ∈ l ∧ y ∈ l.
Proof.
  intros (i & j & _ & Hi & Hj)%elem_of_combinations2.
  split; apply list_elem_of_lookup; eauto.
Qed.
End Combinations.

(** ** The grouping loop *)

Lemma pair_set_size p : p.1.1 ≠ p.2.1 → size (pair_set p) = 2.
Proof.
  intros Hne. unfold pair_set.
  rewrite size_union by set_solver. by rewrite !size_singleton.
Qed.

Lemma combinations2_keys_ne (d : dict string vec) p :
  dict_wf d → p ∈ combinations2 d → p.1.1 ≠ p.2.1.
Proof.
  intros Hwf Hp. destruct p as [x y].
  apply elem_of_combinations2 in Hp as (i & j & Hij & Hi & Hj). simpl.
  intros Heq. assert (i = j); [|lia].
  eapply (NoDup_lookup (keys d)); [done| |]; unfold keys;
    rewrite list_lookup_fmap.
  - by rewrite Hi.
  - rewrite Hj. simpl. by rewrite Heq.
Qed.

Lemma combinations2_keys (d : dict string vec) p :
  p ∈ combinations2 d → p.1.1 ∈ keys d ∧ p.2.1 ∈ keys d.
Proof.
  destruct p as [x y]. intros [Hx Hy]%combinations2_elem_of.
  split; apply list_elem_of_fmap; eauto.
Qed.

Lemma pair_sets_NoDup (d : dict string vec) :
  dict_wf d → NoDup (pair_set <$> combinations2 d).
Proof.
  unfold dict_wf, keys.
  induction d as [|[k v] r IH]; simpl; intros Hwf; [constructor|].
  apply NoDup_cons in Hwf as [Hk Hr].
  rewrite fmap_app. apply NoDup_app. split_and!.
  - rewrite <-list_fmap_compose.
    assert (Heq : (pair_set ∘ pair (k, v)) <$> r
                  = (fun a : string => ({[k; a]} : gset string)) <$> r.*1).
    { by rewrite <-list_fmap_compose. }
    rewrite Heq. apply NoDup_fmap_2_strong; [|done].
    intros a b Ha Hb Hab.
    assert (a ≠ k) by (by intros ->).
    assert (a ∈ ({[k; b]} : gset string)) as Hin by (rewrite <-Hab; set_solver).
    apply elem_of_union in Hin as [?%elem_of_singleton|?%elem_of_singleton]; done.
  - intros g (p & -> & Hp)%list_elem_of_fmap (q & Hq & Hqin)%list_elem_of_fmap.
    apply list_elem_of_fmap in Hp as (z & -> & Hz).
    apply combinations2_keys in Hqin as [H1 H2]. unfold keys in *.
    unfold pair_set in Hq. simpl in Hq.
    assert (k ∈ ({[q.1.1; q.2.1]} : gset string)) as Hin by (rewrite <-Hq; set_solver).
    apply elem_of_union in Hin as [->%elem_of_singleton| ->%elem_of_singleton]; done.
  - by apply IH.
Qed.

Section ClusteringFacts.
Variable cosine_similarity : vec → vec → Q.
Variable threshold : Q.

Local Abbreviation step := (grouping_step cosine_similarity threshold).
Local Abbreviation similar := (similar cosine_similarity threshold).

Lemma dominated_false group groups :
  size group = 2 →
  Forall (fun g => size g = 2) groups →
  group ∉ groups →
  dominated group groups = false.
Proof.
  intros Hsz Hall Hnin. unfold dominated.
  apply not_true_is_false. intros (g & Hg & Hsub)%existsb_exists.
  apply bool_decide_eq_true in Hsub. apply list_elem_of_In in Hg.
  rewrite Forall_forall in Hall.
  assert (group = g); [|by subst].
  apply set_subseteq_size_eq; [done|]. rewrite Hsz, (Hall g); done.
Qed.

(** The dominance test never rejects a pair: over pairs of distinct keys
    with pairwise different key sets, the loop keeps every pair that
    clears the threshold, in enumeration order. *)
Lemma grouping_fold ps : ∀ groups used,
  Forall (fun p => p.1.1 ≠ p.2.1) ps →
  Forall (fun g => size g = 2) groups →
  NoDup (groups ++ (pair_set <$> ps)) →
  (foldl step (groups, used) ps).1
  = groups ++ (pair_set <$> filter (fun p => similar p = true) ps).
Proof.
  induction ps as [|p ps IH]; intros groups used Hne Hsz Hnd; simpl.
  - by rewrite app_nil_r.
  - apply Forall_cons in Hne as [Hp Hne].
    destruct p as [[k1 v1] [k2 v2]]. simpl in Hp.
    rewrite filter_cons.
    change (Qle_bool threshold (cosine_similarity v1 v2))
      with (similar ((k1, v1), (k2, v2))).
    assert (Hmid : NoDup ((groups ++ [pair_set ((k1, v1), (k2, v2))])
                          ++ (pair_set <$> ps))).
    { by rewrite <-app_assoc. }
    destruct (similar ((k1, v1), (k2, v2))) eqn:Hsim.
    + rewrite decide_True by done.
      rewrite dominated_false; simpl.
      * rewrite IH; [by rewrite <-app_assoc|done| |done].
        apply Forall_app. split; [done|]. apply Forall_singleton.
        by apply (pair_set_size ((k1, v1), (k2, v2))).
      * by apply (pair_set_size ((k1, v1), (k2, v2))).
      * done.
      * apply NoDup_app in Hnd as (_ & Hdisj & _).
        intros Hin. apply (Hdisj _ Hin). simpl. left.
    + rewrite decide_False by done.
      apply IH; [done|done|].
      apply NoDup_app in Hmid as (Hg & Hdisj & Hps).
      apply NoDup_app. split_and!; [by apply NoDup_app in Hg as (? & _)| |done].
      intros g Hg'. apply Hdisj. apply elem_of_app. by left.
Qed.

Lemma collect_groups_spec (d : dict string vec) :
  dict_wf d →
  (collect_groups cosine_similarity d threshold).1
  = pair_set <$> filter (fun p => similar p = true) (combinations2 d).
Proof.
  intros Hwf. unfold collect_groups, items.
  rewrite grouping_fold; [done| |done|by apply pair_sets_NoDup].
  apply Forall_forall. intros p Hp. by apply (combinations2_keys_ne d).
Qed.
End ClusteringFacts.

(** ** The numbering loop *)

Lemma opportunity_id_inj i j : opportunity_id i = opportunity_id j → i = j.
Proof.
  unfold opportunity_id. intros H%(inj (String.app _)).
  by apply (inj pretty) in H.
Qed.

Lemma mapM_subscript (d : dict string vec) (ks : list string) :
  Forall (fun k => k ∈ keys d) ks →
  mapM (subscript d) ks = Return ((fun k => default [] (get d k)) <$> ks).
Proof.
  induction ks as [|k ks IH]; intros Hks; [done|].
  apply Forall_cons in Hks as [Hk Hks]. simpl.
  destruct (get_is_Some d k Hk) as [v Hv].
  rewrite (subscript_Return d k v Hv). simpl.
  rewrite IH by done. simpl. by rewrite Hv.
Qed.

Lemma make_opportunity_spec (d : dict string vec) idx g :
  (∀ k, k ∈ g → k ∈ keys d) →
  make_opportunity d idx g
  = Return (opportunity_node d idx g, (opportunity_id idx, g)).
Proof.
  intros Hg. unfold make_opportunity.
  rewrite mapM_subscript; [done|].
  apply Forall_forall. intros k Hk. apply Hg. by apply elem_of_elements.
Qed.

Lemma make_opportunities_spec (d : dict string vec) groups : ∀ idx acc,
  Forall (fun g : gset string => ∀ k, k ∈ g → k ∈ keys d) groups →
  Forall (fun k => ∃ j, j < idx ∧ k = opportunity_id j) (keys acc.2) →
  make_opportunities d idx groups acc
  = Return (acc.1 ++ imap (fun i g => opportunity_node d (idx + i) g) groups,
            acc.2 ++ imap (fun i g => (opportunity_id (idx + i), g)) groups).
Proof.
  induction groups as [|g groups IH]; intros idx [nodes conns] Hin Hacc; simpl.
  - by rewrite !app_nil_r.
  - apply Forall_cons in Hin as [Hg Hin].
    rewrite make_opportunity_spec by done. simpl in *.
    rewrite set_fresh.
    + rewrite IH; simpl.
      * rewrite <-!app_assoc. simpl. rewrite Nat.add_0_r.
        rewrite (imap_ext (fun i g => opportunity_node d (S (idx + i)) g)
                   ((fun i g => opportunity_node d (idx + i) g) ∘ S) groups)
          by (intros i x _; simpl; by rewrite Nat.add_succ_r).
        rewrite (imap_ext (fun i (g : gset string) => (opportunity_id (S (idx + i)), g))
                   ((fun i g => (opportunity_id (idx + i), g)) ∘ S) groups)
          by (intros i x _; simpl; by rewrite Nat.add_succ_r).
        done.
      * done.
      * unfold keys in *. rewrite fmap_app. apply Forall_app. split.
        -- eapply Forall_impl; [done|]. intros k (j & Hj & ->). exists j. split; [lia|done].
        -- apply Forall_singleton. exists idx. split; [lia|done].
    + rewrite Forall_forall in Hacc. intros (j & Hj & Heq)%Hacc.
      apply opportunity_id_inj in Heq. lia.
Qed.

Section EngineFacts.
Variable cosine_similarity : vec → vec → Q.
Variable threshold : Q.

Local Abbreviation accepted := (accepted cosine_similarity threshold).

Lemma accepted_spec d :
  dict_wf d →
  accepted d
  = pair_set <$> filter (fun p => similar cosine_similarity threshold p = true)
                        (combinations2 d).
Proof. apply collect_groups_spec. Qed.

Lemma accepted_elem_of d g :
  dict_wf d → g ∈ accepted d →
  ∃ p, p ∈ combinations2 d ∧ similar cosine_similarity threshold p = true
       ∧ g = pair_set p ∧ p.1.1 ≠ p.2.1.
Proof.
  intros Hwf Hg. rewrite accepted_spec in Hg by done.
  apply list_elem_of_fmap in Hg as (p & -> & Hp).
  apply list_elem_of_filter in Hp as [Hs Hp].
  exists p. split_and!; [done..|]. by apply (combinations2_keys_ne d).
Qed.

Lemma accepted_size d g : dict_wf d → g ∈ accepted d → size g = 2.
Proof.
  intros Hwf (p & _ & _ & -> & Hne)%accepted_elem_of; [|done].
  by apply pair_set_size.
Qed.

Lemma accepted_keys d g k : dict_wf d → g ∈ accepted d → k ∈ g → k ∈ keys d.
Proof.
  intros Hwf (p & Hp & _ & -> & _)%accepted_elem_of Hk; [|done].
  apply combinations2_keys in Hp as [H1 H2].
  unfold pair_set in Hk.
  apply elem_of_union in Hk as [->%elem_of_singleton| ->%elem_of_singleton]; done.
Qed.

Lemma accepted_NoDup d : dict_wf d → NoDup (accepted d).
Proof.
  intros Hwf. rewrite accepted_spec by done.
  assert (Hnd := pair_sets_NoDup d Hwf).
  revert Hnd. generalize (combinations2 d). intros ps.
  induction ps as [|p ps IH]; simpl; [done|].
  intros [Hp Hps]%NoDup_cons. rewrite filter_cons.
  case_decide; [|by apply IH]. simpl. apply NoDup_cons. split; [|by apply IH].
  intros (q & Hq & Hin)%list_elem_of_fmap. apply Hp.
  apply list_elem_of_fmap. exists q. split; [done|].
  by apply list_elem_of_filter in Hin as [_ ?].
Qed.

(** The engine returns, and its two outputs list the accepted groups in
    discovery order, numbered from 1. *)
Lemma generate_spec d :
  dict_wf d →
  generate_shared_opportunity_nodes cosine_similarity d threshold
  = Return (imap (fun i g => opportunity_node d (S i) g) (accepted d),
            imap (fun i g => (opportunity_id (S i), g)) (accepted d)).
Proof.
  intros Hwf. unfold generate_shared_opportunity_nodes.
  rewrite make_opportunities_spec; [done| |by apply Forall_nil].
  apply Forall_forall. intros g Hg k Hk. by apply (accepted_keys d g).
Qed.

Lemma connections_wf d :
  dict_wf (imap (fun i (g : gset string) => (opportunity_id (S i), g)) (accepted d)).
Proof.
  unfold dict_wf, keys. rewrite fmap_imap.
  apply NoDup_alt. intros i j k.
  rewrite !list_lookup_imap. unfold compose. simpl.
  destruct (accepted d !! i), (accepted d !! j); simpl; try done.
  intros Hi Hj. inversion Hi; inversion Hj; subst.
  assert (S i = S j) by (by apply opportunity_id_inj). lia.
Qed.
End EngineFacts.

(** ** Centroids *)

(** Equal rationals round to the same float. *)
Lemma float32_Qeq x y : (x == y)%Q → float32 x = float32 y.
Proof. intros H. unfold float32. by rewrite (Qred_complete x y H). Qed.

Lemma vadd_lookup (u v : vec) j a b :
  u !! j = Some a → v !! j = Some b → vadd u v !! j = Some (float32 (a + b)).
Proof.
  intros Hu Hv. unfold vadd. rewrite lookup_zip_with, Hu. simpl. by rewrite Hv.
Qed.

Lemma vadd_length (u v : vec) dim :
  length u = dim → length v = dim → length (vadd u v) = dim.
Proof. intros Hu Hv. unfold vadd. rewrite length_zip_with. lia. Qed.

Lemma vsum_length dim vs : ∀ v0,
  length v0 = dim → Forall (fun v => length v = dim) vs →
  length (vsum v0 vs) = dim.
Proof.
  unfold vsum. induction vs as [|v vs IH]; intros v0 H0 Hvs; simpl; [done|].
  apply Forall_cons in Hvs as [Hv Hvs]. apply IH; [|done]. by apply vadd_length.
Qed.

(** The mean of two rows: the float32 sum, halved in float32. *)
Lemma np_mean_pair_lookup (v1 v2 : vec) j a b :
  v1 !! j = Some a → v2 !! j = Some b →
  np_mean [v1; v2] !! j = Some (float32 (float32 (a + b) / 2)).
Proof.
  intros H1 H2. unfold np_mean, vsum. cbn [foldl length].
  rewrite list_lookup_fmap, (vadd_lookup v1 v2 j a b H1 H2). done.
Qed.

(** The two rows may come in either order. *)
Lemma np_mean_pair_comm (v1 v2 : vec) j a b :
  v1 !! j = Some a → v2 !! j = Some b →
  np_mean [v2; v1] !! j = Some (float32 (float32 (a + b) / 2)).
Proof.
  intros H1 H2. rewrite (np_mean_pair_lookup v2 v1 j b a H2 H1).
  by rewrite (float32_Qeq (b + a) (a + b) (Qplus_comm b a)).
Qed.

Lemma np_mean_length dim vecs :
  vecs ≠ [] → Forall (fun v => length v = dim) vecs → length (np_mean vecs) = dim.
Proof.
  destruct vecs as [|v0 vs]; intros Hne Hlen; [done|].
  apply Forall_cons in Hlen as [H0 Hvs].
  unfold np_mean. rewrite length_fmap. by apply vsum_length.
Qed.

(** ** The clustering engine: membership map *)

Section Membership.
Variable cosine_similarity : vec → vec → Q.
Variable threshold : Q.

Local Abbreviation accepted := (accepted cosine_similarity threshold).
Local Abbreviation connections d :=
  (imap (fun i (g : gset string) => (opportunity_id (S i), g)) (accepted d)).

Lemma connections_lookup d x X :
  get (connections d) x = Some X →
  ∃ i, accepted d !! i = Some X ∧ x = opportunity_id (S i).
Proof.
  intros Hget%get_Some_elem_of.
  apply list_elem_of_lookup in Hget as [i Hi].
  rewrite list_lookup_imap in Hi.
  destruct (accepted d !! i) as [g|] eqn:Hg; [|done].
  simpl in Hi. injection Hi as <- <-. by exists i.
Qed.

Lemma connections_get d i g :
  accepted d !! i = Some g →
  get (connections d) (opportunity_id (S i)) = Some g.
Proof.
  intros Hg. apply get_elem_of; [apply connections_wf|].
  apply list_elem_of_lookup. exists i.
  by rewrite list_lookup_imap, Hg.
Qed.

Lemma connections_values d : values (connections d) = accepted d.
Proof.
  unfold values. apply list_eq. intros i.
  rewrite list_lookup_fmap, list_lookup_imap.
  by destruct (accepted d !! i).
Qed.
End Membership.

(** C1. For every well-formed map of document embeddings and every
    threshold, the engine returns, and in the membership map it returns no
    cluster's member set is included in the member set of a cluster with a
    different id, in either direction. *)
Theorem no_cluster_is_subset_of_another
    (cosine_similarity : vec → vec → Q) (threshold : Q) (d : dict string vec) :
  dict_wf d →
  ∃ nodes conns,
    generate_shared_opportunity_nodes cosine_similarity d threshold
    = Return (nodes, conns)
    ∧ ∀ x y X Y, x ≠ y → get conns x = Some X → get conns y = Some Y →
        ¬ X ⊆ Y ∧ ¬ Y ⊆ X.
Proof.
  intros Hwf. eexists _, _. split; [by apply generate_spec|].
  intros x y X Y Hxy (i & Hi & ->)%connections_lookup (j & Hj & ->)%connections_lookup.
  assert (Hne : X ≠ Y).
  { intros ->. apply Hxy. f_equal. f_equal.
    by eapply NoDup_lookup; [apply accepted_NoDup| |]. }
  assert (size X = 2) as HX by (eapply accepted_size, list_elem_of_lookup_2; eauto).
  assert (size Y = 2) as HY by (eapply accepted_size, list_elem_of_lookup_2; eauto).
  split; intros Hsub; apply Hne.
  - apply set_subseteq_size_eq; [done|lia].
  - symmetry. apply set_subseteq_size_eq; [done|lia].
Qed.

Lemma abc_embeddings_wf : dict_wf abc_embeddings.
Proof. apply (bool_decide_unpack _). vm_compute. exact I. Defined.

Lemma no_cluster_is_subset_of_another_witness :
  ∃ nodes conns,
    generate_shared_opportunity_nodes abc_similarity abc_embeddings 0.35
    = Return (nodes, conns)
    ∧ ∀ x y X Y, x ≠ y → get conns x = Some X → get conns y = Some Y →
        ¬ X ⊆ Y ∧ ¬ Y ⊆ X.
Proof.
  apply (no_cluster_is_subset_of_another abc_similarity 0.35 abc_embeddings).
  exact abc_embeddings_wf.
Defined.

(** C10. Every cluster of the returned membership map has exactly two
    members: it is the set of two distinct document ids of the batch whose
    similarity cleared the threshold. *)
Theorem clusters_have_exactly_two_members
    (cosine_similarity : vec → vec → Q) (threshold : Q) (d : dict string vec) :
  dict_wf d →
  ∃ nodes conns,
    generate_shared_opportunity_nodes cosine_similarity d threshold
    = Return (nodes, conns)
    ∧ ∀ x X, get conns x = Some X →
        size X = 2
        ∧ ∃ a b, a ≠ b ∧ a ∈ keys d ∧ b ∈ keys d ∧ X = {[a; b]}.
Proof.
  intros Hwf. eexists _, _. split; [by apply generate_spec|].
  intros x X (i & Hi & ->)%connections_lookup.
  apply list_elem_of_lookup_2 in Hi.
  split; [by eapply accepted_size|].
  destruct (accepted_elem_of _ _ d X Hwf Hi) as (p & Hp & _ & -> & Hne).
  apply combinations2_keys in Hp as [H1 H2].
  by exists p.1.1, p.2.1.
Qed.

Lemma clusters_have_exactly_two_members_witness :
  ∃ nodes conns,
    generate_shared_opportunity_nodes abc_similarity abc_embeddings 0.35
    = Return (nodes, conns)
    ∧ ∀ x X, get conns x = Some X →
        size X = 2
        ∧ ∃ a b, a ≠ b ∧ a ∈ keys abc_embeddings ∧ b ∈ keys abc_embeddings
                 ∧ X = {[a; b]}.
Proof.
  apply (clusters_have_exactly_two_members abc_similarity 0.35 abc_embeddings).
  exact abc_embeddings_wf.
Defined.

Lemma member_vectors_length_all (d : dict string vec) dim g :
  dict_wf d →
  Forall (fun kv => length kv.2 = dim) d →
  (∀ k, k ∈ g → k ∈ keys d) →
  Forall (fun v => length v = dim) (member_vectors d g).
Proof.
  intros Hwf Hdim Hg. unfold member_vectors.
  apply Forall_fmap, Forall_forall. intros k Hk%elem_of_elements. simpl.
  destruct (get_is_Some d k (Hg k Hk)) as [v Hv]. rewrite Hv. simpl.
  rewrite Forall_forall in Hdim.
  by apply (Hdim (k, v)), get_Some_elem_of.
Qed.

Lemma member_vectors_length (d : dict string vec) g :
  length (member_vectors d g) = size g.
Proof. unfold member_vectors. by rewrite length_fmap. Qed.




(** ** No transitive merging *)

Lemma similar_of_Qeq (cosine_similarity : vec → vec → Q) threshold k1 v1 k2 v2 s :
  (cosine_similarity v1 v2 == s)%Q →
  similar cosine_similarity threshold ((k1, v1), (k2, v2)) = Qle_bool threshold s.
Proof.
  intros Heq. unfold similar. simpl.
  destruct (Qle_bool threshold s) eqn:Hs.
  - apply Qle_bool_iff. rewrite Heq. by apply Qle_bool_iff.
  - apply not_true_is_false. intros H%Qle_bool_iff. rewrite Heq in H.
    apply Qle_bool_iff in H. congruence.
Qed.

(** C2. For three documents [a], [b], [c] with sim(a,b) = sim(b,c) = 0.4
    and sim(a,c) = 0.1, at threshold 0.35 the engine returns exactly the
    two clusters {a,b} and {b,c}, numbered 1 and 2; the merged group
    {a,b,c} is not among them. *)
Theorem overlapping_pairs_are_not_merged
    (cosine_similarity : vec → vec → Q) (a b c : string) (va vb vc : vec) :
  a ≠ b → b ≠ c → a ≠ c →
  (cosine_similarity va vb == 0.4)%Q →
  (cosine_similarity vb vc == 0.4)%Q →
  (cosine_similarity va vc == 0.1)%Q →
  ∃ nodes conns,
    generate_shared_opportunity_nodes cosine_similarity
      [(a, va); (b, vb); (c, vc)] 0.35
    = Return (nodes, conns)
    ∧ conns = [(opportunity_id 1, {[a; b]}); (opportunity_id 2, {[b; c]})]
    ∧ ({[a; b; c]} : gset string) ∉ values conns.
Proof.
  intros Hab Hbc Hac Sab Sbc Sac.
  assert (Hwf : dict_wf [(a, va); (b, vb); (c, vc)]).
  { unfold dict_wf, keys. simpl. repeat (apply NoDup_cons; split);
      [set_solver|set_solver|set_solver|apply NoDup_nil_2]. }
  eexists _, _. split; [by apply generate_spec|].
  rewrite (accepted_spec _ _ _ Hwf). simpl.
  rewrite !filter_cons, filter_nil.
  rewrite (similar_of_Qeq _ _ a va b vb _ Sab), (similar_of_Qeq _ _ a va c vc _ Sac),
    (similar_of_Qeq _ _ b vb c vc _ Sbc).
  simpl. split; [done|].
  unfold values. simpl. unfold pair_set. simpl.
  intros [Heq|[Heq|Hnil%elem_of_nil]%elem_of_cons]%elem_of_cons; [| |done].
  - assert (c ∈ ({[a; b]} : gset string)) as Hin by (rewrite <-Heq; set_solver).
    set_solver.
  - assert (a ∈ ({[b; c]} : gset string)) as Hin by (rewrite <-Heq; set_solver).
    set_solver.
Qed.

Lemma overlapping_pairs_are_not_merged_witness :
  ∃ nodes conns,
    generate_shared_opportunity_nodes abc_similarity abc_embeddings 0.35
    = Return (nodes, conns)
    ∧ conns = [(opportunity_id 1, {["A"; "B"]}); (opportunity_id 2, {["B"; "C"]})]
    ∧ ({["A"; "B"; "C"]} : gset string) ∉ values conns.
Proof.
  apply (overlapping_pairs_are_not_merged abc_similarity "A" "B" "C"
           [1%Q] [2%Q] [3%Q]); done.
Defined.

(** The engine and the selector, run on the three-document batch. *)
Example abc_clusters :
  snd <$> match generate_shared_opportunity_nodes abc_similarity abc_embeddings 0.35 with
          | Return r => Some r
          | Raise _ => None
          end
  = Some abc_links.
Proof. vm_compute. reflexivity. Qed.

Example abc_centroids :
  (map opp_embedding ∘ fst)
    <$> match generate_shared_opportunity_nodes abc_similarity abc_embeddings 0.35 with
        | Return r => Some r
        | Raise _ => None
        end
  = Some [[3 # 2]; [5 # 2]]%Q.
Proof. vm_compute. reflexivity. Qed.

Example abc_flagship :
  patents_for_startup abc_links abc_embeddings
  = Return (elements ({["A"; "B"]} : gset string)).
Proof. vm_compute. reflexivity. Qed.

Example no_clusters_flagship :
  patents_for_startup [] abc_embeddings = Return ["A"; "B"; "C"].
Proof. reflexivity. Qed.

(** ** Order independence *)

Section OrderIndependence.
Variable cosine_similarity : vec → vec → Q.
Variable threshold : Q.
Hypothesis cosine_symmetric : ∀ u v, (cosine_similarity u v == cosine_similarity v u)%Q.

Local Abbreviation accepted := (accepted cosine_similarity threshold).
Local Abbreviation similar := (similar cosine_similarity threshold).

Lemma similar_swap x y : similar (x, y) = similar (y, x).
Proof.
  destruct x as [k1 v1], y as [k2 v2].
  rewrite (similar_of_Qeq _ _ k1 v1 k2 v2 _ (cosine_symmetric v1 v2)).
  by rewrite (similar_of_Qeq _ _ k2 v2 k1 v1 (cosine_similarity v2 v1)).
Qed.

(** Membership in the accepted groups does not mention positions. *)
Lemma elem_of_accepted d g :
  dict_wf d →
  g ∈ accepted d ↔
  ∃ x y, x ∈ d ∧ y ∈ d ∧ x.1 ≠ y.1 ∧ similar (x, y) = true ∧ g = {[x.1; y.1]}.
Proof.
  intros Hwf. split.
  - intros ([x y] & Hp & Hs & -> & Hne)%accepted_elem_of; [|done].
    apply combinations2_elem_of in Hp as [Hx Hy]. by exists x, y.
  - intros (x & y & Hx & Hy & Hne & Hs & ->).
    apply list_elem_of_lookup in Hx as [i Hi].
    apply list_elem_of_lookup in Hy as [j Hj].
    rewrite accepted_spec by done.
    destruct (decide (i < j)) as [Hij|Hij].
    + apply list_elem_of_fmap. exists (x, y). split; [done|].
      apply list_elem_of_filter. split; [done|].
      apply elem_of_combinations2. by exists i, j.
    + assert (i ≠ j) by (intros ->; congruence).
      apply list_elem_of_fmap. exists (y, x). split.
      * unfold pair_set. simpl. apply union_comm_L.
      * apply list_elem_of_filter. split; [by rewrite similar_swap|].
        apply elem_of_combinations2. exists j, i. split; [lia|done].
Qed.

Lemma accepted_Permutation d d' :
  dict_wf d → d ≡ₚ d' → ∀ g, g ∈ accepted d ↔ g ∈ accepted d'.
Proof.
  intros Hwf Hperm g.
  assert (Hwf' : dict_wf d').
  { unfold dict_wf, keys in *. by rewrite <-Hperm. }
  rewrite !elem_of_accepted by done.
  split; intros (x & y & Hx & Hy & H); exists x, y.
  - by rewrite <-Hperm.
  - by rewrite Hperm.
Qed.
End OrderIndependence.

(** C9. With a symmetric similarity, permuting the iteration order of the
    document embeddings leaves the returned collection of clusters unchanged
    as a set of member-id sets. *)
Theorem clustering_is_order_independent
    (cosine_similarity : vec → vec → Q) (threshold : Q) (d d' : dict string vec) :
  (∀ u v, (cosine_similarity u v == cosine_similarity v u)%Q) →
  dict_wf d →
  d ≡ₚ d' →
  ∃ nodes conns nodes' conns',
    generate_shared_opportunity_nodes cosine_similarity d threshold
    = Return (nodes, conns)
    ∧ generate_shared_opportunity_nodes cosine_similarity d' threshold
      = Return (nodes', conns')
    ∧ (list_to_set (values conns) : gset (gset string))
      = list_to_set (values conns').
Proof.
  intros Hsym Hwf Hperm.
  assert (Hwf' : dict_wf d').
  { unfold dict_wf, keys in *. by rewrite <-Hperm. }
  eexists _, _, _, _. split_and!; [by apply generate_spec..|].
  rewrite !connections_values. apply set_eq. intros g.
  rewrite !elem_of_list_to_set. by apply accepted_Permutation.
Qed.

Lemma abc_similarity_symmetric u v : (abc_similarity u v == abc_similarity v u)%Q.
Proof.
  destruct u as [|a [|??]], v as [|b [|??]]; simpl; try reflexivity.
  rewrite (orb_comm (Qeq_bool (a - b) 1)).
  destruct (Qeq_bool (b - a) 1 || Qeq_bool (a - b) 1); [reflexivity|].
  destruct (Qeq_bool a b) eqn:Hab.
  - apply Qeq_bool_iff in Hab. symmetry in Hab.
    apply Qeq_bool_iff in Hab. rewrite Hab. reflexivity.
  - destruct (Qeq_bool b a) eqn:Hba; [|reflexivity].
    apply Qeq_bool_iff in Hba. symmetry in Hba.
    apply Qeq_bool_iff in Hba. congruence.
Defined.

Lemma clustering_is_order_independent_witness :
  ∃ nodes conns nodes' conns',
    generate_shared_opportunity_nodes abc_similarity abc_embeddings 0.35
    = Return (nodes, conns)
    ∧ generate_shared_opportunity_nodes abc_similarity
        [("C", [3%Q]); ("A", [1%Q]); ("B", [2%Q])] 0.35
      = Return (nodes', conns')
    ∧ (list_to_set (values conns) : gset (gset string))
      = list_to_set (values conns').
Proof.
  apply (clustering_is_order_independent abc_similarity 0.35 abc_embeddings
           [("C", [3%Q]); ("A", [1%Q]); ("B", [2%Q])]).
  - exact abc_similarity_symmetric.
  - exact abc_embeddings_wf.
  - unfold abc_embeddings.
    etransitivity; [|apply Permutation_sym, Permutation_cons_append]. done.
Defined.

(** ** The graph *)

Module NxFacts.
Import Nx.

Lemma edge_weight_nbrs G x y : edge_weight G x y = nbrs (adj G) x !! y.
Proof. unfold edge_weight, nbrs. by destruct (adj G !! x). Qed.

Lemma nbrs_insert a k m x :
  nbrs (<[k := m]> a) x = if decide (k = x) then m else nbrs a x.
Proof.
  unfold nbrs. rewrite lookup_insert. by case_decide.
Qed.

Lemma wf_empty : wf empty.
Proof. split; [done|]. intros x y. unfold edge_weight. simpl. by rewrite !lookup_empty. Qed.

Lemma touch_nbrs G n x : wf G → nbrs (adj (touch G n)) x = nbrs (adj G) x.
Proof.
  intros [Hdom _]. unfold touch.
  destruct (node G !! n) eqn:Hn; [done|]. simpl.
  rewrite nbrs_insert. case_decide; [|done]. subst.
  unfold nbrs. by rewrite (Hdom _ Hn).
Qed.

Lemma edge_weight_touch G n x y :
  wf G → edge_weight (touch G n) x y = edge_weight G x y.
Proof. intros Hwf. by rewrite !edge_weight_nbrs, touch_nbrs. Qed.

Lemma touch_node_Some G n : is_Some (node (touch G n) !! n).
Proof.
  unfold touch. destruct (node G !! n) eqn:Hn; [by rewrite Hn|].
  simpl. rewrite lookup_insert_eq. by eexists.
Qed.

Lemma touch_node_mono G n m : is_Some (node G !! m) → is_Some (node (touch G n) !! m).
Proof.
  unfold touch. destruct (node G !! n) eqn:Hn; [done|]. simpl.
  intros Hm. rewrite lookup_insert. by case_decide.
Qed.

Lemma wf_touch G n : wf G → wf (touch G n).
Proof.
  intros Hwf. split.
  - destruct Hwf as [Hdom _]. unfold touch.
    destruct (node G !! n) eqn:Hn; [done|]. simpl. intros m.
    rewrite !lookup_insert. case_decide; [done|]. apply Hdom.
  - intros x y. rewrite !edge_weight_touch by done. apply Hwf.
Qed.

Lemma edge_weight_add_node G n attrs x y :
  wf G → edge_weight (add_node G n attrs) x y = edge_weight G x y.
Proof. intros Hwf. unfold add_node. by rewrite <-(edge_weight_touch G n). Qed.

Lemma wf_add_node G n attrs : wf G → wf (add_node G n attrs).
Proof.
  intros Hwf. destruct (wf_touch G n Hwf) as [Hdom Hsym].
  split; [|done]. unfold add_node. simpl. intros m.
  rewrite lookup_insert. case_decide; [done|]. apply Hdom.
Qed.

Lemma edge_weight_add_edge G u v w x y :
  wf G →
  edge_weight (add_edge G u v w) x y
  = if decide ((x = u ∧ y = v) ∨ (x = v ∧ y = u)) then Some w
    else edge_weight G x y.
Proof.
  intros Hwf.
  assert (Hwf' := wf_touch _ v (wf_touch _ u Hwf)).
  rewrite (edge_weight_nbrs (add_edge _ _ _ _)).
  rewrite <-(edge_weight_touch G u) by done.
  rewrite <-(edge_weight_touch _ v) by by apply wf_touch.
  rewrite edge_weight_nbrs. unfold add_edge. simpl.
  set (a := adj (touch (touch G u) v)).
  change (default ∅ (a !! u)) with (nbrs a u).
  match goal with |- context [default ∅ (?m !! v)] =>
    change (default ∅ (m !! v)) with (nbrs m v) end.
  rewrite !nbrs_insert.
  repeat (case_decide || rewrite lookup_insert); subst; try done; naive_solver.
Qed.

Lemma wf_add_edge G u v w : wf G → wf (add_edge G u v w).
Proof.
  intros Hwf. split.
  - assert (Hwf' := wf_touch _ v (wf_touch _ u Hwf)).
    destruct Hwf' as [Hdom _]. unfold add_edge. simpl. intros m Hm.
    rewrite !lookup_insert.
    destruct (decide (v = m)) as [<-|?].
    { destruct (touch_node_Some (touch G u) v) as [? ?]; congruence. }
    destruct (decide (u = m)) as [<-|?].
    { destruct (touch_node_mono (touch G u) v u (touch_node_Some G u)) as [? ?].
      congruence. }
    by apply Hdom.
  - intros x y. rewrite !edge_weight_add_edge by done.
    destruct Hwf as [_ Hsym]. rewrite (Hsym x y).
    repeat case_decide; try done; naive_solver.
Qed.

Lemma has_edge_add_edge G u v w : wf G → has_edge (add_edge G u v w) u v.
Proof.
  intros Hwf. unfold has_edge. rewrite edge_weight_add_edge by done.
  rewrite decide_True by naive_solver. by eexists.
Qed.

Lemma has_edge_add_edge_mono G u v w x y :
  wf G → has_edge G x y → has_edge (add_edge G u v w) x y.
Proof.
  intros Hwf Hxy. unfold has_edge. rewrite edge_weight_add_edge by done.
  case_decide; [by eexists|done].
Qed.
End NxFacts.

(** ** Document-document linking *)

Lemma patent_node_id_inj f g : patent_node_id f = patent_node_id g → f = g.
Proof. unfold patent_node_id. by intros H%(inj (String.app _)). Qed.

Lemma Qgt_bool_lt x y : Qgt_bool x y = true ↔ (y < x)%Q.
Proof.
  unfold Qgt_bool. rewrite negb_true_iff. split.
  - intros H. apply Qnot_le_lt. intros Hle%Qle_bool_iff. congruence.
  - intros H. apply not_true_is_false. intros Hle%Qle_bool_iff.
    by apply Qlt_not_le in H.
Qed.

Section Linking.
Import Nx NxFacts.
Variable cosine_similarity : vec → vec → Q.

Local Abbreviation link_step := (link_step cosine_similarity).

Lemma wf_link_step t G p : wf G → wf (link_step t G p).
Proof.
  intros Hwf. destruct p as [[f1 e1] [f2 e2]]. simpl.
  destruct (Qgt_bool _ _); [by apply wf_add_edge|done].
Qed.

Lemma wf_link_fold t ps : ∀ G, wf G → wf (foldl (link_step t) G ps).
Proof.
  induction ps as [|p ps IH]; intros G Hwf; simpl; [done|].
  by apply IH, wf_link_step.
Qed.

(** A pair of other documents leaves the edge between two documents
    untouched. *)
Lemma link_step_other t G p f1 f2 :
  wf G → pair_set p ≠ {[f1; f2]} →
  edge_weight (link_step t G p) (patent_node_id f1) (patent_node_id f2)
  = edge_weight G (patent_node_id f1) (patent_node_id f2).
Proof.
  intros Hwf Hne. destruct p as [[g1 e1] [g2 e2]]. simpl.
  destruct (Qgt_bool _ _); [|done].
  rewrite edge_weight_add_edge by done.
  rewrite decide_False; [done|].
  intros [[H1%patent_node_id_inj H2%patent_node_id_inj]
         |[H1%patent_node_id_inj H2%patent_node_id_inj]];
    subst; apply Hne; unfold pair_set; simpl; [done|apply union_comm_L].
Qed.

Lemma link_fold_other t ps f1 f2 : ∀ G,
  wf G → ({[f1; f2]} : gset string) ∉ (pair_set <$> ps) →
  edge_weight (foldl (link_step t) G ps) (patent_node_id f1) (patent_node_id f2)
  = edge_weight G (patent_node_id f1) (patent_node_id f2).
Proof.
  induction ps as [|p ps IH]; intros G Hwf Hnin; simpl; [done|].
  rewrite fmap_cons in Hnin. apply not_elem_of_cons in Hnin as [Hp Hps].
  rewrite IH; [|by apply wf_link_step|done].
  by apply link_step_other.
Qed.

(** The edge between the [i]-th and the [j]-th document is decided by the
    one step that visits that pair. *)
Lemma link_documents_edge t G (d : dict string vec) i j f1 e1 f2 e2 :
  wf G → dict_wf d → i < j →
  d !! i = Some (f1, e1) → d !! j = Some (f2, e2) →
  edge_weight (link_documents_above cosine_similarity t G d)
    (patent_node_id f1) (patent_node_id f2)
  = if Qgt_bool (cosine_similarity e1 e2) t then Some (cosine_similarity e1 e2)
    else edge_weight G (patent_node_id f1) (patent_node_id f2).
Proof.
  intros Hwf Hd Hij Hi Hj. unfold link_documents_above, items.
  assert (Hp : ((f1, e1), (f2, e2)) ∈ combinations2 d).
  { apply elem_of_combinations2. by exists i, j. }
  assert (Hnd := pair_sets_NoDup d Hd).
  apply list_elem_of_split in Hp as (l1 & l2 & Heq). rewrite Heq in *.
  rewrite fmap_app, fmap_cons in Hnd.
  apply NoDup_app in Hnd as (_ & Hdisj & [Hl2 _]%NoDup_cons).
  rewrite foldl_app. simpl.
  rewrite link_fold_other;
    [|by apply (wf_link_step t _ ((f1, e1), (f2, e2))), wf_link_fold|done].
  assert (Hl1 : ({[f1; f2]} : gset string) ∉ pair_set <$> l1).
  { intros Hin. apply (Hdisj _ Hin). left. }
  destruct (Qgt_bool _ _).
  - rewrite edge_weight_add_edge by by apply wf_link_fold.
    by rewrite decide_True by naive_solver.
  - by apply link_fold_other.
Qed.

Lemma link_documents_wf t G (d : dict string vec) :
  wf G → wf (link_documents_above cosine_similarity t G d).
Proof. apply wf_link_fold. Qed.

(** Lowering the threshold keeps every edge. *)
Lemma link_fold_mono t t' ps : ∀ G G',
  (t' <= t)%Q → wf G → wf G' →
  (∀ u v, has_edge G u v → has_edge G' u v) →
  ∀ u v, has_edge (foldl (link_step t) G ps) u v →
         has_edge (foldl (link_step t') G' ps) u v.
Proof.
  induction ps as [|p ps IH]; intros G G' Hle Hwf Hwf' Hsub; simpl; [done|].
  apply IH; [done|by apply wf_link_step..|].
  destruct p as [[f1 e1] [f2 e2]]. simpl. intros u v.
  destruct (Qgt_bool _ t) eqn:Ht.
  - apply Qgt_bool_lt in Ht.
    assert (Qgt_bool (cosine_similarity e1 e2) t' = true) as ->.
    { apply Qgt_bool_lt. by eapply Qle_lt_trans. }
    unfold has_edge. rewrite !edge_weight_add_edge by done.
    case_decide; [done|apply Hsub].
  - intros Huv%Hsub. destruct (Qgt_bool _ t'); [|done].
    by apply has_edge_add_edge_mono.
Qed.
End Linking.

Lemma build_sdg_graph_spec (l : list SDGNode) :
  Nx.wf (build_sdg_graph l) ∧ ∀ x y, Nx.edge_weight (build_sdg_graph l) x y = None.
Proof.
  unfold build_sdg_graph.
  assert (Hgen : ∀ G, Nx.wf G → (∀ x y, Nx.edge_weight G x y = None) →
    let G' := foldl (fun G sdg =>
                Nx.add_node G (sdg_id sdg)
                  {[ "label" := sdg_name sdg; "description" := sdg_description sdg ]}) G l in
    Nx.wf G' ∧ ∀ x y, Nx.edge_weight G' x y = None).
  { induction l as [|s l IH]; intros G Hwf Hno; simpl; [done|].
    apply IH; [by apply NxFacts.wf_add_node|].
    intros x y. by rewrite NxFacts.edge_weight_add_node. }
  apply Hgen; [apply NxFacts.wf_empty|].
  intros x y. unfold Nx.edge_weight. simpl. by rewrite lookup_empty.
Qed.

(** C4 (as the code has it). For the [i]-th and [j]-th document of the
    batch, [i < j], in a graph that had no edge between them: after the
    linking loop the two document nodes are joined, in both directions, if
    and only if the similarity of their embeddings is strictly greater than
    0.75, and the weight of the edge is that similarity. *)
Theorem document_edge_iff_similarity_exceeds_threshold
    (cosine_similarity : vec → vec → Q) (G : Nx.Graph) (d : dict string vec)
    (i j : nat) (f1 f2 : string) (e1 e2 : vec) :
  Nx.wf G → dict_wf d → i < j →
  d !! i = Some (f1, e1) → d !! j = Some (f2, e2) →
  Nx.edge_weight G (patent_node_id f1) (patent_node_id f2) = None →
  let G' := link_documents cosine_similarity G d in
  let sim := cosine_similarity e1 e2 in
  (Nx.has_edge G' (patent_node_id f1) (patent_node_id f2) ↔ (0.75 < sim)%Q)
  ∧ (Nx.has_edge G' (patent_node_id f2) (patent_node_id f1) ↔ (0.75 < sim)%Q)
  ∧ (∀ w, Nx.edge_weight G' (patent_node_id f1) (patent_node_id f2) = Some w → w = sim)
  ∧ (∀ w, Nx.edge_weight G' (patent_node_id f2) (patent_node_id f1) = Some w → w = sim).
Proof.
  intros Hwf Hd Hij Hi Hj Hno G' sim.
  assert (Hsym : Nx.edge_weight G' (patent_node_id f2) (patent_node_id f1)
                 = Nx.edge_weight G' (patent_node_id f1) (patent_node_id f2)).
  { by apply (link_documents_wf cosine_similarity 0.75 G d Hwf). }
  assert (Hw : Nx.edge_weight G' (patent_node_id f1) (patent_node_id f2)
               = if Qgt_bool sim 0.75 then Some sim else None).
  { unfold G', link_documents.
    rewrite (link_documents_edge _ _ G d i j f1 e1 f2 e2) by done.
    fold sim. by destruct (Qgt_bool sim 0.75). }
  unfold Nx.has_edge. rewrite Hsym, Hw.
  destruct (Qgt_bool sim 0.75) eqn:Hgt.
  - apply Qgt_bool_lt in Hgt.
    split_and!; try (split; [done|by eexists]); by intros w [= <-].
  - assert (¬ (0.75 < sim)%Q) by (intros ?%Qgt_bool_lt; congruence).
    split_and!; try done; split; try done; by intros [? ?].
Qed.

Lemma document_edge_iff_similarity_exceeds_threshold_witness :
  let G' := link_documents abc_similarity (build_sdg_graph sdgs) abc_embeddings in
  let sim := abc_similarity [1%Q] [2%Q] in
  (Nx.has_edge G' (patent_node_id "A") (patent_node_id "B") ↔ (0.75 < sim)%Q)
  ∧ (Nx.has_edge G' (patent_node_id "B") (patent_node_id "A") ↔ (0.75 < sim)%Q)
  ∧ (∀ w, Nx.edge_weight G' (patent_node_id "A") (patent_node_id "B") = Some w → w = sim)
  ∧ (∀ w, Nx.edge_weight G' (patent_node_id "B") (patent_node_id "A") = Some w → w = sim).
Proof.
  apply (document_edge_iff_similarity_exceeds_threshold abc_similarity
           (build_sdg_graph sdgs) abc_embeddings 0 1 "A" "B" [1%Q] [2%Q]).
  - apply build_sdg_graph_spec.
  - exact abc_embeddings_wf.
  - lia.
  - reflexivity.
  - reflexivity.
  - apply build_sdg_graph_spec.
Defined.

(** C4 (as stated) fails on the boundary: two documents whose similarity
    is exactly 0.75 meet the stated condition "similarity >= threshold", yet
    the linking loop creates no edge between them. *)
Lemma document_edge_at_threshold_counterexample :
  let G' := link_documents boundary_similarity (build_sdg_graph sdgs) ab_embeddings in
  (0.75 <= boundary_similarity [1%Q] [2%Q])%Q
  ∧ ¬ Nx.has_edge G' (patent_node_id "A") (patent_node_id "B").
Proof.
  split.
  - by apply Qle_bool_iff.
  - unfold Nx.has_edge.
    assert (Nx.edge_weight
              (link_documents boundary_similarity (build_sdg_graph sdgs) ab_embeddings)
              (patent_node_id "A") (patent_node_id "B") = None) as ->.
    { unfold link_documents.
      rewrite (link_documents_edge _ _ _ ab_embeddings 0 1 "A" [1%Q] "B" [2%Q]).
      - simpl. apply build_sdg_graph_spec.
      - apply build_sdg_graph_spec.
      - apply (bool_decide_unpack _). vm_compute. exact I.
      - lia.
      - reflexivity.
      - reflexivity. }
    by intros [? ?].
Qed.

(** C8. On the same embeddings and starting graph, every pair of nodes
    joined by the linking loop at threshold [t] is also joined at any
    threshold [t' <= t]. *)
Theorem lowering_the_threshold_only_adds_edges
    (cosine_similarity : vec → vec → Q) (G : Nx.Graph) (d : dict string vec)
    (t t' : Q) (u v : string) :
  Nx.wf G →
  (t' <= t)%Q →
  Nx.has_edge (link_documents_above cosine_similarity t G d) u v →
  Nx.has_edge (link_documents_above cosine_similarity t' G d) u v.
Proof.
  intros Hwf Hle. unfold link_documents_above.
  by apply link_fold_mono.
Qed.

Lemma lowering_the_threshold_only_adds_edges_witness :
  Nx.has_edge
    (link_documents_above abc_similarity 0.2 (build_sdg_graph sdgs) abc_embeddings)
    (patent_node_id "A") (patent_node_id "B").
Proof.
  apply (lowering_the_threshold_only_adds_edges abc_similarity
           (build_sdg_graph sdgs) abc_embeddings 0.35 0.2).
  - apply build_sdg_graph_spec.
  - by apply Qle_bool_iff.
  - unfold Nx.has_edge.
    rewrite (link_documents_edge _ _ _ abc_embeddings 0 1 "A" [1%Q] "B" [2%Q]).
    + simpl. by eexists.
    + apply build_sdg_graph_spec.
    + exact abc_embeddings_wf.
    + lia.
    + reflexivity.
    + reflexivity.
Defined.

(** ** Flagship selection *)

Section PyMax.
Context {A : Type} (key : A → result nat) (f : A → nat).

Lemma max_from_spec xs : ∀ pre best b,
  (∀ x, x ∈ xs → key x = Return (f x)) →
  pre !! b = Some best →
  (∀ j x, pre !! j = Some x → f x ≤ f best) →
  (∀ j x, j < b → pre !! j = Some x → f x < f best) →
  ∃ i r, max_from key best (f best) xs = Return r
    ∧ (pre ++ xs) !! i = Some r
    ∧ (∀ j x, (pre ++ xs) !! j = Some x → f x ≤ f r)
    ∧ (∀ j x, j < i → (pre ++ xs) !! j = Some x → f x < f r).
Proof.
  induction xs as [|x xs IH]; intros pre best b Hkey Hb Hmax Hfirst; simpl.
  - exists b, best. rewrite app_nil_r. done.
  - rewrite (Hkey x) by left. simpl.
    assert (Hkey' : ∀ y, y ∈ xs → key y = Return (f y)).
    { intros y Hy. apply Hkey. by right. }
    rewrite (cons_middle x pre xs), app_assoc.
    destruct (f best <? f x) eqn:Hlt.
    + apply Nat.ltb_lt in Hlt.
      apply (IH (pre ++ [x]) x (length pre)); [done| | |].
      * by rewrite lookup_app_r, Nat.sub_diag by lia.
      * intros j y Hj. apply lookup_app_Some in Hj as [Hj|[_ Hj]].
        -- apply Hmax in Hj. lia.
        -- apply list_lookup_singleton_Some in Hj as [_ <-]. lia.
      * intros j y Hjl Hj. rewrite lookup_app_l in Hj by done.
        apply Hmax in Hj. lia.
    + apply Nat.ltb_ge in Hlt.
      apply (IH (pre ++ [x]) best b); [done| | |].
      * apply lookup_app_l_Some. done.
      * intros j y Hj. apply lookup_app_Some in Hj as [Hj|[_ Hj]].
        -- by eapply Hmax.
        -- by apply list_lookup_singleton_Some in Hj as [_ <-].
      * intros j y Hjb Hj. apply lookup_lt_Some in Hb.
        rewrite lookup_app_l in Hj by lia. by eapply Hfirst.
Qed.

(** [max] returns the first element whose key is maximal. *)
Lemma py_max_spec xs :
  xs ≠ [] →
  (∀ x, x ∈ xs → key x = Return (f x)) →
  ∃ i r, py_max key xs = Return r
    ∧ xs !! i = Some r
    ∧ (∀ j x, xs !! j = Some x → f x ≤ f r)
    ∧ (∀ j x, j < i → xs !! j = Some x → f x < f r).
Proof.
  destruct xs as [|x xs]; intros Hne Hkey; [done|]. simpl.
  rewrite (Hkey x) by left. simpl.
  apply (max_from_spec xs [x] x 0).
  - intros y Hy. apply Hkey. by right.
  - done.
  - by intros j y [_ <-]%list_lookup_singleton_Some.
  - intros j y Hj. lia.
Qed.
End PyMax.

(** C3. On a non-empty well-formed membership map the selector returns the
    members of the first entry, in insertion order, whose member set has the
    largest size; on an empty map it returns the ids of all documents of the
    batch; in both cases it returns. *)
Theorem flagship_is_the_first_largest_cluster
    (opp_links : dict string (gset string)) (patent_embeddings : dict string vec) :
  dict_wf opp_links →
  ∃ patents,
    patents_for_startup opp_links patent_embeddings = Return patents
    ∧ (opp_links = [] → patents = keys patent_embeddings)
    ∧ (opp_links ≠ [] →
       ∃ i k g, opp_links !! i = Some (k, g)
         ∧ (list_to_set patents : gset string) = g
         ∧ (∀ j kj gj, opp_links !! j = Some (kj, gj) → size gj ≤ size g)
         ∧ (∀ j kj gj, j < i → opp_links !! j = Some (kj, gj) → size gj < size g)).
Proof.
  intros Hwf.
  set (f := fun k => size (default (∅ : gset string) (get opp_links k))).
  set (key := fun k => g ← subscript opp_links k; Return (size g)).
  assert (Hkey : ∀ k, k ∈ keys opp_links → key k = Return (f k)).
  { intros k Hk. unfold key, f.
    destruct (get_is_Some opp_links k Hk) as [g Hg].
    by rewrite (subscript_Return _ _ _ Hg), Hg. }
  assert (Hentry : ∀ j kj gj, opp_links !! j = Some (kj, gj) →
                     keys opp_links !! j = Some kj ∧ f kj = size gj).
  { intros j kj gj Hj. split.
    - unfold keys. by rewrite list_lookup_fmap, Hj.
    - unfold f. erewrite get_elem_of; [done..|]. by eapply list_elem_of_lookup_2. }
  destruct (decide (opp_links = [])) as [->|Hne].
  { exists (keys patent_embeddings). by split_and!. }
  destruct (py_max_spec key f (keys opp_links)) as (i & k & Hmax & Hi & Hall & Hfirst).
  { unfold keys. by destruct opp_links. }
  { done. }
  unfold keys in Hi. rewrite list_lookup_fmap in Hi.
  destruct (opp_links !! i) as [[k' g]|] eqn:Hig; [|done].
  simpl in Hi. injection Hi as ->.
  destruct (Hentry _ _ _ Hig) as [_ Hfk].
  assert (Hget : get opp_links k = Some g).
  { apply get_elem_of; [done|]. by eapply list_elem_of_lookup_2. }
  exists (elements g). split_and!.
  - unfold patents_for_startup. destruct opp_links as [|e rest]; [done|].
    fold key. rewrite Hmax. simpl.
    by rewrite (subscript_Return _ _ _ Hget).
  - done.
  - intros _. exists i, k, g. split_and!; [done| | |].
    + apply set_eq. intros x. by rewrite elem_of_list_to_set, elem_of_elements.
    + intros j kj gj Hj. destruct (Hentry _ _ _ Hj) as [Hkj <-].
      rewrite <-Hfk. by eapply Hall.
    + intros j kj gj Hji Hj. destruct (Hentry _ _ _ Hj) as [Hkj <-].
      rewrite <-Hfk. by eapply Hfirst.
Qed.

Lemma flagship_is_the_first_largest_cluster_witness :
  ∃ patents,
    patents_for_startup abc_links abc_embeddings = Return patents
    ∧ (abc_links = [] → patents = keys abc_embeddings)
    ∧ (abc_links ≠ [] →
       ∃ i k g, abc_links !! i = Some (k, g)
         ∧ (list_to_set patents : gset string) = g
         ∧ (∀ j kj gj, abc_links !! j = Some (kj, gj) → size gj ≤ size g)
         ∧ (∀ j kj gj, j < i → abc_links !! j = Some (kj, gj) → size gj < size g)).
Proof.
  apply (flagship_is_the_first_largest_cluster abc_links abc_embeddings).
  apply (bool_decide_unpack _). vm_compute. exact I.
Defined.

(** ** Top-5 taxonomy selection *)

Section TopIndices.
Variable argsort : list Q → list nat.
Hypothesis argsort_ok : argsort_contract argsort.

Lemma argsort_length xs : length (argsort xs) = length xs.
Proof.
  destruct (argsort_ok xs) as [Hperm _].
  by rewrite Hperm, length_seq.
Qed.

Lemma argsort_NoDup xs : NoDup (argsort xs).
Proof.
  destruct (argsort_ok xs) as [Hperm _].
  rewrite Hperm. apply NoDup_seq.
Qed.

Lemma argsort_elem_of xs i : i ∈ argsort xs ↔ i < length xs.
Proof.
  destruct (argsort_ok xs) as [Hperm _].
  rewrite Hperm, elem_of_seq. lia.
Qed.

(** Read from the back, the scores descend. *)
Lemma reverse_argsort_descending xs p q a b :
  p ≤ q →
  reverse (argsort xs) !! p = Some a → reverse (argsort xs) !! q = Some b →
  (score xs b <= score xs a)%Q.
Proof.
  intros Hpq Ha Hb.
  destruct (argsort_ok xs) as [_ Hsorted].
  assert (Hq := lookup_lt_Some _ _ _ Hb). rewrite length_reverse in Hq.
  rewrite reverse_lookup in Ha by lia.
  rewrite reverse_lookup in Hb by lia.
  eapply Hsorted; [|done..]. lia.
Qed.

Lemma top_indices_length xs : length (top_indices argsort xs) = 5 `min` length xs.
Proof.
  unfold top_indices.
  by rewrite length_take, length_reverse, argsort_length.
Qed.

Lemma top_indices_NoDup xs : NoDup (top_indices argsort xs).
Proof.
  unfold top_indices.
  eapply sublist_NoDup; [|apply sublist_take].
  rewrite reverse_Permutation. apply argsort_NoDup.
Qed.

Lemma top_indices_bound xs i : i ∈ top_indices argsort xs → i < length xs.
Proof.
  unfold top_indices. intros Hi.
  apply argsort_elem_of. rewrite <-elem_of_reverse.
  apply elem_of_take in Hi as (p & Hp & _).
  by eapply list_elem_of_lookup_2.
Qed.

Lemma top_indices_descending xs p q a b :
  p ≤ q → top_indices argsort xs !! p = Some a → top_indices argsort xs !! q = Some b →
  (score xs b <= score xs a)%Q.
Proof.
  unfold top_indices. intros Hpq Ha Hb.
  apply lookup_take_Some in Ha as [Ha _].
  apply lookup_take_Some in Hb as [Hb _].
  by eapply reverse_argsort_descending.
Qed.

(** No entry left out scores strictly higher than a selected one. *)
Lemma top_indices_dominate xs a b :
  a ∈ top_indices argsort xs → b < length xs → b ∉ top_indices argsort xs →
  (score xs b <= score xs a)%Q.
Proof.
  unfold top_indices. intros Ha Hb Hnb.
  apply list_elem_of_lookup in Ha as [p Hp].
  apply lookup_take_Some in Hp as [Hp Hp5].
  assert (Hin : b ∈ reverse (argsort xs)).
  { rewrite elem_of_reverse. by apply argsort_elem_of. }
  apply list_elem_of_lookup in Hin as [q Hq].
  destruct (decide (q < 5)) as [Hq5|Hq5].
  - exfalso. apply Hnb. apply list_elem_of_lookup. exists q.
    by apply lookup_take_Some.
  - eapply reverse_argsort_descending; [|done..]. lia.
Qed.
End TopIndices.

(** The stable insertion argsort meets the contract. *)
Section StableArgsort.
Variable key : nat → Q.

Local Abbreviation ascending := (StronglySorted (fun a b => (key a <= key b)%Q)).

Lemma insert_asc_Permutation i l : insert_asc key i l ≡ₚ i :: l.
Proof.
  induction l as [|j r IH]; simpl; [done|].
  destruct (Qgt_bool _ _); [done|]. rewrite IH. apply Permutation_swap.
Qed.

Lemma insert_asc_sorted i l : ascending l → ascending (insert_asc key i l).
Proof.
  induction l as [|j r IH]; simpl; intros Hl.
  - by repeat constructor.
  - apply StronglySorted_cons in Hl as [Hj Hr].
    destruct (Qgt_bool (key j) (key i)) eqn:Hgt.
    + apply Qgt_bool_lt in Hgt.
      apply StronglySorted_cons. split.
      * apply Forall_cons. split; [by apply Qlt_le_weak|].
        eapply Forall_impl; [done|]. intros x Hx. simpl in Hx.
        apply Qlt_le_weak. by eapply Qlt_le_trans.
      * by apply StronglySorted_cons.
    + assert (key j <= key i)%Q as Hle.
      { apply Qle_bool_iff. unfold Qgt_bool in Hgt.
        by apply negb_false_iff in Hgt. }
      apply StronglySorted_cons. split; [|by apply IH].
      rewrite insert_asc_Permutation. by apply Forall_cons.
Qed.

Lemma insertion_fold_spec l : ∀ acc,
  ascending acc →
  let out := foldl (fun acc i => insert_asc key i acc) acc l in
  out ≡ₚ acc ++ l ∧ ascending out.
Proof.
  induction l as [|i l IH]; intros acc Hacc; simpl.
  - by rewrite app_nil_r.
  - destruct (IH (insert_asc key i acc)) as [Hperm Hsorted];
      [by apply insert_asc_sorted|].
    split; [|done]. rewrite Hperm, insert_asc_Permutation. simpl.
    apply Permutation_middle.
Qed.

Lemma ascending_lookup l p q a b :
  ascending l → p ≤ q → l !! p = Some a → l !! q = Some b → (key a <= key b)%Q.
Proof.
  intros Hl. revert p q. induction Hl as [|x l Hl IH Hx]; intros p q Hpq Ha Hb.
  - done.
  - destruct p as [|p], q as [|q]; simpl in *; try lia.
    + injection Ha as <-. injection Hb as <-. apply Qle_refl.
    + injection Ha as <-. rewrite Forall_forall in Hx.
      by eapply Hx, list_elem_of_lookup_2.
    + eapply (IH p q); [lia|done..].
Qed.
End StableArgsort.

Lemma stable_argsort_contract : argsort_contract stable_argsort.
Proof.
  intros xs. unfold stable_argsort.
  destruct (insertion_fold_spec (fun j => default 0%Q (xs !! j))
              (seq 0 (length xs)) []) as [Hperm Hsorted]; [constructor|].
  split; [done|].
  intros p q a b Hpq Ha Hb. unfold score.
  by eapply (ascending_lookup (fun j => default 0%Q (xs !! j))).
Qed.

(** ** Attaching documents to the taxonomy *)

Section Attach.
Import Nx NxFacts.
Variable l : list SDGNode.
Hypothesis ids_NoDup : NoDup (sdg_id <$> l).
Hypothesis ids_apart : ∀ sdg f, sdg ∈ l → sdg_id sdg ≠ patent_node_id f.

Lemma record_edges_other sims top y : ∀ m,
  (∀ i sdg, i ∈ top → l !! i = Some sdg → sdg_id sdg ≠ y) →
  foldl (record_edge l sims) m top !! y = m !! y.
Proof.
  induction top as [|i top IH]; intros m Hy; simpl; [done|].
  rewrite IH by (intros j sdg Hj; apply Hy; by right).
  unfold record_edge. destruct (l !! i) as [sdg|] eqn:Hi; [|done].
  rewrite lookup_insert_ne; [done|]. eapply Hy; [left|done].
Qed.

Lemma record_edges_patent sims top f m :
  foldl (record_edge l sims) m top !! patent_node_id f = m !! patent_node_id f.
Proof.
  apply record_edges_other. intros i sdg _ Hi.
  apply ids_apart. by eapply list_elem_of_lookup_2.
Qed.

Lemma sdg_id_lookup_inj i j a b :
  l !! i = Some a → l !! j = Some b → sdg_id a = sdg_id b → i = j.
Proof.
  intros Hi Hj Hab.
  eapply (NoDup_lookup (sdg_id <$> l)); [done| |]; rewrite list_lookup_fmap.
  - by rewrite Hi.
  - rewrite Hj. simpl. by rewrite Hab.
Qed.

Lemma record_edges_selected sims top i sdg : ∀ m,
  NoDup top → i ∈ top → l !! i = Some sdg →
  foldl (record_edge l sims) m top !! sdg_id sdg = Some (score sims i).
Proof.
  induction top as [|j top IH]; intros m Hnd Hin Hi; [by apply elem_of_nil in Hin|].
  apply NoDup_cons in Hnd as [Hj Hnd]. simpl.
  apply elem_of_cons in Hin as [<-|Hin]; [|by apply IH].
  rewrite record_edges_other.
  - unfold record_edge. rewrite Hi. apply lookup_insert_eq.
  - intros k sdg' Hk Hk' Heq. apply Hj.
    by rewrite <-(sdg_id_lookup_inj k i sdg' sdg Hk' Hi Heq).
Qed.

Lemma record_edges_Some sims top y w : ∀ m,
  foldl (record_edge l sims) m top !! y = Some w →
  m !! y = Some w ∨ ∃ i sdg, i ∈ top ∧ l !! i = Some sdg ∧ y = sdg_id sdg.
Proof.
  induction top as [|j top IH]; intros m Hy; simpl in Hy; [by left|].
  apply IH in Hy as [Hy|(i & sdg & Hi & Hl & ->)].
  - unfold record_edge in Hy. destruct (l !! j) as [sdg|] eqn:Hj; [|by left].
    rewrite lookup_insert in Hy. case_decide; [|by left].
    right. exists j, sdg. split_and!; [left|done..].
  - right. exists i, sdg. split_and!; [by right|done..].
Qed.

Lemma record_edges_size sims top : ∀ m,
  NoDup top → (∀ i, i ∈ top → i < length l) →
  (∀ i sdg, i ∈ top → l !! i = Some sdg → m !! sdg_id sdg = None) →
  size (foldl (record_edge l sims) m top) = size m + length top.
Proof.
  induction top as [|j top IH]; intros m Hnd Hlt Hfresh; simpl; [lia|].
  apply NoDup_cons in Hnd as [Hj Hnd].
  destruct (lookup_lt_is_Some_2 l j) as [sdg Hsdg]; [apply Hlt; left|].
  rewrite IH; [|done|intros i Hi; apply Hlt; by right|].
  - unfold record_edge. rewrite Hsdg.
    rewrite map_size_insert_None; [lia|]. eapply Hfresh; [left|done].
  - intros i sdg' Hi Hi'. unfold record_edge. rewrite Hsdg.
    rewrite lookup_insert_ne; [eapply Hfresh; [by right|done]|].
    intros Heq. apply Hj.
    by rewrite (sdg_id_lookup_inj j i sdg sdg' Hsdg Hi' Heq).
Qed.
End Attach.

Lemma for_loop_cons {S A} (body : S → A → result S) s x r :
  for_loop body s (x :: r) = body s x ≫= fun s' => for_loop body s' r.
Proof. done. Qed.

Section Classify.
Import Nx NxFacts.
Variable encode : string → vec.
Variable cosine_similarity : vec → vec → Q.
Variable argsort : list Q → list nat.
Hypothesis argsort_ok : argsort_contract argsort.
Variable l : list SDGNode.
Hypothesis ids_apart : ∀ sdg f, sdg ∈ l → sdg_id sdg ≠ patent_node_id f.

Local Abbreviation scores := (document_scores encode cosine_similarity l).

Hypothesis taxonomy_nonempty : l ≠ [].

Lemma similarities_scores text :
  similarities cosine_similarity (encode text) (sdg_embeddings encode l)
  = Return (scores text).
Proof.
  unfold similarities, document_scores, sdg_embeddings.
  by destruct l.
Qed.

Lemma document_scores_length text : length (scores text) = length l.
Proof.
  unfold document_scores, sdg_embeddings. by rewrite !length_fmap.
Qed.

Lemma nbrs_add_edge G u v w :
  wf G → u ≠ v →
  nbrs (adj (add_edge G u v w)) u = <[v := w]> (nbrs (adj G) u).
Proof.
  intros Hwf Huv. apply map_eq. intros y.
  rewrite <-edge_weight_nbrs, edge_weight_add_edge by done.
  rewrite lookup_insert, <-edge_weight_nbrs.
  repeat case_decide; naive_solver.
Qed.

Lemma attach_loop sims f top : ∀ G,
  wf G → length sims = length l → (∀ i, i ∈ top → i < length l) →
  ∃ G', for_loop (attach_sdg l sims f) G top = Return G'
    ∧ wf G'
    ∧ nbrs (adj G') (patent_node_id f)
      = foldl (record_edge l sims) (nbrs (adj G) (patent_node_id f)) top
    ∧ ∀ x y, x ≠ patent_node_id f → y ≠ patent_node_id f →
        edge_weight G' x y = edge_weight G x y.
Proof.
  induction top as [|i top IH]; intros G Hwf Hlen Hlt; simpl.
  - by exists G.
  - assert (Hi : i < length l) by (apply Hlt; left).
    destruct (lookup_lt_is_Some_2 sims i) as [s Hs]; [lia|].
    destruct (lookup_lt_is_Some_2 l i) as [sdg Hsdg]; [done|].
    set (G0 := add_node G (patent_node_id f) {[ "label" := f; "type" := "patent" ]}).
    assert (Hstep : attach_sdg l sims f G i
                    = Return (add_edge G0 (patent_node_id f) (sdg_id sdg) s)).
    { unfold attach_sdg, index. by rewrite Hs, Hsdg. }
    rewrite Hstep. simpl.
    assert (Hwf0 : wf G0) by by apply wf_add_node.
    assert (Hne : patent_node_id f ≠ sdg_id sdg).
    { intros Heq. by eapply ids_apart; [eapply list_elem_of_lookup_2|]. }
    destruct (IH (add_edge G0 (patent_node_id f) (sdg_id sdg) s))
      as (G' & Hrun & Hwf' & Hn & Hother);
      [by apply wf_add_edge|done|intros j Hj; apply Hlt; by right|].
    exists G'. split_and!; [done..| |].
    + rewrite Hn, nbrs_add_edge by done. f_equal.
      unfold record_edge, score. rewrite Hsdg, Hs. simpl. f_equal.
      apply map_eq. intros y. rewrite <-!edge_weight_nbrs.
      by apply edge_weight_touch.
    + intros x y Hx Hy. rewrite Hother by done.
      rewrite edge_weight_add_edge by done.
      rewrite decide_False by naive_solver.
      unfold G0. by apply edge_weight_add_node.
Qed.

Lemma classify_document_spec G pe f text :
  wf G →
  let sims := scores text in
  ∃ G', classify_document encode cosine_similarity argsort l (G, pe) (f, text)
        = Return (G', set pe f (encode text))
    ∧ wf G'
    ∧ nbrs (adj G') (patent_node_id f)
      = foldl (record_edge l sims) (nbrs (adj G) (patent_node_id f))
              (top_indices argsort sims)
    ∧ ∀ x y, x ≠ patent_node_id f → y ≠ patent_node_id f →
        edge_weight G' x y = edge_weight G x y.
Proof.
  intros Hwf sims. unfold classify_document.
  destruct (attach_loop sims f (top_indices argsort sims) G Hwf)
    as (G' & Hrun & Hrest).
  - apply document_scores_length.
  - intros i Hi. rewrite <-(document_scores_length text).
    by apply (top_indices_bound argsort argsort_ok).
  - exists G'. split; [|done]. rewrite similarities_scores. simpl.
    fold sims. by rewrite Hrun.
Qed.

(** The state of the graph while the batch is processed: documents already
    visited have their final neighbourhood, the others have none. *)
Local Abbreviation attached G f text :=
  (nbrs (adj G) (patent_node_id f)
   = edges_map l (scores text) (top_indices argsort (scores text))).

Local Abbreviation detached G f := (nbrs (adj G) (patent_node_id f) = ∅).

Lemma edge_between_patents_unchanged G G' f0 f m :
  wf G → wf G' → f ≠ f0 →
  nbrs (adj G) (patent_node_id f0) = ∅ →
  nbrs (adj G') (patent_node_id f0)
  = foldl (record_edge l (scores m)) ∅ (top_indices argsort (scores m)) →
  (∀ x y, x ≠ patent_node_id f0 → y ≠ patent_node_id f0 →
     edge_weight G' x y = edge_weight G x y) →
  nbrs (adj G') (patent_node_id f) = nbrs (adj G) (patent_node_id f).
Proof.
  intros [_ Hsym] [_ Hsym'] Hne H0 H0' Hother.
  assert (Hpn : patent_node_id f ≠ patent_node_id f0).
  { by intros ?%patent_node_id_inj. }
  apply map_eq. intros y. rewrite <-!edge_weight_nbrs.
  destruct (decide (y = patent_node_id f0)) as [->|Hy]; [|by apply Hother].
  rewrite Hsym', (Hsym (patent_node_id f)), !edge_weight_nbrs, H0, H0'.
  by rewrite (record_edges_patent l ids_apart), lookup_empty.
Qed.

Lemma classify_loop ds : ∀ done G pe,
  dict_wf (done ++ ds) → wf G →
  (∀ f text, (f, text) ∈ done → attached G f text) →
  (∀ f text, (f, text) ∈ ds → detached G f) →
  pe = (prod_map id encode <$> done) →
  ∃ G', for_loop (classify_document encode cosine_similarity argsort l) (G, pe) ds
        = Return (G', prod_map id encode <$> (done ++ ds))
    ∧ wf G'
    ∧ ∀ f text, (f, text) ∈ done ++ ds → attached G' f text.
Proof.
  induction ds as [|[f0 text0] ds IH]; intros done G pe Hnd Hwf Hdone Htodo ->.
  - exists G. rewrite app_nil_r. done.
  - destruct (classify_document_spec G (prod_map id encode <$> done) f0 text0 Hwf)
      as (G1 & Hrun & Hwf1 & Hn & Hother).
    rewrite for_loop_cons, Hrun. simpl.
    assert (Hfresh : ∀ f text, (f, text) ∈ done ++ ds → f ≠ f0).
    { intros f text Hin ->. unfold dict_wf, keys in Hnd.
      rewrite fmap_app, fmap_cons in Hnd.
      apply NoDup_app in Hnd as (_ & Hdisj & [Hds _]%NoDup_cons).
      apply elem_of_app in Hin as [Hin|Hin].
      - eapply Hdisj; [apply list_elem_of_fmap; by exists (f0, text)|left].
      - apply Hds. apply list_elem_of_fmap. by exists (f0, text). }
    assert (H0 : nbrs (adj G) (patent_node_id f0) = ∅).
    { eapply Htodo. left. }
    rewrite H0 in Hn.
    rewrite set_fresh.
    2:{ unfold keys. rewrite <-list_fmap_compose. intros Hin.
        apply list_elem_of_fmap in Hin as ([f t] & Heq & Hin). simpl in Heq. subst.
        eapply Hfresh; [apply elem_of_app; by left|done]. }
    destruct (IH (done ++ [(f0, text0)]) G1
                (prod_map id encode <$> (done ++ [(f0, text0)])))
      as (G' & Hrun' & Hwf' & Hall).
    + by rewrite <-app_assoc.
    + done.
    + intros f text [Hin|Hin%list_elem_of_singleton]%elem_of_app.
      * rewrite <-(Hdone f text Hin).
        eapply edge_between_patents_unchanged; try done.
        eapply Hfresh. apply elem_of_app. by left.
      * injection Hin as -> ->. exact Hn.
    + intros f text Hin.
      rewrite <-(Htodo f text) by by right.
      eapply edge_between_patents_unchanged; try done.
      eapply Hfresh. apply elem_of_app. by right.
    + done.
    + exists G'. rewrite (cons_middle _ done ds), app_assoc.
      rewrite fmap_app in Hrun'. by split_and!.
Qed.
End Classify.

Lemma score_document_scores encode cosine_similarity (l : list SDGNode) text i sdg :
  l !! i = Some sdg →
  score (document_scores encode cosine_similarity l text) i
  = cosine_similarity (encode text) (encode (sdg_description sdg)).
Proof.
  intros Hi. unfold score, document_scores, sdg_embeddings.
  by rewrite !list_lookup_fmap, Hi.
Qed.

(** C6 (as the code has it). Every document of the batch ends the
    classification loop joined to exactly [min 5 (number of taxonomy
    entries)] taxonomy nodes, pairwise distinct; each edge carries the cosine
    similarity of the document with that entry, unclamped; the selected
    entries are listed by descending score and no entry left out scores
    higher than a selected one. The order among equal scores is the one the
    sort produces; nothing is claimed about it. The taxonomy is not empty,
    its ids are distinct and none has the form of a document node id. *)
Theorem documents_are_attached_to_top_scoring_entries
    (encode : string → vec) (cosine_similarity : vec → vec → Q)
    (argsort : list Q → list nat) (l : list SDGNode)
    (text_data : dict string string) :
  argsort_contract argsort →
  l ≠ [] →
  NoDup (sdg_id <$> l) →
  (∀ sdg f, sdg ∈ l → sdg_id sdg ≠ patent_node_id f) →
  dict_wf text_data →
  ∃ G' pe,
    classify_documents encode cosine_similarity argsort l (build_sdg_graph l) text_data
    = Return (G', pe)
    ∧ pe = (prod_map id encode <$> text_data)
    ∧ ∀ f text, (f, text) ∈ text_data →
        let sims := document_scores encode cosine_similarity l text in
        let top := top_indices argsort sims in
        let edges := Nx.neighbors G' (patent_node_id f) in
        size edges = 5 `min` length l
        ∧ length top = 5 `min` length l
        ∧ NoDup top
        ∧ (∀ y w, edges !! y = Some w ↔
             ∃ i sdg, i ∈ top ∧ l !! i = Some sdg ∧ y = sdg_id sdg
               ∧ w = cosine_similarity (encode text) (encode (sdg_description sdg)))
        ∧ (∀ p q a b, p ≤ q → top !! p = Some a → top !! q = Some b →
             (score sims b <= score sims a)%Q)
        ∧ (∀ a b, a ∈ top → b < length l → b ∉ top →
             (score sims b <= score sims a)%Q).
Proof.
  intros Hsort Hne Hids Hapart Hwf.
  destruct (build_sdg_graph_spec l) as [Hwf0 Hno].
  destruct (classify_loop encode cosine_similarity argsort Hsort l Hapart Hne
              text_data [] (build_sdg_graph l) [])
    as (G' & Hrun & Hwf' & Hall); [done|done| | |done|].
  { by intros f text ?%elem_of_nil. }
  { intros f text _. apply map_eq. intros y.
    by rewrite <-NxFacts.edge_weight_nbrs, Hno, lookup_empty. }
  exists G', (prod_map id encode <$> text_data).
  split_and!; [done..|].
  intros f text Hin sims top edges.
  assert (Hlen : length sims = length l).
  { apply document_scores_length. }
  assert (Htop : length top = 5 `min` length l).
  { unfold top. by rewrite (top_indices_length argsort Hsort), Hlen. }
  assert (Hnd : NoDup top) by apply (top_indices_NoDup argsort Hsort).
  assert (Hlt : ∀ i, i ∈ top → i < length l).
  { intros i Hi. rewrite <-Hlen. by apply (top_indices_bound argsort Hsort). }
  assert (Hedges : edges = edges_map l sims top).
  { unfold edges, Nx.neighbors. by apply Hall. }
  rewrite Hedges. unfold edges_map. split_and!.
  - rewrite (record_edges_size l Hids); [by rewrite map_size_empty|done..|].
    intros. apply lookup_empty.
  - done.
  - done.
  - intros y w. split.
    + intros Hy. destruct (record_edges_Some l sims top y w ∅ Hy)
        as [Hempty|(i & sdg & Hi & Hl & ->)]; [by rewrite lookup_empty in Hempty|].
      exists i, sdg. split_and!; [done..|].
      rewrite (record_edges_selected l Hids sims top i sdg) in Hy by done.
      injection Hy as <-. by apply score_document_scores.
    + intros (i & sdg & Hi & Hl & -> & ->).
      rewrite (record_edges_selected l Hids sims top i sdg) by done.
      f_equal. by apply score_document_scores.
  - apply (top_indices_descending argsort Hsort).
  - intros a b Ha Hb. apply (top_indices_dominate argsort Hsort); [done|].
    by rewrite Hlen.
Qed.

(** After the classification loop no two document nodes are joined: the
    linking loop starts from a graph without document-document edges. *)
Lemma classified_documents_are_not_linked
    (encode : string → vec) (cosine_similarity : vec → vec → Q)
    (argsort : list Q → list nat) (l : list SDGNode)
    (text_data : dict string string) G' pe :
  argsort_contract argsort →
  l ≠ [] →
  (∀ sdg f, sdg ∈ l → sdg_id sdg ≠ patent_node_id f) →
  dict_wf text_data →
  classify_documents encode cosine_similarity argsort l (build_sdg_graph l) text_data
  = Return (G', pe) →
  Nx.wf G'
  ∧ pe = (prod_map id encode <$> text_data)
  ∧ ∀ f1 f2, f1 ∈ keys text_data →
      Nx.edge_weight G' (patent_node_id f1) (patent_node_id f2) = None.
Proof.
  intros Hsort Hne Hapart Hwf Hrun.
  destruct (build_sdg_graph_spec l) as [Hwf0 Hno].
  destruct (classify_loop encode cosine_similarity argsort Hsort l Hapart Hne
              text_data [] (build_sdg_graph l) [])
    as (G & Hrun' & HwfG & Hall); [done|done| | |done|].
  { by intros f text ?%elem_of_nil. }
  { intros f text _. apply map_eq. intros y.
    by rewrite <-NxFacts.edge_weight_nbrs, Hno, lookup_empty. }
  unfold classify_documents, items in Hrun. simpl in Hrun'.
  rewrite Hrun' in Hrun. injection Hrun as <- <-.
  split_and!; [done..|].
  intros f1 f2 (kv & -> & Hin)%list_elem_of_fmap. destruct kv as [f text].
  rewrite NxFacts.edge_weight_nbrs. simpl.
  rewrite (Hall f text Hin). unfold edges_map.
  by rewrite (record_edges_patent l Hapart), lookup_empty.
Qed.

(** The two loops in sequence, as the handler runs them: the [i]-th and
    [j]-th uploaded documents end up joined exactly when their similarity
    exceeds 0.75. *)
Lemma handler_document_edge
    (encode : string → vec) (cosine_similarity : vec → vec → Q)
    (argsort : list Q → list nat) (l : list SDGNode)
    (text_data : dict string string) G' pe i j f1 t1 f2 t2 :
  argsort_contract argsort →
  l ≠ [] →
  (∀ sdg f, sdg ∈ l → sdg_id sdg ≠ patent_node_id f) →
  dict_wf text_data →
  classify_documents encode cosine_similarity argsort l (build_sdg_graph l) text_data
  = Return (G', pe) →
  i < j → text_data !! i = Some (f1, t1) → text_data !! j = Some (f2, t2) →
  Nx.edge_weight (link_documents cosine_similarity G' pe)
    (patent_node_id f1) (patent_node_id f2)
  = if Qgt_bool (cosine_similarity (encode t1) (encode t2)) 0.75
    then Some (cosine_similarity (encode t1) (encode t2)) else None.
Proof.
  intros Hsort Hne Hapart Hwf Hrun Hij Hi Hj.
  destruct (classified_documents_are_not_linked _ _ _ _ _ _ _
              Hsort Hne Hapart Hwf Hrun) as (HwfG & -> & Hno).
  unfold link_documents.
  rewrite (link_documents_edge _ _ _ _ i j f1 (encode t1) f2 (encode t2));
    [|done| |done|by rewrite list_lookup_fmap, ?Hi, ?Hj..].
  - rewrite Hno; [done|]. apply list_elem_of_fmap. exists (f1, t1).
    split; [done|]. by eapply list_elem_of_lookup_2.
  - unfold dict_wf, keys in *. rewrite <-list_fmap_compose.
    assert (Heq : (fst ∘ prod_map id encode) <$> text_data = text_data.*1).
    { apply list_fmap_ext. by intros ? []. }
    by rewrite Heq.
Qed.

Lemma sdgs_ids_NoDup : NoDup (sdg_id <$> sdgs).
Proof. apply (bool_decide_unpack _). vm_compute. exact I. Qed.

Lemma sdgs_ids_apart sdg f : sdg ∈ sdgs → sdg_id sdg ≠ patent_node_id f.
Proof.
  unfold sdgs. intros Hin.
  repeat (apply elem_of_cons in Hin as [->|Hin]; [discriminate|]).
  by apply elem_of_nil in Hin.
Qed.

Lemma documents_are_attached_to_top_scoring_entries_witness :
  ∃ G' pe,
    classify_documents unit_encoder abc_similarity stable_argsort sdgs
      (build_sdg_graph sdgs) one_text
    = Return (G', pe)
    ∧ pe = (prod_map id unit_encoder <$> one_text)
    ∧ ∀ f text, (f, text) ∈ one_text →
        let sims := document_scores unit_encoder abc_similarity sdgs text in
        let top := top_indices stable_argsort sims in
        let edges := Nx.neighbors G' (patent_node_id f) in
        size edges = 5 `min` length sdgs
        ∧ length top = 5 `min` length sdgs
        ∧ NoDup top
        ∧ (∀ y w, edges !! y = Some w ↔
             ∃ i sdg, i ∈ top ∧ sdgs !! i = Some sdg ∧ y = sdg_id sdg
               ∧ w = abc_similarity (unit_encoder text)
                       (unit_encoder (sdg_description sdg)))
        ∧ (∀ p q a b, p ≤ q → top !! p = Some a → top !! q = Some b →
             (score sims b <= score sims a)%Q)
        ∧ (∀ a b, a ∈ top → b < length sdgs → b ∉ top →
             (score sims b <= score sims a)%Q).
Proof.
  apply (documents_are_attached_to_top_scoring_entries unit_encoder abc_similarity
           stable_argsort sdgs one_text).
  - exact stable_argsort_contract.
  - done.
  - exact sdgs_ids_NoDup.
  - exact sdgs_ids_apart.
  - apply (bool_decide_unpack _). vm_compute. exact I.
Defined.

(** C6 (as stated) fails on ties: with a stable ascending sort, a document
    that scores the same against all 17 taxonomy entries is attached to the
    last five entries, whereas breaking ties by insertion order selects the
    first five. *)
Lemma taxonomy_ties_counterexample :
  let sims := document_scores unit_encoder flat_similarity sdgs
                "a method for water treatment" in
  (∀ i j, i < 17 → j < 17 → score sims i = score sims j)
  ∧ take 5 (sorted_desc (score sims) (seq 0 17)) = [0; 1; 2; 3; 4]
  ∧ top_indices stable_argsort sims = [16; 15; 14; 13; 12]
  ∧ match classify_documents unit_encoder flat_similarity stable_argsort sdgs
            (build_sdg_graph sdgs) one_text with
    | Return (G', _) =>
        Nx.edge_weight G' (patent_node_id "A") "SDG1" = None
        ∧ Nx.edge_weight G' (patent_node_id "A") "SDG17" = Some 1%Q
    | Raise _ => False
    end.
Proof.
  split_and!.
  - intros i j Hi Hj.
    do 17 (destruct i as [|i]; [do 17 (destruct j as [|j]; [reflexivity|]); lia|]).
    lia.
  - vm_compute. reflexivity.
  - vm_compute. reflexivity.
  - vm_compute. split; reflexivity.
Qed.

(** ** Narrative synthesis *)

Section NarrativeFacts.
Variable re_sub re_sub_ignorecase : string → string → string → string.
Variable re_split : string → string → list string.
Variable str_replace : string → string → string → string.
Variable str_strip : string → string.
Variable isdigit : ascii → bool.
Variable isalpha : string → bool.
Variable title : string → string.
Variable analyze : string → list string.
Variable select_features : list string → list string → list string.
Variable tfidf_column_sum : list string → string → Q.
Variable random_choice : list string → string.

(** No document, no vocabulary: the vectorizer raises. *)
Lemma fit_transform_empty :
  fit_transform analyze select_features tfidf_column_sum [] = Raise ValueError.
Proof. done. Qed.

Lemma extract_keywords_empty max_keywords :
  extract_keywords isalpha analyze select_features tfidf_column_sum [] max_keywords
  = Raise ValueError.
Proof. done. Qed.

(** More generally, texts without a single term make it raise. *)
Lemma fit_transform_no_terms texts :
  Forall (fun t => analyze t = []) texts →
  fit_transform analyze select_features tfidf_column_sum texts = Raise ValueError.
Proof.
  intros Hall. unfold fit_transform, vocabulary.
  assert (concat (map analyze texts) = []) as ->; [|done].
  induction Hall as [|t ts Ht _ IH]; [done|]. simpl. by rewrite Ht, IH.
Qed.

(** The fallback the composer has for an empty keyword list. *)
Lemma compose_description_no_keywords summary :
  compose_description random_choice summary [] = fallback_description +:+ summary.
Proof. done. Qed.
End NarrativeFacts.

(** C5 (what the code does instead). On an empty text group the opportunity
    narrative does not reach its fallback name and description: keyword
    extraction raises [ValueError] first, whatever the regular-expression
    engine, the string methods, the vectorizer's analyzer and weights and the
    random choice are. *)
Theorem describe_opportunity_raises_on_empty_group
    (re_sub re_sub_ignorecase : string → string → string → string)
    (re_split : string → string → list string)
    (str_replace : string → string → string → string)
    (str_strip : string → string) (isdigit : ascii → bool)
    (isalpha : string → bool) (title : string → string)
    (analyze : string → list string)
    (select_features : list string → list string → list string)
    (tfidf_column_sum : list string → string → Q)
    (random_choice : list string → string) :
  describe_opportunity re_sub re_sub_ignorecase re_split str_replace str_strip
    isdigit isalpha title analyze select_features tfidf_column_sum random_choice []
  = Raise ValueError.
Proof. done. Qed.

Lemma describe_startup_raises_on_empty_group
    (re_sub re_sub_ignorecase : string → string → string → string)
    (re_split : string → string → list string)
    (str_replace : string → string → string → string)
    (str_strip : string → string) (isdigit : ascii → bool)
    (isalpha : string → bool) (title upper : string → string)
    (analyze : string → list string)
    (select_features : list string → list string → list string)
    (tfidf_column_sum : list string → string → Q)
    (random_choice : list string → string) :
  describe_startup re_sub re_sub_ignorecase re_split str_replace str_strip
    isdigit isalpha title upper analyze select_features tfidf_column_sum
    random_choice []
  = Raise ValueError.
Proof. done. Qed.

(** * Further properties of the code *)

(** ** The clustering engine, pair by pair *)

Lemma NoDup_fmap_elem_inj {A B} (f : A → B) (l : list A) x y :
  NoDup (f <$> l) → x ∈ l → y ∈ l → f x = f y → x = y.
Proof.
  intros Hnd (i & Hi)%list_elem_of_lookup (j & Hj)%list_elem_of_lookup Hxy.
  assert (i = j) as ->; [|congruence].
  eapply (NoDup_lookup (f <$> l)); [done| |]; rewrite list_lookup_fmap.
  - by rewrite Hi.
  - rewrite Hj. simpl. by rewrite Hxy.
Qed.

Lemma similar_true (cosine_similarity : vec → vec → Q) threshold k1 v1 k2 v2 :
  similar cosine_similarity threshold ((k1, v1), (k2, v2)) = true
  ↔ (threshold <= cosine_similarity v1 v2)%Q.
Proof. unfold similar. simpl. apply Qle_bool_iff. Qed.

(** X1. The dominance test of the engine never discards a pair: the [i]-th
    and [j]-th documents form a cluster of the returned membership map
    exactly when their similarity reaches the threshold, and the map has as
    many clusters as there are such pairs. *)
Theorem pair_is_a_cluster_iff_it_clears_the_threshold
    (cosine_similarity : vec → vec → Q) (threshold : Q) (d : dict string vec)
    (i j : nat) (k1 k2 : string) (v1 v2 : vec) :
  dict_wf d → i < j → d !! i = Some (k1, v1) → d !! j = Some (k2, v2) →
  ∃ nodes conns,
    generate_shared_opportunity_nodes cosine_similarity d threshold
    = Return (nodes, conns)
    ∧ (({[k1; k2]} : gset string) ∈ values conns
       ↔ (threshold <= cosine_similarity v1 v2)%Q)
    ∧ length conns
      = length (filter (fun p => similar cosine_similarity threshold p = true)
                       (combinations2 (items d))).
Proof.
  intros Hwf Hij Hi Hj. eexists _, _. split; [by apply generate_spec|].
  assert (Hp : ((k1, v1), (k2, v2)) ∈ combinations2 d).
  { apply elem_of_combinations2. by exists i, j. }
  rewrite connections_values, length_imap, accepted_spec, length_fmap by done.
  split; [|done]. rewrite <-similar_true. split.
  - intros (q & Hq & Hin)%list_elem_of_fmap.
    apply list_elem_of_filter in Hin as [Hs Hin].
    by rewrite (NoDup_fmap_elem_inj pair_set (combinations2 d) _ q
                  (pair_sets_NoDup d Hwf) Hp Hin Hq).
  - intros Hs. apply list_elem_of_fmap. exists ((k1, v1), (k2, v2)).
    split; [done|]. by apply list_elem_of_filter.
Qed.

Lemma pair_is_a_cluster_iff_it_clears_the_threshold_witness :
  ∃ nodes conns,
    generate_shared_opportunity_nodes abc_similarity abc_embeddings 0.35
    = Return (nodes, conns)
    ∧ (({["A"; "C"]} : gset string) ∈ values conns
       ↔ (0.35 <= abc_similarity [1%Q] [3%Q])%Q)
    ∧ length conns
      = length (filter (fun p => similar abc_similarity 0.35 p = true)
                       (combinations2 (items abc_embeddings))).
Proof.
  apply (pair_is_a_cluster_iff_it_clears_the_threshold abc_similarity 0.35
           abc_embeddings 0 2 "A" "C" [1%Q] [3%Q]).
  - exact abc_embeddings_wf.
  - lia.
  - reflexivity.
  - reflexivity.
Defined.

(** X2. The engine returns an empty membership map exactly when no pair of
    documents reaches the threshold; a batch of fewer than two documents
    therefore never yields a cluster. *)
Theorem no_cluster_iff_no_pair_clears_the_threshold
    (cosine_similarity : vec → vec → Q) (threshold : Q) (d : dict string vec) :
  dict_wf d →
  ∃ nodes conns,
    generate_shared_opportunity_nodes cosine_similarity d threshold
    = Return (nodes, conns)
    ∧ (conns = [] ↔
       ∀ i j k1 v1 k2 v2, i < j → d !! i = Some (k1, v1) → d !! j = Some (k2, v2) →
         ¬ (threshold <= cosine_similarity v1 v2)%Q)
    ∧ (length d ≤ 1 → nodes = [] ∧ conns = []).
Proof.
  intros Hwf. eexists _, _. split; [by apply generate_spec|].
  rewrite accepted_spec by done. split.
  - split.
    + intros Hnil i j k1 v1 k2 v2 Hij Hi Hj Hle.
      apply (similar_true _ _ k1 v1 k2 v2) in Hle.
      assert (Hin : ((k1, v1), (k2, v2))
                    ∈ filter (fun p => similar cosine_similarity threshold p = true)
                             (combinations2 d)).
      { apply list_elem_of_filter. split; [done|].
        apply elem_of_combinations2. by exists i, j. }
      destruct (filter _ (combinations2 d)); [by apply elem_of_nil in Hin|done].
    + intros Hnone.
      destruct (filter _ (combinations2 d)) as [|[[k1 v1] [k2 v2]] r] eqn:Hf; [done|].
      assert (Hin : ((k1, v1), (k2, v2))
                    ∈ filter (fun p => similar cosine_similarity threshold p = true)
                             (combinations2 d)) by (rewrite Hf; left).
      apply list_elem_of_filter in Hin as [Hs Hin].
      apply elem_of_combinations2 in Hin as (i & j & Hij & Hi & Hj).
      exfalso. apply (Hnone i j k1 v1 k2 v2 Hij Hi Hj).
      by apply (similar_true _ _ k1 v1 k2 v2).
  - intros Hlen. destruct d as [|x [|y r]]; simpl in *; [done|done|lia].
Qed.

Lemma no_cluster_iff_no_pair_clears_the_threshold_witness :
  ∃ nodes conns,
    generate_shared_opportunity_nodes abc_similarity [("A", [1%Q])] 0.35
    = Return (nodes, conns)
    ∧ (conns = [] ↔
       ∀ i j k1 v1 k2 v2, i < j →
         [("A", [1%Q])] !! i = Some (k1, v1) → [("A", [1%Q])] !! j = Some (k2, v2) →
         ¬ (0.35 <= abc_similarity v1 v2)%Q)
    ∧ (length [("A", [1%Q])] ≤ 1 → nodes = [] ∧ conns = []).
Proof.
  apply (no_cluster_iff_no_pair_clears_the_threshold abc_similarity 0.35
           [("A", [1%Q])]).
  apply (bool_decide_unpack _). vm_compute. exact I.
Defined.

(** X3. Lowering the clustering threshold only adds clusters: every member
    set returned at threshold [t] is returned at any threshold [t' <= t]. *)
Theorem lowering_the_threshold_only_adds_clusters
    (cosine_similarity : vec → vec → Q) (t t' : Q) (d : dict string vec) :
  dict_wf d → (t' <= t)%Q →
  ∃ nodes conns nodes' conns',
    generate_shared_opportunity_nodes cosine_similarity d t = Return (nodes, conns)
    ∧ generate_shared_opportunity_nodes cosine_similarity d t' = Return (nodes', conns')
    ∧ ∀ g, g ∈ values conns → g ∈ values conns'.
Proof.
  intros Hwf Hle. eexists _, _, _, _. split_and!; [by apply generate_spec..|].
  intros g. rewrite !connections_values, !accepted_spec by done.
  intros ([[k1 v1] [k2 v2]] & -> & Hin)%list_elem_of_fmap.
  apply list_elem_of_filter in Hin as [Hs%similar_true Hin].
  apply list_elem_of_fmap. eexists. split; [done|].
  apply list_elem_of_filter. split; [|done].
  apply similar_true. by eapply Qle_trans.
Qed.

Lemma lowering_the_threshold_only_adds_clusters_witness :
  ∃ nodes conns nodes' conns',
    generate_shared_opportunity_nodes abc_similarity abc_embeddings 0.35
    = Return (nodes, conns)
    ∧ generate_shared_opportunity_nodes abc_similarity abc_embeddings 0.05
      = Return (nodes', conns')
    ∧ ∀ g, g ∈ values conns → g ∈ values conns'.
Proof.
  apply (lowering_the_threshold_only_adds_clusters abc_similarity 0.35 0.05
           abc_embeddings).
  - exact abc_embeddings_wf.
  - by apply Qle_bool_iff.
Defined.

(** ** The engine feeding the flagship selector *)

Lemma pretty_2 : pretty 2 = "2".
Proof. vm_compute. reflexivity. Qed.

Lemma bind_Return {A B} (a : A) (k : A → result B) : Return a ≫= k = k a.
Proof. done. Qed.

Lemma patents_for_startup_nonempty (opp_links : dict string (gset string))
    (patent_embeddings : dict string vec) :
  opp_links ≠ [] →
  patents_for_startup opp_links patent_embeddings
  = py_max (fun k => g ← subscript opp_links k; Return (size g)) (keys opp_links)
    ≫= fun k => subscript opp_links k ≫= fun g => Return (elements g).
Proof. by destruct opp_links. Qed.

(** X4. Because every cluster has two members, the documents handed to the
    startup narrative are those of the first cluster, [OPPORTUNITY_1],
    whenever the engine finds a cluster at all, and all documents of the
    batch otherwise; either way they are keys of the embeddings, so the
    text lookup that follows cannot miss. *)
Theorem flagship_of_the_engine_is_its_first_cluster
    (cosine_similarity : vec → vec → Q) (threshold : Q) (d : dict string vec) :
  dict_wf d →
  ∃ nodes conns patents,
    generate_shared_opportunity_nodes cosine_similarity d threshold
    = Return (nodes, conns)
    ∧ patents_for_startup conns d = Return patents
    ∧ (conns = [] → patents = keys d)
    ∧ (∀ k g, conns !! 0 = Some (k, g) →
         k = opportunity_id 1 ∧ patents = elements g)
    ∧ (∀ pid, pid ∈ patents → pid ∈ keys d).
Proof.
  intros Hwf.
  set (conns := imap (fun i (g : gset string) => (opportunity_id (S i), g))
                     (accepted cosine_similarity threshold d)).
  assert (Hgen := generate_spec cosine_similarity threshold d Hwf). fold conns in Hgen.
  destruct (accepted cosine_similarity threshold d) as [|g0 rest] eqn:Hacc.
  { eexists _, [], (keys d). split_and!; [exact Hgen|done..]. }
  set (key := fun k => g ← subscript conns k; Return (size g)).
  set (f := fun k => size (default (∅ : gset string) (get conns k))).
  assert (Hsize : ∀ k, k ∈ keys conns → key k = Return 2 ∧ f k = 2).
  { intros k (kv & -> & Hkv)%list_elem_of_fmap.
    apply list_elem_of_lookup in Hkv as [i Hi]. unfold conns in Hi.
    rewrite list_lookup_imap in Hi.
    destruct ((g0 :: rest) !! i) as [g|] eqn:Hg; [|done].
    simpl in Hi. injection Hi as <-. simpl.
    assert (Hget : get conns (opportunity_id (S i)) = Some g).
    { unfold conns. rewrite <-Hacc. apply connections_get. by rewrite Hacc. }
    assert (size g = 2).
    { apply (accepted_size cosine_similarity threshold d g Hwf).
      rewrite Hacc. by eapply list_elem_of_lookup_2. }
    unfold key, f. rewrite (subscript_Return _ _ _ Hget), Hget. simpl.
    split; congruence. }
  destruct (py_max_spec key f (keys conns)) as (i & k & Hmax & Hi & _ & Hfirst).
  { done. }
  { intros k Hk. destruct (Hsize k Hk) as [-> ->]. done. }
  assert (i = 0) as ->.
  { destruct i as [|i]; [done|].
    assert (f (opportunity_id 1) < f k); [|].
    { apply (Hfirst 0); [lia|done]. }
    destruct (Hsize (opportunity_id 1)) as [_ H1]; [left|].
    destruct (Hsize k) as [_ H2]; [by eapply list_elem_of_lookup_2|]. lia. }
  simpl in Hi. injection Hi as <-.
  assert (Hget : get conns (opportunity_id 1) = Some g0).
  { unfold conns. simpl. by rewrite ?decide_True. }
  eexists _, conns, (elements g0). split_and!; [exact Hgen| |done| |].
  - rewrite patents_for_startup_nonempty by (unfold conns; done).
    change (py_max key (keys conns)
            ≫= (fun k => subscript conns k ≫= fun g => Return (elements g))
            = Return (elements g0)).
    rewrite Hmax, bind_Return, (subscript_Return _ _ _ Hget). done.
  - intros k g [= <- <-]. done.
  - intros pid Hpid%elem_of_elements.
    apply (accepted_keys cosine_similarity threshold d g0); [done| |done].
    rewrite Hacc. left.
Qed.

Lemma flagship_of_the_engine_is_its_first_cluster_witness :
  ∃ nodes conns patents,
    generate_shared_opportunity_nodes abc_similarity abc_embeddings 0.35
    = Return (nodes, conns)
    ∧ patents_for_startup conns abc_embeddings = Return patents
    ∧ (conns = [] → patents = keys abc_embeddings)
    ∧ (∀ k g, conns !! 0 = Some (k, g) →
         k = opportunity_id 1 ∧ patents = elements g)
    ∧ (∀ pid, pid ∈ patents → pid ∈ keys abc_embeddings).
Proof.
  apply (flagship_of_the_engine_is_its_first_cluster abc_similarity 0.35
           abc_embeddings).
  exact abc_embeddings_wf.
Defined.

(** X5. The label the engine gives the [i]-th node always announces two
    patents: it is "Shared Opportunity <i+1> (2 patents)". *)
Theorem engine_labels_announce_two_patents
    (cosine_similarity : vec → vec → Q) (threshold : Q) (d : dict string vec) :
  dict_wf d →
  ∃ nodes conns,
    generate_shared_opportunity_nodes cosine_similarity d threshold
    = Return (nodes, conns)
    ∧ ∀ i n, nodes !! i = Some n →
        opp_label n = "Shared Opportunity " +:+ pretty (S i) +:+ " (2 patents)".
Proof.
  intros Hwf. eexists _, _. split; [by apply generate_spec|].
  intros i n Hn. rewrite list_lookup_imap in Hn.
  destruct (accepted cosine_similarity threshold d !! i) as [g|] eqn:Hg; [|done].
  simpl in Hn. injection Hn as <-. simpl. unfold opportunity_label.
  rewrite (accepted_size cosine_similarity threshold d g Hwf);
    [|by eapply list_elem_of_lookup_2].
  by rewrite pretty_2.
Qed.

Lemma engine_labels_announce_two_patents_witness :
  ∃ nodes conns,
    generate_shared_opportunity_nodes abc_similarity abc_embeddings 0.35
    = Return (nodes, conns)
    ∧ ∀ i n, nodes !! i = Some n →
        opp_label n = "Shared Opportunity " +:+ pretty (S i) +:+ " (2 patents)".
Proof.
  apply (engine_labels_announce_two_patents abc_similarity 0.35 abc_embeddings).
  exact abc_embeddings_wf.
Defined.

(** ** The taxonomy skeleton *)

Section Skeleton.
Import Nx NxFacts.

Lemma node_add_node G n attrs :
  node (add_node G n attrs) = <[n := attrs ∪ default ∅ (node G !! n)]> (node G).
Proof.
  unfold add_node, touch. destruct (node G !! n) as [a|] eqn:Hn; simpl.
  - by rewrite Hn.
  - by rewrite lookup_insert_eq, insert_insert_eq.
Qed.

Lemma adj_add_node_eq G n attrs x :
  wf G → nbrs (adj (add_node G n attrs)) x = nbrs (adj G) x.
Proof. intros Hwf. unfold add_node. simpl. by apply touch_nbrs. Qed.

(** The attributes [build_sdg_graph] gives a taxonomy entry. *)
Local Abbreviation sdg_attrs s :=
  ({[ "label" := sdg_name s; "description" := sdg_description s ]} : gmap string string).

Lemma build_fold_nodes l : ∀ G,
  NoDup (sdg_id <$> l) →
  (∀ s, s ∈ l → node G !! sdg_id s = None) →
  let G' := foldl (fun G s => add_node G (sdg_id s) (sdg_attrs s)) G l in
  (∀ s, s ∈ l → node G' !! sdg_id s = Some (sdg_attrs s))
  ∧ (∀ m, m ∉ sdg_id <$> l → node G' !! m = node G !! m).
Proof.
  induction l as [|s l IH]; intros G Hnd Hfresh; simpl.
  - split; [by intros s ?%elem_of_nil|done].
  - rewrite ?fmap_cons in Hnd. apply NoDup_cons in Hnd as [Hs Hnd].
    assert (Hnode : node (add_node G (sdg_id s) (sdg_attrs s))
                    = <[sdg_id s := sdg_attrs s]> (node G)).
    { rewrite node_add_node, (Hfresh s) by left. simpl.
      by rewrite (right_id_L ∅ (∪)). }
    destruct (IH (add_node G (sdg_id s) (sdg_attrs s)) Hnd) as [Hin Hout].
    { intros s' Hs'. rewrite Hnode, lookup_insert_ne.
      - apply Hfresh. by right.
      - intros Heq. apply Hs. rewrite Heq. apply list_elem_of_fmap. by exists s'. }
    split.
    + intros s' [->|Hs']%elem_of_cons; [|by apply Hin].
      rewrite Hout by done. rewrite Hnode. apply lookup_insert_eq.
    + intros m Hm. rewrite ?fmap_cons in Hm.
      apply not_elem_of_cons in Hm as [Hne Hm].
      rewrite Hout by done. rewrite Hnode. by rewrite lookup_insert_ne.
Qed.

Lemma tag_sdgs_spec l : ∀ G,
  (∀ s, s ∈ l → is_Some (node G !! sdg_id s)) →
  ∃ G', tag_sdgs l G = Return G'
    ∧ adj G' = adj G
    ∧ (∀ m, m ∈ sdg_id <$> l → node G' !! m = <["type" := "sdg"]> <$> node G !! m)
    ∧ (∀ m, m ∉ sdg_id <$> l → node G' !! m = node G !! m).
Proof.
  unfold tag_sdgs.
  induction l as [|s l IH]; intros G Hall.
  - exists G. split_and!; [done..| |done]. by intros m ?%elem_of_nil.
  - destruct (Hall s) as [a Ha]; [left|].
    set (G1 := {| node := <[sdg_id s := <["type" := "sdg"]> a]> (node G);
                  adj := adj G |}).
    assert (Hstep : set_attr G (sdg_id s) "type" "sdg" = Return G1).
    { unfold set_attr. by rewrite Ha. }
    rewrite for_loop_cons, Hstep, bind_Return.
    destruct (IH G1) as (G' & Hrun & Hadj & Hin & Hout).
    { intros s' Hs'. unfold G1. simpl. rewrite lookup_insert.
      case_decide; [by eexists|]. apply Hall. by right. }
    exists G'. split_and!; [done|done| |].
    + intros m Hm. rewrite ?fmap_cons in Hm.
      destruct (decide (m ∈ sdg_id <$> l)) as [Hml|Hml].
      * rewrite Hin by done. unfold G1. simpl. rewrite lookup_insert.
        case_decide as Hsm; [|done]. subst m. rewrite Ha. simpl.
        by rewrite insert_insert_eq.
      * apply elem_of_cons in Hm as [->|Hm]; [|done].
        rewrite Hout by done. unfold G1. simpl.
        by rewrite lookup_insert_eq, Ha.
    + intros m Hm. rewrite ?fmap_cons in Hm.
      apply not_elem_of_cons in Hm as [Hne Hm].
      rewrite Hout by done. unfold G1. simpl. by rewrite lookup_insert_ne.
Qed.
End Skeleton.

(** X6. For a taxonomy with distinct ids, building the skeleton and tagging
    it (lines 178-180 of the handler) never raises and yields a graph
    without edges whose nodes are exactly the taxonomy ids, each carrying its
    name as label, its description and the type "sdg". *)
Theorem taxonomy_skeleton_has_one_tagged_node_per_entry (l : list SDGNode) :
  NoDup (sdg_id <$> l) →
  ∃ G, tag_sdgs l (build_sdg_graph l) = Return G
    ∧ Nx.wf G
    ∧ (∀ x y, Nx.edge_weight G x y = None)
    ∧ (∀ s, s ∈ l →
         Nx.node G !! sdg_id s
         = Some {[ "type" := "sdg"; "label" := sdg_name s;
                   "description" := sdg_description s ]})
    ∧ (∀ m, m ∉ sdg_id <$> l → Nx.node G !! m = None).
Proof.
  intros Hnd.
  destruct (build_sdg_graph_spec l) as [[Hdom Hsym] Hno].
  destruct (build_fold_nodes l Nx.empty Hnd) as [Hin Hout].
  { intros s _. apply lookup_empty. }
  fold (build_sdg_graph l) in Hin, Hout.
  destruct (tag_sdgs_spec l (build_sdg_graph l)) as (G & Hrun & Hadj & Htin & Htout).
  { intros s Hs. rewrite (Hin s Hs). by eexists. }
  assert (Hew : ∀ x y, Nx.edge_weight G x y = Nx.edge_weight (build_sdg_graph l) x y).
  { intros x y. unfold Nx.edge_weight. by rewrite Hadj. }
  exists G. split_and!; [done| | | |].
  - split.
    + intros n Hn. rewrite Hadj. apply Hdom.
      destruct (decide (n ∈ sdg_id <$> l)) as [Hnl|Hnl].
      * rewrite Htin in Hn by done.
        by destruct (Nx.node (build_sdg_graph l) !! n).
      * by rewrite Htout in Hn.
    + intros x y. by rewrite !Hew.
  - intros x y. by rewrite Hew.
  - intros s Hs. rewrite Htin by (apply list_elem_of_fmap; by exists s).
    by rewrite (Hin s Hs).
  - intros m Hm. rewrite Htout, Hout by done. apply lookup_empty.
Qed.

Lemma taxonomy_skeleton_has_one_tagged_node_per_entry_witness :
  ∃ G, tag_sdgs sdgs (build_sdg_graph sdgs) = Return G
    ∧ Nx.wf G
    ∧ (∀ x y, Nx.edge_weight G x y = None)
    ∧ (∀ s, s ∈ sdgs →
         Nx.node G !! sdg_id s
         = Some {[ "type" := "sdg"; "label" := sdg_name s;
                   "description" := sdg_description s ]})
    ∧ (∀ m, m ∉ sdg_id <$> sdgs → Nx.node G !! m = None).
Proof.
  apply (taxonomy_skeleton_has_one_tagged_node_per_entry sdgs).
  apply (bool_decide_unpack _). vm_compute. exact I.
Defined.

(** ** What the two loops leave alone *)

Section Untouched.
Import Nx NxFacts.
Variable cosine_similarity : vec → vec → Q.

(** A step of the linking loop changes at most the edge between its two
    documents. *)
Lemma link_step_elsewhere t G p x y :
  wf G →
  ¬ ((x = patent_node_id p.1.1 ∧ y = patent_node_id p.2.1)
     ∨ (x = patent_node_id p.2.1 ∧ y = patent_node_id p.1.1)) →
  edge_weight (link_step cosine_similarity t G p) x y = edge_weight G x y.
Proof.
  intros Hwf Hne. destruct p as [[f1 e1] [f2 e2]]. simpl in *.
  destruct (Qgt_bool _ _); [|done].
  rewrite edge_weight_add_edge by done. by rewrite decide_False.
Qed.

Lemma link_fold_elsewhere t ps x y : ∀ G,
  wf G →
  Forall (fun p => ¬ ((x = patent_node_id p.1.1 ∧ y = patent_node_id p.2.1)
                      ∨ (x = patent_node_id p.2.1 ∧ y = patent_node_id p.1.1))) ps →
  edge_weight (foldl (link_step cosine_similarity t) G ps) x y = edge_weight G x y.
Proof.
  induction ps as [|p ps IH]; intros G Hwf Hall; simpl; [done|].
  apply Forall_cons in Hall as [Hp Hall].
  rewrite IH; [|by apply wf_link_step|done].
  by apply link_step_elsewhere.
Qed.

Lemma link_documents_elsewhere t G (d : dict string vec) x y :
  wf G → dict_wf d →
  ¬ (∃ f1 f2, f1 ∈ keys d ∧ f2 ∈ keys d ∧ f1 ≠ f2
              ∧ x = patent_node_id f1 ∧ y = patent_node_id f2) →
  edge_weight (link_documents_above cosine_similarity t G d) x y = edge_weight G x y.
Proof.
  intros Hwf Hd Hne. unfold link_documents_above, items.
  apply link_fold_elsewhere; [done|].
  apply Forall_forall. intros p Hp Hcase. apply Hne.
  destruct (combinations2_keys d p Hp) as [H1 H2].
  assert (H12 := combinations2_keys_ne d p Hd Hp).
  destruct Hcase as [[-> ->]|[-> ->]]; eauto 10.
Qed.
End Untouched.

(** X7. The linking loop changes nothing but edges between two different
    documents of the batch: every other edge of the graph, in particular
    every document-taxonomy edge and its weight, is left as it was, and no
    node gets an edge to itself. *)
Theorem linking_only_touches_pairs_of_documents
    (cosine_similarity : vec → vec → Q) (t : Q) (G : Nx.Graph)
    (d : dict string vec) (x y : string) :
  Nx.wf G → dict_wf d →
  ¬ (∃ f1 f2, f1 ∈ keys d ∧ f2 ∈ keys d ∧ f1 ≠ f2
              ∧ x = patent_node_id f1 ∧ y = patent_node_id f2) →
  Nx.edge_weight (link_documents_above cosine_similarity t G d) x y
  = Nx.edge_weight G x y
  ∧ Nx.edge_weight (link_documents_above cosine_similarity t G d) x x
    = Nx.edge_weight G x x.
Proof.
  intros Hwf Hd Hne. split; [by apply link_documents_elsewhere|].
  apply link_documents_elsewhere; [done..|].
  intros (f1 & f2 & _ & _ & Hf & -> & Heq%patent_node_id_inj). congruence.
Qed.

Lemma linking_only_touches_pairs_of_documents_witness :
  Nx.edge_weight
    (link_documents_above abc_similarity 0.35 (build_sdg_graph sdgs) abc_embeddings)
    (patent_node_id "A") "SDG1"
  = Nx.edge_weight (build_sdg_graph sdgs) (patent_node_id "A") "SDG1"
  ∧ Nx.edge_weight
      (link_documents_above abc_similarity 0.35 (build_sdg_graph sdgs) abc_embeddings)
      (patent_node_id "A") (patent_node_id "A")
    = Nx.edge_weight (build_sdg_graph sdgs) (patent_node_id "A") (patent_node_id "A").
Proof.
  apply (linking_only_touches_pairs_of_documents abc_similarity 0.35
           (build_sdg_graph sdgs) abc_embeddings (patent_node_id "A") "SDG1").
  - apply build_sdg_graph_spec.
  - exact abc_embeddings_wf.
  - intros (f1 & f2 & _ & _ & _ & _ & Heq). discriminate Heq.
Defined.

Section ClassifyElsewhere.
Import Nx NxFacts.
Variable encode : string → vec.
Variable cosine_similarity : vec → vec → Q.
Variable argsort : list Q → list nat.
Hypothesis argsort_ok : argsort_contract argsort.
Variable l : list SDGNode.
Hypothesis ids_apart : ∀ sdg f, sdg ∈ l → sdg_id sdg ≠ patent_node_id f.
Hypothesis taxonomy_nonempty : l ≠ [].

(** Classification only adds edges at the nodes of the batch's documents. *)
Lemma classify_loop_elsewhere ds x y : ∀ G pe G' pe',
  wf G →
  (∀ f, f ∈ keys ds → x ≠ patent_node_id f) →
  (∀ f, f ∈ keys ds → y ≠ patent_node_id f) →
  for_loop (classify_document encode cosine_similarity argsort l) (G, pe) ds
  = Return (G', pe') →
  wf G' ∧ edge_weight G' x y = edge_weight G x y.
Proof.
  induction ds as [|[f text] ds IH]; intros G pe G' pe' Hwf Hx Hy Hrun.
  - simpl in Hrun. by injection Hrun as <- <-.
  - rewrite for_loop_cons in Hrun.
    destruct (classify_document_spec encode cosine_similarity argsort argsort_ok
                l ids_apart taxonomy_nonempty G pe f text Hwf)
      as (G1 & Hstep & Hwf1 & _ & Hother).
    rewrite Hstep, bind_Return in Hrun.
    destruct (IH G1 (set pe f (encode text)) G' pe' Hwf1) as [Hwf' Heq]; [| |done|].
    + intros f' Hf'. apply Hx. unfold keys. simpl. by right.
    + intros f' Hf'. apply Hy. unfold keys. simpl. by right.
    + split; [done|]. rewrite Heq. apply Hother.
      * apply Hx. unfold keys. simpl. left.
      * apply Hy. unfold keys. simpl. left.
Qed.
End ClassifyElsewhere.

Lemma classify_documents_returns
    (encode : string → vec) (cosine_similarity : vec → vec → Q)
    (argsort : list Q → list nat) (l : list SDGNode)
    (text_data : dict string string) :
  argsort_contract argsort →
  l ≠ [] →
  (∀ sdg f, sdg ∈ l → sdg_id sdg ≠ patent_node_id f) →
  dict_wf text_data →
  ∃ G' pe,
    classify_documents encode cosine_similarity argsort l (build_sdg_graph l) text_data
    = Return (G', pe).
Proof.
  intros Hsort Hne Hapart Hwf.
  destruct (build_sdg_graph_spec l) as [Hwf0 Hno].
  destruct (classify_loop encode cosine_similarity argsort Hsort l Hapart Hne
              text_data [] (build_sdg_graph l) [])
    as (G & Hrun & _); [done|done| | |done|].
  { by intros f text ?%elem_of_nil. }
  { intros f text _. apply map_eq. intros y.
    by rewrite <-NxFacts.edge_weight_nbrs, Hno, lookup_empty. }
  by eexists _, _.
Qed.

(** X8. After the classification and the linking loop no two taxonomy
    nodes are joined: the handler only ever creates document-taxonomy and
    document-document edges. *)
Theorem taxonomy_nodes_are_never_linked
    (encode : string → vec) (cosine_similarity : vec → vec → Q)
    (argsort : list Q → list nat) (l : list SDGNode)
    (text_data : dict string string) :
  argsort_contract argsort →
  l ≠ [] →
  (∀ sdg f, sdg ∈ l → sdg_id sdg ≠ patent_node_id f) →
  dict_wf text_data →
  ∃ G' pe,
    classify_documents encode cosine_similarity argsort l (build_sdg_graph l) text_data
    = Return (G', pe)
    ∧ ∀ s1 s2, s1 ∈ l → s2 ∈ l →
        Nx.edge_weight G' (sdg_id s1) (sdg_id s2) = None
        ∧ Nx.edge_weight (link_documents cosine_similarity G' pe)
            (sdg_id s1) (sdg_id s2) = None.
Proof.
  intros Hsort Hne Hapart Hwf.
  destruct (classify_documents_returns encode cosine_similarity argsort l text_data
              Hsort Hne Hapart Hwf) as (G' & pe & Hrun).
  exists G', pe. split; [done|]. intros s1 s2 Hs1 Hs2.
  destruct (build_sdg_graph_spec l) as [Hwf0 Hno].
  destruct (classify_loop_elsewhere encode cosine_similarity argsort Hsort l
              Hapart Hne text_data (sdg_id s1) (sdg_id s2)
              (build_sdg_graph l) [] G' pe Hwf0) as [HwfG Heq];
    [by intros f _; apply Hapart..|exact Hrun|].
  rewrite Hno in Heq. split; [done|].
  destruct (classified_documents_are_not_linked _ _ _ _ _ _ _
              Hsort Hne Hapart Hwf Hrun) as (_ & Hpe & _).
  unfold link_documents. rewrite link_documents_elsewhere; [done|done| |].
  - rewrite Hpe. unfold dict_wf, keys in *. rewrite <-list_fmap_compose.
    assert (Hk : (fst ∘ prod_map id encode) <$> text_data = text_data.*1).
    { apply list_fmap_ext. by intros ? []. }
    by rewrite Hk.
  - intros (f1 & f2 & _ & _ & _ & Heq1 & _). exact (Hapart s1 f1 Hs1 Heq1).
Qed.

Lemma taxonomy_nodes_are_never_linked_witness :
  ∃ G' pe,
    classify_documents unit_encoder abc_similarity stable_argsort sdgs
      (build_sdg_graph sdgs) one_text = Return (G', pe)
    ∧ ∀ s1 s2, s1 ∈ sdgs → s2 ∈ sdgs →
        Nx.edge_weight G' (sdg_id s1) (sdg_id s2) = None
        ∧ Nx.edge_weight (link_documents abc_similarity G' pe)
            (sdg_id s1) (sdg_id s2) = None.
Proof.
  apply (taxonomy_nodes_are_never_linked unit_encoder abc_similarity stable_argsort
           sdgs one_text).
  - exact stable_argsort_contract.
  - done.
  - exact sdgs_ids_apart.
  - apply (bool_decide_unpack _). vm_compute. exact I.
Defined.

(** ** Node attributes *)

Section NodeAttributes.
Import Nx NxFacts.

Lemma node_touch G n m :
  node (touch G n) !! m
  = if decide (n = m) then Some (default ∅ (node G !! n)) else node G !! m.
Proof.
  unfold touch. destruct (node G !! n) as [a|] eqn:Hn; simpl.
  - case_decide; [by subst|done].
  - rewrite lookup_insert. by case_decide.
Qed.

Lemma node_touch_present G n : is_Some (node G !! n) → node (touch G n) = node G.
Proof. intros [a Ha]. unfold touch. by rewrite Ha. Qed.

Variable encode : string → vec.
Variable cosine_similarity : vec → vec → Q.
Variable argsort : list Q → list nat.
Hypothesis argsort_ok : argsort_contract argsort.
Variable l : list SDGNode.
Hypothesis ids_apart : ∀ sdg f, sdg ∈ l → sdg_id sdg ≠ patent_node_id f.
Hypothesis taxonomy_nonempty : l ≠ [].

Local Abbreviation patent_attrs f :=
  ({[ "label" := f; "type" := "patent" ]} : gmap string string).

Lemma attach_sdg_node sims f G i G1 :
  (∀ s, s ∈ l → is_Some (node G !! sdg_id s)) →
  attach_sdg l sims f G i = Return G1 →
  node G1 = <[patent_node_id f := patent_attrs f ∪ default ∅ (node G !! patent_node_id f)]>
              (node G).
Proof.
  intros Hsdg. unfold attach_sdg, index.
  destruct (sims !! i) as [w|]; [|done].
  destruct (l !! i) as [sdg|] eqn:Hi; [|done]. simpl.
  intros [= <-]. unfold add_edge. simpl.
  set (G0 := add_node G (patent_node_id f) (patent_attrs f)).
  assert (Hn0 : node G0 = <[patent_node_id f :=
                  patent_attrs f ∪ default ∅ (node G !! patent_node_id f)]> (node G)).
  { apply node_add_node. }
  assert (H1 : node (touch G0 (patent_node_id f)) = node G0).
  { apply node_touch_present. rewrite Hn0, lookup_insert_eq. by eexists. }
  rewrite node_touch_present; [by rewrite H1|].
  rewrite H1, Hn0, lookup_insert_ne.
  - apply Hsdg. by eapply list_elem_of_lookup_2.
  - intros Heq. eapply ids_apart; [by eapply list_elem_of_lookup_2|done].
Qed.

Lemma attach_loop_node sims f top : ∀ G G',
  (∀ s, s ∈ l → is_Some (node G !! sdg_id s)) →
  top ≠ [] →
  for_loop (attach_sdg l sims f) G top = Return G' →
  node G' = <[patent_node_id f := patent_attrs f ∪ default ∅ (node G !! patent_node_id f)]>
              (node G).
Proof.
  induction top as [|i top IH]; intros G G' Hsdg Hne Hrun; [done|].
  rewrite for_loop_cons in Hrun.
  destruct (attach_sdg l sims f G i) as [G1|e] eqn:Hstep; [|done].
  rewrite bind_Return in Hrun.
  assert (Hn1 := attach_sdg_node sims f G i G1 Hsdg Hstep).
  destruct top as [|j top].
  { simpl in Hrun. by injection Hrun as <-. }
  rewrite (IH G1 G'); [|..|done|done].
  - rewrite Hn1, lookup_insert_eq. simpl. rewrite insert_insert_eq.
    by rewrite (assoc_L (∪)), (idemp_L (∪)).
  - intros s Hs. rewrite Hn1, lookup_insert.
    case_decide; [by eexists|by apply Hsdg].
Qed.

Lemma classify_loop_node ds : ∀ G pe G' pe',
  dict_wf ds →
  (∀ s, s ∈ l → is_Some (node G !! sdg_id s)) →
  (∀ f, f ∈ keys ds → node G !! patent_node_id f = None) →
  for_loop (classify_document encode cosine_similarity argsort l) (G, pe) ds
  = Return (G', pe') →
  (∀ f, f ∈ keys ds → node G' !! patent_node_id f = Some (patent_attrs f))
  ∧ (∀ m, (∀ f, f ∈ keys ds → m ≠ patent_node_id f) → node G' !! m = node G !! m).
Proof.
  induction ds as [|[f text] ds IH]; intros G pe G' pe' Hwf Hsdg Hnew Hrun.
  - simpl in Hrun. injection Hrun as <- <-.
    split; [by intros f ?%elem_of_nil|done].
  - rewrite for_loop_cons in Hrun.
    unfold dict_wf, keys in Hwf. simpl in Hwf.
    apply NoDup_cons in Hwf as [Hf Hwf].
    destruct (classify_document encode cosine_similarity argsort l (G, pe) (f, text))
      as [[G1 pe1]|e] eqn:Hstep; [|done].
    rewrite bind_Return in Hrun.
    assert (Hn1 : node G1 = <[patent_node_id f := patent_attrs f]> (node G)).
    { unfold classify_document in Hstep.
      rewrite (similarities_scores encode cosine_similarity l ids_apart taxonomy_nonempty)
        in Hstep.
      rewrite bind_Return in Hstep.
      destruct (for_loop _ G _) as [G1'|e] eqn:Hloop; [|done].
      simpl in Hstep. injection Hstep as <- <-.
      assert (Htop : top_indices argsort
                       (document_scores encode cosine_similarity l text) ≠ []).
      { intros Hnil. apply (f_equal length) in Hnil.
        rewrite (top_indices_length argsort argsort_ok) in Hnil.
        rewrite document_scores_length in Hnil.
        destruct l; [done|]. simpl in Hnil. lia. }
      rewrite (attach_loop_node _ f _ G G1' Hsdg Htop Hloop).
      rewrite (Hnew f) by (unfold keys; simpl; left). simpl.
      by rewrite (right_id_L ∅ (∪)). }
    destruct (IH G1 pe1 G' pe' Hwf) as [Hin Hout]; [| |done|].
    + intros s Hs. rewrite Hn1, lookup_insert.
      case_decide; [by eexists|by apply Hsdg].
    + intros f' Hf'. rewrite Hn1, lookup_insert_ne.
      * apply Hnew. unfold keys. simpl. by right.
      * intros Heq%patent_node_id_inj. by subst.
    + split.
      * intros f' Hf'. unfold keys in Hf'. simpl in Hf'.
        destruct (decide (f' ∈ keys ds)) as [Hd|Hd]; [by apply Hin|].
        apply elem_of_cons in Hf' as [->|Hf']; [|done].
        rewrite Hout, Hn1; [apply lookup_insert_eq|].
        intros f' Hf' Heq%patent_node_id_inj. by subst.
      * intros m Hm. rewrite Hout, Hn1.
        -- rewrite lookup_insert_ne; [done|].
           intros Heq. apply (Hm f); [|done]. unfold keys. simpl. left.
        -- intros f' Hf'. apply Hm. unfold keys. simpl. by right.
Qed.
End NodeAttributes.

(** X9. After the classification loop every document of the batch is a
    node labelled with its file name and typed "patent", and no other node
    has been created or has had its attributes changed: the taxonomy nodes
    keep their label and description. *)
Theorem documents_become_labelled_patent_nodes
    (encode : string → vec) (cosine_similarity : vec → vec → Q)
    (argsort : list Q → list nat) (l : list SDGNode)
    (text_data : dict string string) :
  argsort_contract argsort →
  l ≠ [] →
  NoDup (sdg_id <$> l) →
  (∀ sdg f, sdg ∈ l → sdg_id sdg ≠ patent_node_id f) →
  dict_wf text_data →
  ∃ G' pe,
    classify_documents encode cosine_similarity argsort l (build_sdg_graph l) text_data
    = Return (G', pe)
    ∧ (∀ f, f ∈ keys text_data →
         Nx.node G' !! patent_node_id f = Some {[ "label" := f; "type" := "patent" ]})
    ∧ (∀ m, (∀ f, f ∈ keys text_data → m ≠ patent_node_id f) →
         Nx.node G' !! m = Nx.node (build_sdg_graph l) !! m).
Proof.
  intros Hsort Hne Hids Hapart Hwf.
  destruct (classify_documents_returns encode cosine_similarity argsort l text_data
              Hsort Hne Hapart Hwf) as (G' & pe & Hrun).
  exists G', pe. split; [done|].
  destruct (build_fold_nodes l Nx.empty Hids) as [Hin Hout].
  { intros s _. apply lookup_empty. }
  fold (build_sdg_graph l) in Hin, Hout.
  apply (classify_loop_node encode cosine_similarity argsort Hsort l Hapart Hne
           text_data (build_sdg_graph l) [] G' pe Hwf); [| |exact Hrun].
  - intros s Hs. rewrite (Hin s Hs). by eexists.
  - intros f _. rewrite Hout; [apply lookup_empty|].
    intros (s & Heq & Hs)%list_elem_of_fmap. by eapply Hapart.
Qed.

Lemma documents_become_labelled_patent_nodes_witness :
  ∃ G' pe,
    classify_documents unit_encoder abc_similarity stable_argsort sdgs
      (build_sdg_graph sdgs) one_text
    = Return (G', pe)
    ∧ (∀ f, f ∈ keys one_text →
         Nx.node G' !! patent_node_id f = Some {[ "label" := f; "type" := "patent" ]})
    ∧ (∀ m, (∀ f, f ∈ keys one_text → m ≠ patent_node_id f) →
         Nx.node G' !! m = Nx.node (build_sdg_graph sdgs) !! m).
Proof.
  apply (documents_become_labelled_patent_nodes unit_encoder abc_similarity
           stable_argsort sdgs one_text).
  - exact stable_argsort_contract.
  - done.
  - exact sdgs_ids_NoDup.
  - exact sdgs_ids_apart.
  - apply (bool_decide_unpack _). vm_compute. exact I.
Defined.

(** ** The opportunity loop *)

Lemma opportunity_id_not_patent n f : opportunity_id n ≠ patent_node_id f.
Proof. unfold opportunity_id, patent_node_id. simpl. discriminate. Qed.

Lemma mapM_subscript_texts (d : dict string string) (ks : list string) :
  Forall (fun k => k ∈ keys d) ks →
  mapM (subscript d) ks = Return ((fun k => default EmptyString (get d k)) <$> ks).
Proof.
  induction ks as [|k ks IH]; intros Hks; [done|].
  apply Forall_cons in Hks as [Hk Hks]. simpl.
  destruct (get_is_Some d k Hk) as [v Hv].
  rewrite (subscript_Return d k v Hv). simpl.
  rewrite IH by done. simpl. by rewrite Hv.
Qed.

Lemma enumerate1_imap {A B} (f : nat → A → B) (xs : list A) : ∀ k,
  zip (seq (S k) (length (imap (fun i => f (k + i)) xs))) (imap (fun i => f (k + i)) xs)
  = imap (fun i x => (S (k + i), f (k + i) x)) xs.
Proof.
  induction xs as [|x xs IH]; intros k; [done|]. simpl.
  rewrite Nat.add_0_r. f_equal.
  rewrite (imap_ext ((fun i => f (k + i)) ∘ S) (fun i => f (S k + i)) xs)
    by (intros i y _; simpl; by rewrite Nat.add_succ_r).
  rewrite (imap_ext ((fun i y => (S (k + i), f (k + i) y)) ∘ S)
             (fun i y => (S (S k + i), f (S k + i) y)) xs)
    by (intros i y _; simpl; by rewrite Nat.add_succ_r).
  apply IH.
Qed.

Section OpportunityFacts.
Import Nx NxFacts.

Lemma node_add_edge_present G u v w :
  is_Some (node G !! u) → is_Some (node G !! v) →
  node (add_edge G u v w) = node G.
Proof.
  intros Hu Hv. unfold add_edge. simpl.
  rewrite node_touch_present; rewrite node_touch_present; done.
Qed.

(** The inner loop: the members are joined to the cluster's node. *)
Lemma join_members id ms : ∀ G,
  wf G →
  let G' := foldl (fun G pid => add_edge G (patent_node_id pid) id 1%Q) G ms in
  wf G'
  ∧ (∀ pid, pid ∈ ms → edge_weight G' (patent_node_id pid) id = Some 1%Q)
  ∧ (∀ x y, edge_weight G x y = Some 1%Q → edge_weight G' x y = Some 1%Q)
  ∧ (∀ x y,
       ¬ (∃ pid, pid ∈ ms ∧ ((x = patent_node_id pid ∧ y = id)
                             ∨ (x = id ∧ y = patent_node_id pid))) →
       edge_weight G' x y = edge_weight G x y)
  ∧ ((∀ pid, pid ∈ ms → is_Some (node G !! patent_node_id pid)) →
     is_Some (node G !! id) → node G' = node G).
Proof.
  induction ms as [|m ms IH]; intros G Hwf; simpl.
  { split_and!; [done| |done..]. by intros pid ?%elem_of_nil. }
  set (G1 := add_edge G (patent_node_id m) id 1%Q).
  assert (Hwf1 : wf G1) by by apply wf_add_edge.
  assert (Hone : ∀ x y, edge_weight G x y = Some 1%Q → edge_weight G1 x y = Some 1%Q).
  { intros x y Hxy. unfold G1. rewrite edge_weight_add_edge by done.
    by case_decide. }
  destruct (IH G1 Hwf1) as (Hwf' & Hin & Hmono & Hout & Hnode).
  split_and!; [done| | | |].
  - intros pid [->|Hpid]%elem_of_cons; [|by apply Hin].
    apply Hmono. unfold G1. rewrite edge_weight_add_edge by done.
    rewrite decide_True; [done|by left].
  - intros x y Hxy. by apply Hmono, Hone.
  - intros x y Hno. rewrite Hout.
    + unfold G1. rewrite edge_weight_add_edge by done.
      rewrite decide_False; [done|]. intros Hc. apply Hno. exists m.
      split; [left|done].
    + intros (pid & Hpid & Hc). apply Hno. exists pid. split; [by right|done].
  - intros Hms Hid.
    assert (Hn1 : node G1 = node G).
    { apply node_add_edge_present; [apply Hms; left|done]. }
    rewrite Hnode, Hn1; [done| |by rewrite Hn1].
    intros pid Hpid. rewrite Hn1. apply Hms. by right.
Qed.

Variable describe_opportunity : list string → result string.
Variable text_data : dict string string.
Variable opp_links : dict string (gset string).

Local Abbreviation body := (attach_opportunity describe_opportunity text_data opp_links).

(** What the loop needs of an enumerated node to get past the subscripts. *)
Local Abbreviation listed p g :=
  (opp_id p.2 = opportunity_id p.1
   ∧ get opp_links (opportunity_id p.1) = Some g
   ∧ ∀ pid, pid ∈ g → pid ∈ keys text_data).

Local Abbreviation renamed_node p :=
  {| opp_id := opportunity_id p.1;
     opp_label := "Opportunity_" +:+ pretty p.1;
     opp_embedding := opp_embedding p.2 |}.

Lemma attach_opportunity_step G renamed (p : nat * OpportunityNode) g :
  listed p g →
  body (G, renamed) p
  = describe_opportunity (member_texts text_data g) ≫= fun _ =>
    Return (foldl (fun G pid => add_edge G (patent_node_id pid) (opportunity_id p.1) 1%Q)
                  (add_node G (opportunity_id p.1) (opportunity_attrs p.1))
                  (elements g),
            renamed ++ [renamed_node p]).
Proof.
  intros (Hid & Hget & Hkeys). unfold attach_opportunity. simpl.
  rewrite Hid, (subscript_Return _ _ _ Hget), bind_Return.
  rewrite mapM_subscript_texts, bind_Return.
  - fold (opportunity_id p.1). by rewrite (subscript_Return _ _ _ Hget).
  - apply Forall_forall. intros k Hk. apply Hkeys. by apply elem_of_elements.
Qed.

Lemma attach_opportunities_returns_inv ps : ∀ st st',
  Forall (fun p => ∃ g, listed p g) ps →
  for_loop body st ps = Return st' →
  ∀ p g, p ∈ ps → get opp_links (opportunity_id p.1) = Some g →
    ∃ s, describe_opportunity (member_texts text_data g) = Return s.
Proof.
  induction ps as [|p0 ps IH]; intros [G renamed] st' Hps Hrun p g Hp Hg.
  { by apply elem_of_nil in Hp. }
  apply Forall_cons in Hps as [(g0 & Hl0) Hps].
  rewrite for_loop_cons, (attach_opportunity_step G renamed p0 g0 Hl0) in Hrun.
  destruct (describe_opportunity (member_texts text_data g0)) as [s|e] eqn:Hd; [|done].
  rewrite !bind_Return in Hrun.
  apply elem_of_cons in Hp as [->|Hp].
  - destruct Hl0 as (_ & Hg0 & _). rewrite Hg0 in Hg. injection Hg as <-. by exists s.
  - by eapply IH.
Qed.

Local Abbreviation described p :=
  (∃ g s, listed p g ∧ describe_opportunity (member_texts text_data g) = Return s).

Lemma attach_opportunities_returns ps : ∀ st,
  Forall (fun p => described p) ps →
  ∃ st', for_loop body st ps = Return st'.
Proof.
  induction ps as [|p0 ps IH]; intros [G renamed] Hps; [by eexists|].
  apply Forall_cons in Hps as [(g0 & s0 & Hl0 & Hd0) Hps].
  rewrite for_loop_cons, (attach_opportunity_step G renamed p0 g0 Hl0), Hd0.
  rewrite !bind_Return. by apply IH.
Qed.

Lemma attach_opportunities_spec ps : ∀ G renamed,
  wf G →
  (∀ pid, pid ∈ keys text_data → is_Some (node G !! patent_node_id pid)) →
  Forall (fun p => described p) ps →
  ∃ G', for_loop body (G, renamed) ps
        = Return (G', renamed ++ ((fun p => renamed_node p) <$> ps))
    ∧ wf G'
    ∧ (∀ p g pid, p ∈ ps → get opp_links (opportunity_id p.1) = Some g → pid ∈ g →
         edge_weight G' (patent_node_id pid) (opportunity_id p.1) = Some 1%Q)
    ∧ (∀ x y, edge_weight G x y = Some 1%Q → edge_weight G' x y = Some 1%Q)
    ∧ (∀ x y,
         ¬ (∃ p g pid, p ∈ ps ∧ get opp_links (opportunity_id p.1) = Some g ∧ pid ∈ g
                       ∧ ((x = patent_node_id pid ∧ y = opportunity_id p.1)
                          ∨ (x = opportunity_id p.1 ∧ y = patent_node_id pid))) →
         edge_weight G' x y = edge_weight G x y)
    ∧ (∀ i, node G !! opportunity_id i = None
            ∨ node G !! opportunity_id i = Some (opportunity_attrs i) →
         (node G !! opportunity_id i = Some (opportunity_attrs i) →
          node G' !! opportunity_id i = Some (opportunity_attrs i))
         ∧ (i ∈ ps.*1 → node G' !! opportunity_id i = Some (opportunity_attrs i))).
Proof.
  induction ps as [|p0 ps IH]; intros G renamed Hwf Hpat Hps.
  { exists G. simpl. rewrite app_nil_r. split_and!; [done..| | |done|].
    - by intros p g pid ?%elem_of_nil.
    - done.
    - intros i Hi. split; [done|]. by intros ?%elem_of_nil. }
  apply Forall_cons in Hps as [(g0 & s0 & Hl0 & Hd0) Hps].
  rewrite for_loop_cons, (attach_opportunity_step G renamed p0 g0 Hl0), Hd0.
  rewrite !bind_Return.
  set (id0 := opportunity_id p0.1).
  set (G0 := add_node G id0 (opportunity_attrs p0.1)).
  assert (Hwf0 : wf G0) by by apply wf_add_node.
  assert (Hn0 : node G0 = <[id0 := opportunity_attrs p0.1 ∪ default ∅ (node G !! id0)]> (node G)).
  { apply node_add_node. }
  destruct (join_members id0 (elements g0) G0 Hwf0) as (Hwf1 & Hin1 & Hmono1 & Hout1 & Hnode1).
  set (G1 := foldl (fun G pid => add_edge G (patent_node_id pid) id0 1%Q) G0 (elements g0))
    in *.
  assert (Hn1 : node G1 = node G0).
  { apply Hnode1.
    - intros pid Hpid%elem_of_elements. rewrite Hn0, lookup_insert_ne.
      + apply Hpat. by apply Hl0.
      + apply opportunity_id_not_patent.
    - rewrite Hn0, lookup_insert_eq. by eexists. }
  destruct (IH G1 (renamed ++ [renamed_node p0]) Hwf1) as
    (G' & Hrun & Hwf' & Hin & Hmono & Hout & Hnode); [|done|].
  { intros pid Hpid. rewrite Hn1, Hn0, lookup_insert_ne.
    - by apply Hpat.
    - apply opportunity_id_not_patent. }
  exists G'. split_and!; [|done| | | |].
  - rewrite <-app_assoc in Hrun. exact Hrun.
  - intros p g pid [->|Hp]%elem_of_cons Hg Hpid; [|by eapply Hin].
    apply Hmono. destruct Hl0 as (_ & Hg0 & _). rewrite Hg0 in Hg.
    injection Hg as <-. apply Hin1. by apply elem_of_elements.
  - intros x y Hxy. apply Hmono, Hmono1.
    unfold G0. by rewrite edge_weight_add_node.
  - intros x y Hno. rewrite Hout.
    + rewrite Hout1; [unfold G0; by rewrite edge_weight_add_node|].
      intros (pid & Hpid%elem_of_elements & Hc). apply Hno.
      exists p0, g0, pid. split_and!; [left|apply Hl0|done|done].
    + intros (p & g & pid & Hp & Hc). apply Hno. exists p, g, pid.
      split; [by right|done].
  - intros i Hi.
    assert (Hi1 : (node G1 !! opportunity_id i = None
                   ∨ node G1 !! opportunity_id i = Some (opportunity_attrs i))
                  ∧ (node G !! opportunity_id i = Some (opportunity_attrs i) →
                     node G1 !! opportunity_id i = Some (opportunity_attrs i))
                  ∧ (i = p0.1 → node G1 !! opportunity_id i = Some (opportunity_attrs i))).
    { rewrite Hn1, Hn0. destruct (decide (i = p0.1)) as [->|Hne].
      - fold id0. rewrite lookup_insert_eq.
        assert (opportunity_attrs p0.1 ∪ default ∅ (node G !! id0)
                = opportunity_attrs p0.1) as ->; [|by split_and!; [right|..]].
        unfold id0. destruct Hi as [-> | ->]; simpl.
        + by rewrite (right_id_L ∅ (∪)).
        + by rewrite (idemp_L (∪)).
      - rewrite lookup_insert_ne.
        + split_and!; [done..|]. by intros ->.
        + unfold id0. by intros Heq%opportunity_id_inj. }
    destruct Hi1 as (Hi1 & Hkeep & Hi0). destruct (Hnode i Hi1) as [Hc Hs].
    split.
    + intros HG. by apply Hc, Hkeep.
    + simpl. intros [->|Hi']%elem_of_cons; [|by apply Hs].
      by apply Hc, Hi0.
Qed.
End OpportunityFacts.

(** The engine's nodes as the loop enumerates them, and what the loop needs
    of each. *)
Section EngineOpportunities.
Variable cosine_similarity : vec → vec → Q.
Variable threshold : Q.
Variable d : dict string vec.
Variable text_data : dict string string.
Hypothesis d_wf : dict_wf d.
Hypothesis same_keys : keys text_data = keys d.

Local Abbreviation groups := (accepted cosine_similarity threshold d).
Local Abbreviation nodes := (imap (fun i g => opportunity_node d (S i) g) groups).
Local Abbreviation conns :=
  (imap (fun i (g : gset string) => (opportunity_id (S i), g)) groups).
Local Abbreviation enumerated :=
  (imap (fun i g => (S i, opportunity_node d (S i) g)) groups).

Lemma enumerate1_nodes : enumerate1 nodes = enumerated.
Proof.
  unfold enumerate1.
  exact (enumerate1_imap (fun i g => opportunity_node d (S i) g) groups 0).
Qed.

Lemma enumerated_elem_of p :
  p ∈ enumerated ↔ ∃ i g, groups !! i = Some g ∧ p = (S i, opportunity_node d (S i) g).
Proof.
  rewrite list_elem_of_lookup. split.
  - intros [i Hi]. rewrite list_lookup_imap in Hi.
    destruct (groups !! i) as [g|] eqn:Hg; [|done].
    simpl in Hi. injection Hi as <-. by exists i, g.
  - intros (i & g & Hg & ->). exists i. by rewrite list_lookup_imap, Hg.
Qed.

Lemma enumerated_listed p :
  p ∈ enumerated →
  ∃ g, g ∈ groups
       ∧ opp_id p.2 = opportunity_id p.1
       ∧ get conns (opportunity_id p.1) = Some g
       ∧ ∀ pid, pid ∈ g → pid ∈ keys text_data.
Proof.
  intros (i & g & Hg & ->)%enumerated_elem_of. exists g.
  assert (Hin : g ∈ groups) by by eapply list_elem_of_lookup_2.
  split_and!; [done|done| |].
  - by apply connections_get.
  - intros pid Hpid. rewrite same_keys. by eapply accepted_keys.
Qed.
End EngineOpportunities.

(** X10. The opportunity loop of the handler, run on the engine's output,
    returns exactly when the narrative generator returns on the texts of
    every cluster: the subscripts of the loop never raise. *)
Theorem opportunity_loop_returns_iff_every_narrative_does
    (cosine_similarity : vec → vec → Q) (threshold : Q)
    (describe_opportunity : list string → result string)
    (d : dict string vec) (text_data : dict string string) (G : Nx.Graph) :
  dict_wf d → keys text_data = keys d →
  ∃ nodes conns,
    generate_shared_opportunity_nodes cosine_similarity d threshold
    = Return (nodes, conns)
    ∧ ((∃ G' renamed,
          attach_opportunities describe_opportunity text_data nodes conns G
          = Return (G', renamed))
       ↔ ∀ g, g ∈ values conns →
           ∃ s, describe_opportunity (member_texts text_data g) = Return s).
Proof.
  intros Hwf Hkeys. eexists _, _. split; [by apply generate_spec|].
  unfold attach_opportunities. rewrite enumerate1_nodes, connections_values.
  split.
  - intros (G' & renamed & Hrun) g Hg.
    apply list_elem_of_lookup in Hg as [i Hi].
    eapply (attach_opportunities_returns_inv describe_opportunity text_data _ _ _ _ _ Hrun
              (S i, opportunity_node d (S i) g) g).
    + apply enumerated_elem_of. by exists i, g.
    + by apply connections_get.
  - intros Hall.
    destruct (attach_opportunities_returns describe_opportunity text_data
                (imap (fun i (g : gset string) => (opportunity_id (S i), g))
                      (accepted cosine_similarity threshold d))
                (imap (fun i g => (S i, opportunity_node d (S i) g))
                      (accepted cosine_similarity threshold d)) (G, []))
      as [[G' renamed] Hrun]; [|by exists G', renamed].
    apply Forall_forall. intros p Hp.
    destruct (enumerated_listed cosine_similarity threshold d text_data Hwf Hkeys p Hp)
      as (g & Hg & Hl).
    destruct (Hall g Hg) as [s Hs]. by exists g, s.
  Unshelve.
  apply Forall_forall. intros p Hp.
  destruct (enumerated_listed cosine_similarity threshold d text_data Hwf Hkeys p Hp)
    as (g' & _ & Hl). by exists g'.
Qed.

Lemma opportunity_loop_returns_iff_every_narrative_does_witness :
  ∃ nodes conns,
    generate_shared_opportunity_nodes abc_similarity abc_embeddings 0.35
    = Return (nodes, conns)
    ∧ ((∃ G' renamed,
          attach_opportunities constant_narrative abc_texts nodes conns abc_documents
          = Return (G', renamed))
       ↔ ∀ g, g ∈ values conns →
           ∃ s, constant_narrative (member_texts abc_texts g) = Return s).
Proof.
  apply (opportunity_loop_returns_iff_every_narrative_does abc_similarity 0.35
           constant_narrative abc_embeddings abc_texts abc_documents).
  - exact abc_embeddings_wf.
  - reflexivity.
Defined.

Lemma abc_documents_wf : Nx.wf abc_documents.
Proof.
  unfold abc_documents. cbn [foldl].
  do 3 apply NxFacts.wf_add_node. apply NxFacts.wf_empty.
Qed.

Lemma abc_documents_nodes m :
  Nx.node abc_documents !! m
  = if decide (m ∈ patent_node_id <$> ["A"; "B"; "C"])
    then Nx.node abc_documents !! m else None.
Proof.
  case_decide as Hm; [done|].
  unfold abc_documents. cbn [foldl]. rewrite !node_add_node.
  rewrite !lookup_insert_ne; [apply lookup_empty|..];
    intros <-; apply Hm; set_solver.
Qed.

(** X11. When the narrative generator returns on the texts of every
    cluster, the opportunity loop run on the engine's output returns a graph
    in which the [i]-th cluster is a node labelled "Opportunity_<i+1>" of
    type "opportunity", joined with weight 1 to the documents of the
    cluster and to no other document; edges between other nodes are as
    before, and reassigning the ids leaves them as the engine numbered
    them. *)
Theorem opportunity_loop_joins_members_to_their_cluster
    (cosine_similarity : vec → vec → Q) (threshold : Q)
    (describe_opportunity : list string → result string)
    (d : dict string vec) (text_data : dict string string) (G : Nx.Graph) :
  dict_wf d → keys text_data = keys d → Nx.wf G →
  (∀ f, f ∈ keys d → is_Some (Nx.node G !! patent_node_id f)) →
  (∀ n, Nx.node G !! opportunity_id n = None) →
  (∀ g, g ∈ accepted cosine_similarity threshold d →
        ∃ s, describe_opportunity (member_texts text_data g) = Return s) →
  ∃ nodes conns G' renamed,
    generate_shared_opportunity_nodes cosine_similarity d threshold
    = Return (nodes, conns)
    ∧ attach_opportunities describe_opportunity text_data nodes conns G
      = Return (G', renamed)
    ∧ Nx.wf G'
    ∧ opp_id <$> renamed = opp_id <$> nodes
    ∧ (∀ i k g, conns !! i = Some (k, g) →
         Nx.node G' !! k = Some (opportunity_attrs (S i))
         ∧ ∀ f, Nx.edge_weight G' (patent_node_id f) k
                = if decide (f ∈ g) then Some 1%Q else None)
    ∧ (∀ x y, (∀ n, x ≠ opportunity_id n) → (∀ n, y ≠ opportunity_id n) →
         Nx.edge_weight G' x y = Nx.edge_weight G x y).
Proof.
  intros Hwf Hkeys HwfG Hpat Hnone Hdesc.
  set (groups := accepted cosine_similarity threshold d).
  set (conns := imap (fun i (g : gset string) => (opportunity_id (S i), g)) groups).
  set (ps := imap (fun i g => (S i, opportunity_node d (S i) g)) groups).
  assert (Hlisted := enumerated_listed cosine_similarity threshold d text_data Hwf Hkeys).
  fold groups conns ps in Hlisted.
  destruct (attach_opportunities_spec describe_opportunity text_data conns ps G []
              HwfG) as (G' & Hrun & Hwf' & Hin & _ & Hout & Hnode).
  { intros pid Hpid. apply Hpat. by rewrite <-Hkeys. }
  { apply Forall_forall. intros p Hp.
    destruct (Hlisted p Hp) as (g & Hg & Hl).
    destruct (Hdesc g Hg) as [s Hs]. by exists g, s. }
  exists (imap (fun i g => opportunity_node d (S i) g) groups), conns, G',
         ((fun p : nat * OpportunityNode =>
             {| opp_id := opportunity_id p.1;
                opp_label := "Opportunity_" +:+ pretty p.1;
                opp_embedding := opp_embedding p.2 |}) <$> ps).
  split_and!.
  - by apply generate_spec.
  - unfold attach_opportunities.
    replace (enumerate1 _) with ps; [exact Hrun|].
    symmetry. apply (enumerate1_nodes cosine_similarity threshold d).
  - done.
  - unfold ps. apply list_eq. intros i.
    rewrite !list_lookup_fmap, !list_lookup_imap.
    by destruct (groups !! i).
  - intros i k g Hi. unfold conns in Hi. rewrite list_lookup_imap in Hi.
    destruct (groups !! i) as [g'|] eqn:Hg; [|done].
    simpl in Hi. injection Hi as <- <-.
    assert (Hp : (S i, opportunity_node d (S i) g') ∈ ps).
    { apply (enumerated_elem_of cosine_similarity threshold d). by exists i, g'. }
    assert (Hget : get conns (opportunity_id (S i)) = Some g').
    { by apply connections_get. }
    split.
    + apply (Hnode (S i)); [left; apply Hnone|].
      apply list_elem_of_fmap. by exists (S i, opportunity_node d (S i) g').
    + intros f. case_decide as Hf.
      * by apply (Hin (S i, opportunity_node d (S i) g') g' f).
      * rewrite Hout.
        -- destruct HwfG as [Hdom Hsym]. rewrite Hsym.
           unfold Nx.edge_weight. by rewrite (Hdom _ (Hnone (S i))).
        -- intros (p & g & pid & Hp' & Hg' & Hpid & [[Hx Hy]|[Hx Hy]]).
           ++ apply patent_node_id_inj in Hx as <-.
              rewrite <-Hy, Hget in Hg'. by injection Hg' as <-.
           ++ by eapply opportunity_id_not_patent.
  - intros x y Hx Hy. apply Hout.
    intros (p & g & pid & _ & _ & _ & [[_ Hc]|[Hc _]]).
    + by eapply Hy.
    + by eapply Hx.
Qed.

Lemma opportunity_loop_joins_members_to_their_cluster_witness :
  ∃ nodes conns G' renamed,
    generate_shared_opportunity_nodes abc_similarity abc_embeddings 0.35
    = Return (nodes, conns)
    ∧ attach_opportunities plain_narrative abc_texts nodes conns abc_documents
      = Return (G', renamed)
    ∧ Nx.wf G'
    ∧ opp_id <$> renamed = opp_id <$> nodes
    ∧ (∀ i k g, conns !! i = Some (k, g) →
         Nx.node G' !! k = Some (opportunity_attrs (S i))
         ∧ ∀ f, Nx.edge_weight G' (patent_node_id f) k
                = if decide (f ∈ g) then Some 1%Q else None)
    ∧ (∀ x y, (∀ n, x ≠ opportunity_id n) → (∀ n, y ≠ opportunity_id n) →
         Nx.edge_weight G' x y = Nx.edge_weight abc_documents x y).
Proof.
  apply (opportunity_loop_joins_members_to_their_cluster abc_similarity 0.35
           plain_narrative abc_embeddings abc_texts abc_documents).
  - exact abc_embeddings_wf.
  - reflexivity.
  - exact abc_documents_wf.
  - intros f Hf. rewrite abc_documents_nodes.
    rewrite decide_True by (by apply list_elem_of_fmap_2).
    simpl in Hf.
    repeat (apply elem_of_cons in Hf as [->|Hf]; [vm_compute; by eexists|]).
    by apply elem_of_nil in Hf.
  - intros n. rewrite abc_documents_nodes. rewrite decide_False; [done|].
    intros (f & Heq & _)%list_elem_of_fmap. by eapply opportunity_id_not_patent.
  - intros g Hg.
    assert (Hacc : accepted abc_similarity 0.35 abc_embeddings
                   = [{["A"; "B"]}; {["B"; "C"]}]) by (vm_compute; reflexivity).
    rewrite Hacc in Hg.
    repeat (apply elem_of_cons in Hg as [->|Hg]; [eexists; vm_compute; reflexivity|]).
    by apply elem_of_nil in Hg.
Defined.

(** ** Keyword extraction *)

Lemma string_app_assoc (s1 s2 s3 : string) : (s1 +:+ s2) +:+ s3 = s1 +:+ s2 +:+ s3.
Proof.
  induction s1 as [|c s1 IH]; [done|].
  change (String c ((s1 +:+ s2) +:+ s3) = String c (s1 +:+ s2 +:+ s3)).
  by f_equal.
Qed.

Section SortedDesc.
Context {A : Type} (key : A → Q).

Local Abbreviation descending := (StronglySorted (fun a b => (key b <= key a)%Q)).

Lemma insert_desc_Permutation x xs : insert_desc key x xs ≡ₚ x :: xs.
Proof.
  induction xs as [|y r IH]; simpl; [done|].
  destruct (Qge_bool (key x) (key y)); [done|].
  rewrite IH. apply Permutation_swap.
Qed.

Lemma sorted_desc_Permutation xs : sorted_desc key xs ≡ₚ xs.
Proof.
  unfold sorted_desc. induction xs as [|x xs IH]; simpl; [done|].
  by rewrite insert_desc_Permutation, IH.
Qed.

Lemma insert_desc_descending x xs : descending xs → descending (insert_desc key x xs).
Proof.
  induction xs as [|y r IH]; simpl; intros Hs.
  - apply StronglySorted_cons. split; [done|constructor].
  - apply StronglySorted_cons in Hs as [Hy Hr].
    destruct (Qge_bool (key x) (key y)) eqn:Hxy.
    + apply Qle_bool_iff in Hxy.
      apply StronglySorted_cons. split.
      * apply Forall_cons. split; [done|].
        eapply Forall_impl; [done|]. simpl. intros z Hz. by eapply Qle_trans.
      * by apply StronglySorted_cons.
    + assert (Hlt : (key x <= key y)%Q).
      { apply Qlt_le_weak, Qnot_le_lt. intros Hle%Qle_bool_iff.
        unfold Qge_bool in Hxy. congruence. }
      apply StronglySorted_cons. split; [|by apply IH].
      rewrite insert_desc_Permutation. by apply Forall_cons.
Qed.

Lemma sorted_desc_descending xs : descending (sorted_desc key xs).
Proof.
  unfold sorted_desc. induction xs as [|x xs IH]; simpl; [constructor|].
  by apply insert_desc_descending.
Qed.
End SortedDesc.

Lemma StronglySorted_sublist {A} (R : relation A) l1 l2 :
  l1 `sublist_of` l2 → StronglySorted R l2 → StronglySorted R l1.
Proof.
  induction 1 as [|x l1 l2 Hsub IH|x l1 l2 Hsub IH]; intros Hs; [done|..].
  - apply StronglySorted_cons in Hs as [Hx Hs].
    apply StronglySorted_cons. split; [|by apply IH].
    apply Forall_forall. intros y Hy. rewrite Forall_forall in Hx.
    apply Hx. by eapply elem_of_sublist.
  - apply StronglySorted_cons in Hs as [_ Hs]. by apply IH.
Qed.

Lemma StronglySorted_lookup {A} (R : relation A) l i j x y :
  StronglySorted R l → i < j → l !! i = Some x → l !! j = Some y → R x y.
Proof.
  intros Hs Hij Hi Hj.
  rewrite <-(take_drop j l) in Hs.
  eapply StronglySorted_app_1_elem_of; [done| |].
  - eapply list_elem_of_lookup_2. by rewrite lookup_take_lt.
  - eapply list_elem_of_lookup_2. rewrite lookup_drop, Nat.add_0_r. done.
Qed.

(** Sorting the decorated features is decorating the sorted features. *)
Lemma sorted_desc_decorate (g : string → Q) (fs : list string) :
  map fst (sorted_desc snd (map (fun f => (f, g f)) fs)) = sorted_desc g fs.
Proof.
  assert (Hins : ∀ x xs,
            map fst (insert_desc snd (x, g x) (map (fun f => (f, g f)) xs))
            = insert_desc g x xs).
  { intros x xs. induction xs as [|y r IH]; simpl; [done|].
    destruct (Qge_bool (g x) (g y)); simpl.
    - f_equal. f_equal. clear. induction r; simpl; [done|]. by f_equal.
    - by rewrite IH. }
  unfold sorted_desc. induction fs as [|f fs IH]; simpl; [done|].
  assert (Hdec : ∀ l : list (string * Q),
            Forall (fun p => p.2 = g p.1) l → l = map (fun f => (f, g f)) (map fst l)).
  { induction l as [|[a b] l IHl]; intros Hl; simpl; [done|].
    apply Forall_cons in Hl as [Hab Hl]. simpl in Hab. subst. by rewrite <-IHl. }
  rewrite (Hdec (foldr (insert_desc snd) [] (map (fun f => (f, g f)) fs))).
  - by rewrite Hins, IH.
  - apply Forall_forall. intros p Hp.
    assert (Hperm := sorted_desc_Permutation snd (map (fun f => (f, g f)) fs)).
    unfold sorted_desc in Hperm. rewrite Hperm in Hp.
    apply list_elem_of_In, in_map_iff in Hp as (f' & <- & _). done.
Qed.

Section KeywordFacts.
Variable isalpha : string → bool.
Variable analyze : string → list string.
Variable select_features : list string → list string → list string.
Variable tfidf_column_sum : list string → string → Q.

Local Abbreviation passes :=
  (fun kw => bool_decide (kw ∉ stopwords) && (3 <? String.length kw) && isalpha kw = true).

Lemma passes_keyword_ok kw : passes kw ↔ keyword_ok isalpha kw.
Proof.
  unfold keyword_ok. rewrite !andb_true_iff, bool_decide_eq_true, Nat.ltb_lt.
  naive_solver.
Qed.

(** The keywords are the first [max_keywords] of the features that pass
    the filter, in descending order of weight. *)
Lemma extract_keywords_returns texts max_keywords :
  vocabulary analyze texts ≠ [] →
  extract_keywords isalpha analyze select_features tfidf_column_sum texts max_keywords
  = Return (take max_keywords
              (filter passes
                 (sorted_desc (tfidf_column_sum texts)
                    (select_features texts (vocabulary analyze texts))))).
Proof.
  intros Hne. unfold extract_keywords, fit_transform.
  destruct (vocabulary analyze texts) as [|v vs] eqn:Hv; [done|].
  rewrite bind_Return. by rewrite sorted_desc_decorate.
Qed.

Lemma extract_keywords_raises texts max_keywords :
  vocabulary analyze texts = [] →
  extract_keywords isalpha analyze select_features tfidf_column_sum texts max_keywords
  = Raise ValueError.
Proof. intros Hv. unfold extract_keywords, fit_transform. by rewrite Hv. Qed.
End KeywordFacts.

(** X12. Whenever the texts yield a term, keyword extraction returns at
    most [max_keywords] keywords; each is a feature of the vectorizer that
    is no stop word, is longer than three characters and is alphabetic;
    they come in descending order of weight; and a feature that passes the
    filter is left out only when [max_keywords] keywords of at least its
    weight were returned. *)
Theorem keywords_are_the_heaviest_features_that_pass_the_filter
    (isalpha : string → bool) (analyze : string → list string)
    (select_features : list string → list string → list string)
    (tfidf_column_sum : list string → string → Q)
    (texts : list string) (max_keywords : nat) :
  vocabulary analyze texts ≠ [] →
  ∃ ks,
    extract_keywords isalpha analyze select_features tfidf_column_sum texts max_keywords
    = Return ks
    ∧ length ks ≤ max_keywords
    ∧ (∀ k, k ∈ ks →
         k ∈ select_features texts (vocabulary analyze texts) ∧ keyword_ok isalpha k)
    ∧ (∀ i j ki kj, i < j → ks !! i = Some ki → ks !! j = Some kj →
         (tfidf_column_sum texts kj <= tfidf_column_sum texts ki)%Q)
    ∧ (∀ f, f ∈ select_features texts (vocabulary analyze texts) →
         keyword_ok isalpha f → f ∉ ks →
         length ks = max_keywords
         ∧ ∀ k, k ∈ ks → (tfidf_column_sum texts f <= tfidf_column_sum texts k)%Q).
Proof.
  intros Hne. eexists. split; [by apply extract_keywords_returns|].
  set (features := select_features texts (vocabulary analyze texts)).
  set (sorted := sorted_desc (tfidf_column_sum texts) features).
  set (passing := filter _ sorted).
  assert (Hsorted : StronglySorted
                      (fun a b => (tfidf_column_sum texts b <= tfidf_column_sum texts a)%Q)
                      passing).
  { eapply StronglySorted_sublist; [apply sublist_filter|].
    apply sorted_desc_descending. }
  split_and!.
  - rewrite length_take. lia.
  - intros k Hk%elem_of_take. destruct Hk as (i & Hk & _).
    apply list_elem_of_lookup_2, list_elem_of_filter in Hk as [Hp Hk].
    split; [|by apply passes_keyword_ok].
    unfold sorted in Hk. by rewrite sorted_desc_Permutation in Hk.
  - intros i j ki kj Hij Hi Hj.
    apply (StronglySorted_lookup
             (fun a b => (tfidf_column_sum texts b <= tfidf_column_sum texts a)%Q)
             (take max_keywords passing) i j ki kj); [|done..].
    eapply StronglySorted_sublist; [apply sublist_take|done].
  - intros f Hf Hok Hout.
    assert (Hin : f ∈ passing).
    { apply list_elem_of_filter. split; [by apply passes_keyword_ok|].
      unfold sorted. by rewrite sorted_desc_Permutation. }
    rewrite <-(take_drop max_keywords passing) in Hin, Hsorted.
    apply elem_of_app in Hin as [Hin|Hin]; [done|].
    split.
    + rewrite length_take. apply Nat.min_l.
      destruct (decide (max_keywords ≤ length passing)) as [|Hlt]; [done|].
      rewrite drop_ge in Hin by lia. by apply elem_of_nil in Hin.
    + intros k Hk.
      by apply (StronglySorted_app_1_elem_of
                  (fun a b => (tfidf_column_sum texts b <= tfidf_column_sum texts a)%Q)
                  _ _ k f Hsorted).
Qed.

Lemma keywords_are_the_heaviest_features_that_pass_the_filter_witness :
  ∃ ks,
    extract_keywords (always true) word_analyzer all_features unit_weight
      ["water"; "energy"] 1
    = Return ks
    ∧ length ks ≤ 1
    ∧ (∀ k, k ∈ ks →
         k ∈ all_features ["water"; "energy"] (vocabulary word_analyzer ["water"; "energy"])
         ∧ keyword_ok (always true) k)
    ∧ (∀ i j ki kj, i < j → ks !! i = Some ki → ks !! j = Some kj →
         (unit_weight ["water"; "energy"] kj <= unit_weight ["water"; "energy"] ki)%Q)
    ∧ (∀ f, f ∈ all_features ["water"; "energy"]
                  (vocabulary word_analyzer ["water"; "energy"]) →
         keyword_ok (always true) f → f ∉ ks →
         length ks = 1
         ∧ ∀ k, k ∈ ks →
             (unit_weight ["water"; "energy"] f <= unit_weight ["water"; "energy"] k)%Q).
Proof.
  apply (keywords_are_the_heaviest_features_that_pass_the_filter (always true)
           word_analyzer all_features unit_weight ["water"; "energy"] 1).
  vm_compute. discriminate.
Defined.

(** ** Narratives *)

Section NarrativeReturns.
Variable re_sub re_sub_ignorecase : string → string → string → string.
Variable re_split : string → string → list string.
Variable str_replace : string → string → string → string.
Variable str_strip : string → string.
Variable isdigit : ascii → bool.
Variable isalpha : string → bool.
Variable title upper : string → string.
Variable analyze : string → list string.
Variable select_features : list string → list string → list string.
Variable tfidf_column_sum : list string → string → Q.
Variable random_choice : list string → string.

Local Abbreviation cleaned texts :=
  (map (clean_text re_sub re_sub_ignorecase str_replace str_strip) texts).
Local Abbreviation keywords_of texts :=
  (extract_keywords isalpha analyze select_features tfidf_column_sum (cleaned texts) 5).
Local Abbreviation describe_startup' :=
  (describe_startup re_sub re_sub_ignorecase re_split str_replace str_strip
     isdigit isalpha title upper analyze select_features tfidf_column_sum random_choice).
Local Abbreviation opportunity_narrative' :=
  (opportunity_narrative re_sub re_sub_ignorecase re_split str_replace str_strip
     isdigit isalpha title analyze select_features tfidf_column_sum random_choice).

(** Once the keywords are there, the three subscripts of the startup pitch
    are safe: a list shorter than three is padded first. *)
Lemma describe_startup_after_keywords texts ks :
  keywords_of texts = Return ks → ∃ s, describe_startup' texts = Return s.
Proof.
  intros Hks. unfold describe_startup. rewrite Hks, bind_Return.
  destruct ks as [|a [|b [|c r]]]; by eexists.
Qed.

Lemma describe_startup_without_keywords texts e :
  keywords_of texts = Raise e → describe_startup' texts = Raise e.
Proof. intros Hks. unfold describe_startup. by rewrite Hks. Qed.

Lemma opportunity_narrative_after_keywords texts ks :
  keywords_of texts = Return ks →
  opportunity_narrative' texts
  = Return {| narrative_name :=
                match ks with
                | _ :: _ => String.concat " + " (map title (take 2 ks))
                | [] => "Sustainable Opportunity"
                end;
              narrative_description :=
                compose_description random_choice
                  (summarize_text re_split isdigit
                     (String.concat " " (cleaned texts)) 3) ks |}.
Proof. intros Hks. unfold opportunity_narrative. by rewrite Hks. Qed.
End NarrativeReturns.

(** X13. The startup pitch fails only in the vectorizer: it raises
    [ValueError] when the cleaned texts yield no term and returns otherwise;
    its three keyword subscripts never raise [IndexError], since a keyword
    list shorter than three is padded first. *)
Theorem startup_narrative_fails_only_on_an_empty_vocabulary
    (re_sub re_sub_ignorecase : string → string → string → string)
    (re_split : string → string → list string)
    (str_replace : string → string → string → string)
    (str_strip : string → string) (isdigit : ascii → bool)
    (isalpha : string → bool) (title upper : string → string)
    (analyze : string → list string)
    (select_features : list string → list string → list string)
    (tfidf_column_sum : list string → string → Q)
    (random_choice : list string → string) (patent_texts : list string) :
  (vocabulary analyze
     (map (clean_text re_sub re_sub_ignorecase str_replace str_strip) patent_texts) ≠ [] →
   ∃ s, describe_startup re_sub re_sub_ignorecase re_split str_replace str_strip
          isdigit isalpha title upper analyze select_features tfidf_column_sum
          random_choice patent_texts
        = Return s)
  ∧ (vocabulary analyze
       (map (clean_text re_sub re_sub_ignorecase str_replace str_strip) patent_texts) = [] →
     describe_startup re_sub re_sub_ignorecase re_split str_replace str_strip
       isdigit isalpha title upper analyze select_features tfidf_column_sum
       random_choice patent_texts
     = Raise ValueError).
Proof.
  split; intros Hv.
  - eapply describe_startup_after_keywords. by apply extract_keywords_returns.
  - apply describe_startup_without_keywords. by apply extract_keywords_raises.
Qed.

Lemma startup_narrative_fails_only_on_an_empty_vocabulary_witness :
  (∃ s, describe_startup no_match no_match no_split no_match same_string
          never_digit (always true) same_string same_string word_analyzer
          all_features unit_weight first_choice ["water"]
        = Return s)
  ∧ describe_startup no_match no_match no_split no_match same_string
      never_digit (always true) same_string same_string (fun _ => [])
      all_features unit_weight first_choice ["water"]
    = Raise ValueError.
Proof.
  split.
  - apply (startup_narrative_fails_only_on_an_empty_vocabulary no_match no_match
             no_split no_match same_string never_digit (always true) same_string
             same_string word_analyzer all_features unit_weight first_choice ["water"]).
    vm_compute. discriminate.
  - apply (startup_narrative_fails_only_on_an_empty_vocabulary no_match no_match
             no_split no_match same_string never_digit (always true) same_string
             same_string (fun _ => []) all_features unit_weight first_choice ["water"]).
    reflexivity.
Defined.

(** X14. The opportunity narrative raises [ValueError] when the cleaned
    texts yield no term at all.  Its fallback, the name "Sustainable
    Opportunity" with the fixed sentence followed by the summary, is what it
    returns when terms exist but no feature passes the keyword filter. *)
Theorem opportunity_fallback_needs_features_that_all_fail_the_filter
    (re_sub re_sub_ignorecase : string → string → string → string)
    (re_split : string → string → list string)
    (str_replace : string → string → string → string)
    (str_strip : string → string) (isdigit : ascii → bool)
    (isalpha : string → bool) (title : string → string)
    (analyze : string → list string)
    (select_features : list string → list string → list string)
    (tfidf_column_sum : list string → string → Q)
    (random_choice : list string → string) (patent_texts : list string) :
  (vocabulary analyze
     (map (clean_text re_sub re_sub_ignorecase str_replace str_strip) patent_texts) = [] →
   describe_opportunity re_sub re_sub_ignorecase re_split str_replace str_strip
     isdigit isalpha title analyze select_features tfidf_column_sum random_choice
     patent_texts
   = Raise ValueError)
  ∧ (vocabulary analyze
       (map (clean_text re_sub re_sub_ignorecase str_replace str_strip) patent_texts) ≠ [] →
     (∀ f, f ∈ select_features
                 (map (clean_text re_sub re_sub_ignorecase str_replace str_strip)
                      patent_texts)
                 (vocabulary analyze
                    (map (clean_text re_sub re_sub_ignorecase str_replace str_strip)
                         patent_texts)) →
           ¬ keyword_ok isalpha f) →
     describe_opportunity re_sub re_sub_ignorecase re_split str_replace str_strip
       isdigit isalpha title analyze select_features tfidf_column_sum random_choice
       patent_texts
     = Return (render_opportunity
                 {| narrative_name := "Sustainable Opportunity";
                    narrative_description :=
                      fallback_description
                        +:+ summarize_text re_split isdigit
                              (String.concat " "
                                 (map (clean_text re_sub re_sub_ignorecase
                                         str_replace str_strip) patent_texts)) 3 |})).
Proof.
  split.
  - intros Hv. unfold describe_opportunity, opportunity_narrative.
    by rewrite (extract_keywords_raises _ _ _ _ _ _ Hv).
  - intros Hv Hnone. unfold describe_opportunity.
    rewrite (opportunity_narrative_after_keywords _ _ _ _ _ _ _ _ _ _ _ _ _ _
               (extract_keywords_returns _ _ _ _ _ _ Hv)).
    rewrite bind_Return.
    destruct (filter _ _) as [|k ks] eqn:Hf; [done|]. exfalso.
    assert (Hk : k ∈ k :: ks) by left.
    rewrite <-Hf in Hk. apply list_elem_of_filter in Hk as [Hp Hk].
    rewrite sorted_desc_Permutation in Hk.
    eapply Hnone; [done|]. by apply passes_keyword_ok.
Qed.

Lemma opportunity_fallback_needs_features_that_all_fail_the_filter_witness :
  describe_opportunity no_match no_match no_split no_match same_string
    never_digit (always true) same_string (fun _ => [])
    all_features unit_weight first_choice ["water"]
  = Raise ValueError
  ∧ describe_opportunity no_match no_match no_split no_match same_string
      never_digit (always false) same_string word_analyzer
      all_features unit_weight first_choice ["water"]
    = Return (render_opportunity
                {| narrative_name := "Sustainable Opportunity";
                   narrative_description :=
                     fallback_description
                       +:+ summarize_text no_split never_digit
                             (String.concat " "
                                (map (clean_text no_match no_match no_match same_string)
                                     ["water"])) 3 |}).
Proof.
  split.
  - apply (opportunity_fallback_needs_features_that_all_fail_the_filter no_match
             no_match no_split no_match same_string never_digit (always true)
             same_string (fun _ => []) all_features unit_weight first_choice ["water"]).
    reflexivity.
  - apply (opportunity_fallback_needs_features_that_all_fail_the_filter no_match
             no_match no_split no_match same_string never_digit (always false)
             same_string word_analyzer all_features unit_weight first_choice ["water"]).
    + vm_compute. discriminate.
    + intros f _ (_ & _ & Hf). discriminate Hf.
Defined.

(** X15. Whatever template the random choice picks among those it is
    offered, the composed description ends with "Summary: " followed by the
    summary. *)
Theorem descriptions_end_with_the_summary
    (random_choice : list string → string) (summary : string)
    (keywords : list string) :
  (∀ xs, xs ≠ [] → random_choice xs ∈ xs) →
  ∃ prefix,
    compose_description random_choice summary keywords
    = prefix +:+ "Summary: " +:+ summary.
Proof.
  intros Hchoice. destruct keywords as [|kw1 rest].
  { by exists "This innovation addresses sustainability challenges through a novel approach. ". }
  unfold compose_description. cbv zeta.
  set (kw2 := default "technology" ((kw1 :: rest) !! 1)).
  set (kw3 := default "impact" ((kw1 :: rest) !! 2)).
  match goal with |- context [random_choice ?ts] =>
    generalize (Hchoice ts ltac:(done)); generalize (random_choice ts)
  end.
  intros t Hin.
  repeat (apply elem_of_cons in Hin as [->|Hin]); [..|by apply elem_of_nil in Hin].
  - exists ("This solution targets " +:+ kw1 +:+ " and " +:+ kw2
            +:+ ", enhancing real-world performance and impact. It improves " +:+ kw3
            +:+ " and aligns with SDGs. ").
    by rewrite !string_app_assoc.
  - exists ("A novel advancement in " +:+ kw1 +:+ " and " +:+ kw2
            +:+ ", this innovation offers practical benefits for " +:+ kw3
            +:+ ". It supports sustainability goals through technology integration. ").
    by rewrite !string_app_assoc.
  - exists ("Focused on " +:+ kw1 +:+ " applications combined with " +:+ kw2
            +:+ ", the system introduces improvements in " +:+ kw3
            +:+ ". This contributes to the Sustainable Development Goals. ").
    by rewrite !string_app_assoc.
  - exists ("This work combines " +:+ kw1 +:+ " and " +:+ kw2
            +:+ " to address emerging challenges in " +:+ kw3
            +:+ ". It supports innovation aligned with global SDG priorities. ").
    by rewrite !string_app_assoc.
Qed.

Lemma descriptions_end_with_the_summary_witness :
  ∃ prefix,
    compose_description first_choice "A filter." ["water"; "energy"]
    = prefix +:+ "Summary: " +:+ "A filter.".
Proof.
  apply (descriptions_end_with_the_summary first_choice "A filter." ["water"; "energy"]).
  intros [|x xs] Hxs; [done|]. left.
Defined.

(** ** Reading the input *)

Lemma py_count_cons x y l :
  py_count x (y :: l) = (if decide (y = x) then 1 else 0) + py_count x l.
Proof. unfold py_count. rewrite filter_cons. by case_decide. Qed.

Lemma py_count_0 x l : x ∉ l ↔ py_count x l = 0.
Proof.
  induction l as [|y l IH]; [by split; [|intros _ ?%elem_of_nil]|].
  rewrite py_count_cons, not_elem_of_cons, IH.
  case_decide; split; intros; try lia; naive_solver.
Qed.

Lemma NoDup_py_count l : NoDup l ↔ ∀ x, py_count x l ≤ 1.
Proof.
  induction l as [|y l IH].
  - split; [intros _ x; unfold py_count; simpl; lia|constructor].
  - rewrite NoDup_cons, IH, py_count_0. split.
    + intros [Hy Hl] x. rewrite py_count_cons. case_decide; [subst; lia|apply Hl].
    + intros Hall. split.
      * specialize (Hall y). rewrite py_count_cons, decide_True in Hall by done. lia.
      * intros x. specialize (Hall x). rewrite py_count_cons in Hall. lia.
Qed.

(** No name counted more than once means no name repeated. *)
Lemma no_duplicates_NoDup l :
  filter (fun name => 1 < py_count name l) l = [] ↔ NoDup l.
Proof.
  rewrite NoDup_py_count. split.
  - intros Hnil x. destruct (decide (x ∈ l)) as [Hx|Hx].
    + destruct (decide (1 < py_count x l)) as [Hc|]; [|lia].
      assert (Hin : x ∈ filter (fun name => 1 < py_count name l) l).
      { by apply list_elem_of_filter. }
      rewrite Hnil in Hin. by apply elem_of_nil in Hin.
    + apply py_count_0 in Hx. lia.
  - intros Hall. destruct (filter _ l) as [|x r] eqn:Hf; [done|].
    assert (Hin : x ∈ x :: r) by left.
    rewrite <-Hf in Hin. apply list_elem_of_filter in Hin as [Hc _].
    specialize (Hall x). lia.
Qed.

Lemma list_to_set_empty_iff (l : list string) :
  (list_to_set l : gset string) = ∅ ↔ l = [].
Proof.
  split; [|by intros ->].
  destruct l as [|x l]; [done|]. intros Hs.
  assert (Hx : x ∈ (list_to_set (x :: l) : gset string)).
  { apply elem_of_list_to_set. left. }
  rewrite Hs in Hx. by apply elem_of_empty in Hx.
Qed.

Lemma endswith_same_length s a b :
  endswith s a = true → endswith s b = true →
  length (list_ascii_of_string a) = length (list_ascii_of_string b) →
  list_ascii_of_string a = list_ascii_of_string b.
Proof.
  unfold endswith. intros [k1 H1]%bool_decide_eq_true [k2 H2]%bool_decide_eq_true Hlen.
  rewrite H1 in H2. by apply app_inj_2 in H2 as [_ ?].
Qed.

Lemma filter_cons_bool {A} (p : A → bool) x l :
  filter (fun y => p y = true) (x :: l)
  = if p x then x :: filter (fun y => p y = true) l
    else filter (fun y => p y = true) l.
Proof.
  rewrite filter_cons. destruct (p x); [by rewrite decide_True|by rewrite decide_False].
Qed.

Lemma filter_all {A} (P : A → Prop) `{∀ x, Decision (P x)} (l : list A) :
  Forall P l → filter P l = l.
Proof.
  induction 1 as [|x l Hx _ IH]; [done|].
  by rewrite filter_cons, decide_True, IH.
Qed.

Lemma filter_none {A} (P : A → Prop) `{∀ x, Decision (P x)} (l : list A) :
  Forall (fun x => ¬ P x) l → filter P l = [].
Proof.
  induction 1 as [|x l Hx _ IH]; [done|].
  by rewrite filter_cons, decide_False, IH.
Qed.

Section ReadInputFacts.
Variable str_strip : string → string.
Variable str_lower : string → string.
Variable extract_text_from_file : UploadedFile → result (option string).
Variable parse : UploadedFile → option Element.
Variable extract_texts_from_zip_any_structure : UploadedFile → dict string string.

Local Abbreviation is_pdf := (is_pdf str_lower).
Local Abbreviation is_zip := (is_zip str_lower).
Local Abbreviation is_xml := (is_xml str_lower).
Local Abbreviation read_input' :=
  (read_input str_strip str_lower extract_text_from_file parse
     extract_texts_from_zip_any_structure).

(** A name has one extension. *)
Lemma pdf_not_zip f : is_pdf f = true → is_zip f = false.
Proof.
  intros Hp. destruct (is_zip f) eqn:Hz; [|done].
  by assert (H := endswith_same_length _ _ _ Hp Hz eq_refl).
Qed.

Lemma pdf_not_xml f : is_pdf f = true → is_xml f = false.
Proof.
  intros Hp. destruct (is_xml f) eqn:Hx; [|done].
  by assert (H := endswith_same_length _ _ _ Hp Hx eq_refl).
Qed.

Lemma zip_not_xml f : is_zip f = true → is_xml f = false.
Proof.
  intros Hz. destruct (is_xml f) eqn:Hx; [|done].
  by assert (H := endswith_same_length _ _ _ Hz Hx eq_refl).
Qed.

(** The three lists together are the files with an accepted extension. *)
Lemma accepted_files_Permutation (files : list UploadedFile) :
  filter (fun f => is_pdf f = true) files
  ++ filter (fun f => is_zip f = true) files
  ++ filter (fun f => is_xml f = true) files
  ≡ₚ filter (fun f => is_pdf f || is_zip f || is_xml f = true) files.
Proof.
  induction files as [|f files IH]; [done|].
  rewrite (filter_cons_bool is_pdf), (filter_cons_bool is_zip), (filter_cons_bool is_xml).
  rewrite (filter_cons_bool (fun f => is_pdf f || is_zip f || is_xml f)).
  destruct (is_pdf f) eqn:Hp.
  - rewrite (pdf_not_zip f Hp), (pdf_not_xml f Hp). simpl. by rewrite IH.
  - destruct (is_zip f) eqn:Hz.
    + rewrite (zip_not_xml f Hz). simpl.
      rewrite <-IH. by rewrite <-Permutation_middle.
    + destruct (is_xml f) eqn:Hx; simpl; [|done].
      rewrite <-IH. rewrite (assoc (++)), <-Permutation_middle.
      by rewrite <-(assoc (++)).
Qed.

Lemma read_input_duplicates user_text files D :
  read_input' user_text files = inl (DuplicateFiles D) ↔
  D = list_to_set
        (filter (fun name =>
                   1 < py_count name
                         (map file_name
                            (filter (fun f => is_pdf f = true) files
                             ++ filter (fun f => is_zip f = true) files
                             ++ filter (fun f => is_xml f = true) files)))
           (map file_name
              (filter (fun f => is_pdf f = true) files
               ++ filter (fun f => is_zip f = true) files
               ++ filter (fun f => is_xml f = true) files)))
  ∧ D ≠ ∅.
Proof.
  unfold read_input. cbv zeta. case_bool_decide as Hd.
  - split; [by intros [= <-]|by intros [-> _]].
  - split; [|intros [-> ?]; done].
    intros Heq. exfalso. revert Heq.
    destruct (negb _); [discriminate|].
    destruct (filter (fun f => is_zip f = true) files) as [|z zs].
    + destruct (nonempty _); [by destruct (extract_texts_from_pdf_batch _ _ _)|].
      destruct (nonempty _); [by destruct (foldl _ _ _)|].
      by destruct (_ || _).
    + by destruct (extract_texts_from_zip_any_structure z).
Qed.
End ReadInputFacts.

(** X16. The handler stops with the duplicate-file message exactly when
    two uploaded files with an accepted extension (pdf, zip or xml, in any
    letter case) have the same name, and the names it reports are those
    carried by more than one such file. *)
Theorem duplicate_names_stop_the_handler
    (str_strip str_lower : string → string)
    (extract_text_from_file : UploadedFile → result (option string))
    (parse : UploadedFile → option Element)
    (extract_texts_from_zip_any_structure : UploadedFile → dict string string)
    (user_text : string) (files : list UploadedFile) :
  ((∃ D, read_input str_strip str_lower extract_text_from_file parse
           extract_texts_from_zip_any_structure user_text files
         = inl (DuplicateFiles D))
   ↔ ¬ NoDup (map file_name
                (filter (fun f => is_pdf str_lower f || is_zip str_lower f
                                  || is_xml str_lower f = true) files)))
  ∧ (∀ D, read_input str_strip str_lower extract_text_from_file parse
            extract_texts_from_zip_any_structure user_text files
          = inl (DuplicateFiles D) →
       ∀ name, name ∈ D ↔
         1 < py_count name
               (map file_name
                  (filter (fun f => is_pdf str_lower f || is_zip str_lower f
                                    || is_xml str_lower f = true) files))).
Proof.
  assert (Hperm := Permutation_map file_name
                     (accepted_files_Permutation str_lower files)).
  set (names := map file_name (filter _ files)) in *.
  set (all_names := map file_name (_ ++ _ ++ _)) in *.
  assert (Hcount : ∀ name, py_count name all_names = py_count name names).
  { intros name. unfold py_count. by rewrite Hperm. }
  split.
  - split.
    + intros [D [-> HD]%read_input_duplicates]. fold all_names in HD.
      intros Hnd. apply HD. apply list_to_set_empty_iff, no_duplicates_NoDup.
      by rewrite Hperm.
    + intros Hnd. eexists. apply read_input_duplicates. split; [done|].
      fold all_names. rewrite list_to_set_empty_iff, no_duplicates_NoDup.
      by rewrite Hperm.
  - intros D [-> _]%read_input_duplicates name. fold all_names.
    rewrite elem_of_list_to_set, list_elem_of_filter, Hcount. split; [by intros [? _]|].
    intros Hc. split; [done|].
    destruct (decide (name ∈ all_names)) as [|Hn]; [done|].
    apply py_count_0 in Hn. rewrite Hcount in Hn. lia.
Qed.

(** X17. When only archives are uploaded, under distinct names and with no
    text entered, the handler reads the first archive and nothing else: the
    other archives pass the "exactly one input type" check and are then
    ignored. *)
Theorem only_the_first_archive_is_read
    (str_strip str_lower : string → string)
    (extract_text_from_file : UploadedFile → result (option string))
    (parse : UploadedFile → option Element)
    (extract_texts_from_zip_any_structure : UploadedFile → dict string string)
    (user_text : string) (z : UploadedFile) (rest : list UploadedFile) :
  str_strip user_text = EmptyString →
  Forall (fun f => is_zip str_lower f = true) (z :: rest) →
  NoDup (map file_name (z :: rest)) →
  read_input str_strip str_lower extract_text_from_file parse
    extract_texts_from_zip_any_structure user_text (z :: rest)
  = match extract_texts_from_zip_any_structure z with
    | [] => inl NoValidText
    | text_data => inr text_data
    end.
Proof.
  intros Hstrip Hzips Hnd. unfold read_input. cbv zeta. rewrite Hstrip.
  assert (Hp : filter (fun f => is_pdf str_lower f = true) (z :: rest) = []).
  { apply filter_none. eapply Forall_impl; [done|]. simpl. intros f Hz Hp.
    apply pdf_not_zip in Hp. congruence. }
  assert (Hx : filter (fun f => is_xml str_lower f = true) (z :: rest) = []).
  { apply filter_none. eapply Forall_impl; [done|]. simpl. intros f Hz Hx.
    apply zip_not_xml in Hz. congruence. }
  rewrite Hp, Hx, (filter_all _ _ Hzips). rewrite app_nil_l, app_nil_r.
  rewrite (proj2 (no_duplicates_NoDup _) Hnd).
  rewrite bool_decide_eq_false_2 by (intros H; by apply H).
  by destruct (extract_texts_from_zip_any_structure z).
Qed.

Lemma only_the_first_archive_is_read_witness :
  read_input same_string lower_ascii no_text unparsed archive_listing
    EmptyString [first_archive; second_archive]
  = inr [("first.ZIP", "one")].
Proof.
  apply (only_the_first_archive_is_read same_string lower_ascii no_text unparsed
           archive_listing EmptyString first_archive [second_archive]).
  - reflexivity.
  - repeat constructor.
  - apply (bool_decide_unpack _). vm_compute. exact I.
Defined.

(** ** Batches of files *)

Lemma truthy_true s : truthy s = true ↔ s ≠ EmptyString.
Proof. unfold truthy. by rewrite negb_true_iff, String.eqb_neq. Qed.

Lemma substring_length_le s : ∀ n, String.length (substring 0 n s) ≤ n.
Proof.
  induction s as [|c s IH]; intros [|n]; simpl; try lia.
  specialize (IH n). lia.
Qed.

Lemma substring_nonempty s n : s ≠ EmptyString → substring 0 (S n) s ≠ EmptyString.
Proof. by destruct s. Qed.

(** Entries under fresh keys are appended in order. *)
Lemma fold_set_fresh {A} (g : A → option (string * string)) (name : A → string)
    (step : dict string string → A → dict string string) (xs : list A) :
  (∀ d x, step d x = match g x with Some kv => set d kv.1 kv.2 | None => d end) →
  (∀ x kv, g x = Some kv → kv.1 = name x) →
  ∀ acc, NoDup (keys acc ++ map name xs) →
    foldl step acc xs = acc ++ omap g xs.
Proof.
  intros Hstep Hname. induction xs as [|x xs IH]; intros acc Hnd; simpl.
  { by rewrite app_nil_r. }
  simpl in Hnd. rewrite Hstep.
  assert (Hrest : NoDup (keys acc ++ map name xs)).
  { apply NoDup_app in Hnd as (Hacc & Hdisj & [_ Hxs]%NoDup_cons).
    apply NoDup_app. split_and!; [done| |done].
    intros k Hk Hin. apply (Hdisj k Hk). by right. }
  destruct (g x) as [[k v]|] eqn:Hg; simpl.
  - assert (Hk := Hname x (k, v) Hg). simpl in Hk. subst k.
    rewrite set_fresh.
    + rewrite IH; [by rewrite <-app_assoc|].
      unfold keys. rewrite fmap_app. simpl. rewrite <-app_assoc. simpl.
      by rewrite <-Permutation_middle in Hnd |- *.
    + apply NoDup_app in Hnd as (_ & Hdisj & _). intros Hin.
      apply (Hdisj _ Hin). left.
  - by apply IH.
Qed.

Lemma omap_keys_NoDup {A} (g : A → option (string * string)) (name : A → string)
    (xs : list A) :
  (∀ x kv, g x = Some kv → kv.1 = name x) →
  NoDup (map name xs) → dict_wf (omap g xs).
Proof.
  intros Hname. unfold dict_wf, keys.
  induction xs as [|x xs IH]; simpl; intros Hnd; [constructor|].
  apply NoDup_cons in Hnd as [Hx Hnd].
  destruct (g x) as [kv|] eqn:Hg; simpl; [|by apply IH].
  apply NoDup_cons. split; [|by apply IH].
  intros (kv' & Heq & (y & Hy & Hgy)%list_elem_of_omap)%list_elem_of_fmap.
  apply Hx. rewrite <-(Hname x kv Hg), Heq, (Hname y kv' Hgy).
  apply list_elem_of_In, in_map, list_elem_of_In, Hy.
Qed.

Section PdfBatch.
Variable str_strip : string → string.
Variable extract_text_from_file : UploadedFile → result (option string).

Local Abbreviation kept :=
  (fun file : UploadedFile =>
     match extract_text_from_file file with
     | Return (Some extracted) =>
         if truthy extracted then Some (file_name file, str_strip extracted) else None
     | _ => None
     end).

Lemma kept_name file kv : kept file = Some kv → kv.1 = file_name file.
Proof.
  cbv beta. destruct (extract_text_from_file file) as [[t|]|]; [|done..].
  destruct (truthy t); [|done]. by intros [= <-].
Qed.

Lemma pdf_batch_spec files :
  NoDup (map file_name files) →
  extract_texts_from_pdf_batch str_strip extract_text_from_file files = omap kept files.
Proof.
  intros Hnd. unfold extract_texts_from_pdf_batch.
  rewrite (fold_set_fresh kept file_name); [done| |apply kept_name|done].
  intros d x. cbv beta. destruct (extract_text_from_file x) as [[t|]|]; [|done..].
  by destruct (truthy t).
Qed.
End PdfBatch.

(** X18. On PDF files with distinct names the batch extractor never
    raises and returns a dict with distinct keys in which a file name is
    bound exactly when the extraction of that file returned a non-empty
    text; the stored text is the extracted one, stripped.  Files whose
    extraction raised, returned [None] or returned an empty text are
    skipped. *)
Theorem pdf_batch_keeps_the_files_with_text
    (str_strip : string → string)
    (extract_text_from_file : UploadedFile → result (option string))
    (files : list UploadedFile) :
  NoDup (map file_name files) →
  dict_wf (extract_texts_from_pdf_batch str_strip extract_text_from_file files)
  ∧ ∀ name v,
      get (extract_texts_from_pdf_batch str_strip extract_text_from_file files) name
      = Some v
      ↔ ∃ f t, f ∈ files ∧ file_name f = name
               ∧ extract_text_from_file f = Return (Some t)
               ∧ t ≠ EmptyString ∧ v = str_strip t.
Proof.
  intros Hnd. rewrite pdf_batch_spec by done.
  assert (Hwf : dict_wf
                  (omap (fun file : UploadedFile =>
                           match extract_text_from_file file with
                           | Return (Some extracted) =>
                               if truthy extracted
                               then Some (file_name file, str_strip extracted) else None
                           | _ => None
                           end) files)).
  { eapply omap_keys_NoDup; [apply kept_name|done]. }
  split; [done|]. intros name v. split.
  - intros (f & Hf & Hk)%get_Some_elem_of%list_elem_of_omap.
    destruct (extract_text_from_file f) as [[t|]|] eqn:He; [|done..].
    destruct (truthy t) eqn:Ht; [|done]. injection Hk as <- <-.
    exists f, t. split_and!; [done..| |done]. by apply truthy_true.
  - intros (f & t & Hf & <- & He & Ht & ->).
    apply get_elem_of; [done|]. apply list_elem_of_omap. exists f. split; [done|].
    rewrite He. by rewrite (proj2 (truthy_true t) Ht).
Qed.

Lemma pdf_batch_keeps_the_files_with_text_witness :
  dict_wf (extract_texts_from_pdf_batch same_string flat_text
             [first_archive; second_archive])
  ∧ ∀ name v,
      get (extract_texts_from_pdf_batch same_string flat_text
             [first_archive; second_archive]) name
      = Some v
      ↔ ∃ f t, f ∈ [first_archive; second_archive] ∧ file_name f = name
               ∧ flat_text f = Return (Some t)
               ∧ t ≠ EmptyString ∧ v = same_string t.
Proof.
  apply (pdf_batch_keeps_the_files_with_text same_string flat_text
           [first_archive; second_archive]).
  apply (bool_decide_unpack _). vm_compute. exact I.
Defined.

Section XmlBatch.
Variable str_strip : string → string.
Variable parse : UploadedFile → option Element.

Lemma extract_text_from_ep_xml_Some parsed max_chars text :
  extract_text_from_ep_xml str_strip parsed (S max_chars) = Some text →
  text ≠ EmptyString ∧ String.length text ≤ S max_chars.
Proof.
  unfold extract_text_from_ep_xml. destruct parsed as [root|]; [|done].
  destruct (truthy _) eqn:Ht; [|done]. intros [= <-]. split.
  - apply substring_nonempty. by apply truthy_true.
  - apply substring_length_le.
Qed.

Local Abbreviation entry :=
  (fun x : UploadedFile =>
     match extract_text_from_ep_xml str_strip (parse x) 5000 with
     | Some text => Some (file_name x, text)
     | None => None
     end).

Lemma entry_name x kv : entry x = Some kv → kv.1 = file_name x.
Proof.
  cbv beta. destruct (extract_text_from_ep_xml _ _ _); [|done]. by intros [= <-].
Qed.

Lemma xml_batch_spec xmls :
  NoDup (map file_name xmls) →
  foldl (fun text_data x =>
           update text_data (extract_text_from_ep_xml_file str_strip parse x)) [] xmls
  = omap entry xmls.
Proof.
  intros Hnd.
  rewrite (fold_set_fresh entry file_name); [done| |apply entry_name|done].
  intros d x. cbv beta. unfold extract_text_from_ep_xml_file.
  destruct (extract_text_from_ep_xml str_strip (parse x) 5000) as [text|] eqn:He;
    [|done].
  destruct (extract_text_from_ep_xml_Some _ _ _ He) as [Hne _].
  by rewrite (proj2 (truthy_true text) Hne).
Qed.
End XmlBatch.

(** X19. When only XML files are uploaded, under distinct names and with
    no text entered, the handler either stops for want of text, and then no
    file yielded any, or goes on with a dict with distinct keys that binds a
    file name exactly when the XML extractor returned a text for that file;
    every text it holds is non-empty and at most 5000 characters long. *)
Theorem xml_batch_texts_are_nonempty_and_truncated
    (str_strip str_lower : string → string)
    (extract_text_from_file : UploadedFile → result (option string))
    (parse : UploadedFile → option Element)
    (extract_texts_from_zip_any_structure : UploadedFile → dict string string)
    (user_text : string) (files : list UploadedFile) :
  str_strip user_text = EmptyString →
  files ≠ [] →
  Forall (fun f => is_xml str_lower f = true) files →
  NoDup (map file_name files) →
  (read_input str_strip str_lower extract_text_from_file parse
     extract_texts_from_zip_any_structure user_text files
   = inl NoValidText
   ∧ ∀ x, x ∈ files → extract_text_from_ep_xml str_strip (parse x) 5000 = None)
  ∨ (∃ text_data,
       read_input str_strip str_lower extract_text_from_file parse
         extract_texts_from_zip_any_structure user_text files
       = inr text_data
       ∧ dict_wf text_data
       ∧ (∀ name text,
            get text_data name = Some text
            ↔ ∃ x, x ∈ files ∧ file_name x = name
                   ∧ extract_text_from_ep_xml str_strip (parse x) 5000 = Some text)
       ∧ (∀ name text, get text_data name = Some text →
            text ≠ EmptyString ∧ String.length text ≤ 5000)).
Proof.
  intros Hstrip Hne Hxmls Hnd.
  assert (Hp : filter (fun f => is_pdf str_lower f = true) files = []).
  { apply filter_none. eapply Forall_impl; [done|]. simpl. intros f Hx Hp.
    apply pdf_not_xml in Hp. congruence. }
  assert (Hz : filter (fun f => is_zip str_lower f = true) files = []).
  { apply filter_none. eapply Forall_impl; [done|]. simpl. intros f Hx Hz.
    apply zip_not_xml in Hz. congruence. }
  set (entry := fun x : UploadedFile =>
                  match extract_text_from_ep_xml str_strip (parse x) 5000 with
                  | Some text => Some (file_name x, text)
                  | None => None
                  end).
  assert (Hrun : read_input str_strip str_lower extract_text_from_file parse
                   extract_texts_from_zip_any_structure user_text files
                 = match omap entry files with
                   | [] => inl NoValidText
                   | text_data => inr text_data
                   end).
  { unfold read_input. cbv zeta. rewrite Hstrip, Hp, Hz, (filter_all _ _ Hxmls).
    rewrite !app_nil_l. rewrite (proj2 (no_duplicates_NoDup _) Hnd).
    rewrite bool_decide_eq_false_2 by (intros H; by apply H).
    rewrite (xml_batch_spec str_strip parse files Hnd). fold entry.
    assert (nonempty files = true) as -> by by destruct files.
    simpl. by destruct (omap entry files). }
  assert (Hwf : dict_wf (omap entry files)).
  { eapply omap_keys_NoDup; [apply entry_name|done]. }
  assert (Hget : ∀ name text,
            get (omap entry files) name = Some text
            ↔ ∃ x, x ∈ files ∧ file_name x = name
                   ∧ extract_text_from_ep_xml str_strip (parse x) 5000 = Some text).
  { intros name text. split.
    - intros (x & Hx & Hk)%get_Some_elem_of%list_elem_of_omap. unfold entry in Hk.
      destruct (extract_text_from_ep_xml str_strip (parse x) 5000) eqn:He; [|done].
      injection Hk as <- <-. by exists x.
    - intros (x & Hx & <- & He). apply get_elem_of; [done|].
      apply list_elem_of_omap. exists x. split; [done|]. unfold entry. by rewrite He. }
  destruct (omap entry files) as [|kv text_data] eqn:Hom.
  - left. split; [done|]. intros x Hx.
    destruct (extract_text_from_ep_xml str_strip (parse x) 5000) as [text|] eqn:He;
      [|done].
    assert (Hin : get [] (file_name x) = Some text) by (apply Hget; by exists x).
    done.
  - right. exists (kv :: text_data). split_and!; [done..|].
    intros name text (x & _ & _ & He)%Hget.
    by apply (extract_text_from_ep_xml_Some str_strip (parse x) 4999).
Qed.

Lemma xml_batch_texts_are_nonempty_and_truncated_witness :
  (read_input same_string lower_ascii no_text sample_parse archive_listing
     EmptyString [sample_upload]
   = inl NoValidText
   ∧ ∀ x, x ∈ [sample_upload] →
       extract_text_from_ep_xml same_string (sample_parse x) 5000 = None)
  ∨ (∃ text_data,
       read_input same_string lower_ascii no_text sample_parse archive_listing
         EmptyString [sample_upload]
       = inr text_data
       ∧ dict_wf text_data
       ∧ (∀ name text,
            get text_data name = Some text
            ↔ ∃ x, x ∈ [sample_upload] ∧ file_name x = name
                   ∧ extract_text_from_ep_xml same_string (sample_parse x) 5000
                     = Some text)
       ∧ (∀ name text, get text_data name = Some text →
            text ≠ EmptyString ∧ String.length text ≤ 5000)).
Proof.
  apply (xml_batch_texts_are_nonempty_and_truncated same_string lower_ascii no_text
           sample_parse archive_listing EmptyString [sample_upload]).
  - reflexivity.
  - done.
  - repeat constructor.
  - apply (bool_decide_unpack _). vm_compute. exact I.
Defined.

(** The text the extractor finds in the sample document. *)
Example sample_document_text :
  extract_text_from_ep_xml same_string (Some sample_document) 5000
  = Some "A water filter.  A filter.".
Proof. reflexivity. Qed.

(** ** Links and clusters *)

(** X20. With the handler's two constants, linking is stricter than
    clustering: two documents the linking loop joins (similarity above
    0.75) always form one of the clusters the engine returns at threshold
    0.35 on the same embeddings. *)
Theorem linked_documents_form_a_cluster
    (cosine_similarity : vec → vec → Q) (G : Nx.Graph) (d : dict string vec)
    (i j : nat) (f1 f2 : string) (e1 e2 : vec) :
  Nx.wf G → dict_wf d → i < j →
  d !! i = Some (f1, e1) → d !! j = Some (f2, e2) →
  Nx.edge_weight G (patent_node_id f1) (patent_node_id f2) = None →
  Nx.has_edge (link_documents cosine_similarity G d)
    (patent_node_id f1) (patent_node_id f2) →
  ∃ nodes conns,
    generate_shared_opportunity_nodes cosine_similarity d 0.35 = Return (nodes, conns)
    ∧ ({[f1; f2]} : gset string) ∈ values conns.
Proof.
  intros HwfG Hwf Hij Hi Hj Hnone [w Hw].
  unfold link_documents in Hw.
  rewrite (link_documents_edge cosine_similarity 0.75 G d i j f1 e1 f2 e2) in Hw by done.
  destruct (Qgt_bool (cosine_similarity e1 e2) 0.75) eqn:Hgt; [|congruence].
  apply Qgt_bool_lt in Hgt.
  eexists _, _. split; [by apply generate_spec|].
  rewrite connections_values, accepted_spec by done.
  apply list_elem_of_fmap. exists ((f1, e1), (f2, e2)). split; [done|].
  apply list_elem_of_filter. split.
  - apply (similar_true _ _ f1 e1 f2 e2). apply Qlt_le_weak.
    eapply Qle_lt_trans; [|exact Hgt]. done.
  - apply elem_of_combinations2. by exists i, j.
Qed.

Lemma linked_documents_form_a_cluster_witness :
  ∃ nodes conns,
    generate_shared_opportunity_nodes flat_similarity ab_embeddings 0.35
    = Return (nodes, conns)
    ∧ ({["A"; "B"]} : gset string) ∈ values conns.
Proof.
  apply (linked_documents_form_a_cluster flat_similarity Nx.empty ab_embeddings
           0 1 "A" "B" [1%Q] [2%Q]).
  - apply NxFacts.wf_empty.
  - apply (bool_decide_unpack _). vm_compute. exact I.
  - lia.
  - reflexivity.
  - reflexivity.
  - reflexivity.
  - exists 1%Q. vm_compute. reflexivity.
Defined.
